(** * generator-utils: lazy sequence combinators

    A shallow embedding of the combinators of generator-utils.  The
    repository holds two families of implementations:

    - [Lib]: lib/index.js (and its builds in dist/ and README.md), where a
      generator is a plain object with a [next] closure over mutable
      variables;
    - [Ts]: src/index.ts, written with generator functions, in its two
      revisions (the one whose [combine] drains its inputs with
      [Array.from], and the later one whose [combine] replays a [copy]).

    Every closure object is a constructor whose fields are the variables
    the closure captures; calling [next] returns the iteration result
    together with the updated object.  Callbacks with side effects and
    hand-written generators act on a world [W] that is threaded through
    every call.  A call that does not return is a call that needs more
    fuel than any number supplies.

    Two things are outside the embedding.  [flatten] is not modelled: its
    values are generators, which the values below cannot hold.  And an
    array handed to [fromArray], [concat] or [combine] is the array as it
    was when the generator was made: the closures of lib/index.js read
    [array.length] again at every call, and nothing here lets the caller
    change the array between two calls. *)

From stdpp Require Import base numbers option list.

Set Warnings "-register-all".

(** ** JavaScript values and iteration results *)

(** The values that flow through the sequences.  A number is an IEEE-754
    double; the library only counts with whole numbers, and [VNum n] is
    the double whose value is the integer [n].  Arrays are immutable
    lists. *)
Inductive val : Type :=
| VUndefined
| VNull
| VBool (b : bool)
| VNum (n : Z)
| VArr (items : list val).

(** [{ value, done }] *)
Record IteratorResult : Type := { value : val; done : bool }.

(** [Number.MAX_SAFE_INTEGER], [2^53 - 1].  Every integer from
    [-2^53] to [2^53] is a double; beyond, only the multiples of a power
    of two are. *)
Definition MAX_SAFE_INTEGER : Z := 9007199254740991.

(** The double nearest to the integer [z], a tie going to the one whose
    significand is even: the integers from [2^(52+e)] to [2^(53+e)] that
    are doubles are the multiples of [2^e]. *)
Definition to_double (z : Z) : Z :=
  if (Z.abs z <=? MAX_SAFE_INTEGER + 1)%Z then z
  else
    let e := (Z.log2 (Z.abs z) - 52)%Z in
    let q := (Z.abs z / 2 ^ e)%Z in
    let r := (Z.abs z mod 2 ^ e)%Z in
    let half := (2 ^ (e - 1))%Z in
    let q := if (r <? half)%Z then q
             else if (half <? r)%Z then (q + 1)%Z
             else if Z.even q then q else (q + 1)%Z in
    (Z.sgn z * (q * 2 ^ e))%Z.

(** [i++] leaves [i + 1] in [i], rounded to a double.  (No finite double
    becomes [Infinity] this way: from [2^54] on, [i + 1] rounds back to
    [i].) *)
Definition increment (i : Z) : Z := to_double (i + 1).

(** [if (v)]: JavaScript truthiness. *)
Definition truthy (v : val) : bool :=
  match v with
  | VUndefined | VNull => false
  | VBool b => b
  | VNum n => negb (n =? 0)%Z
  | VArr _ => true
  end.

(** [v !== undefined] *)
Definition defined (v : val) : bool :=
  match v with VUndefined => false | _ => true end.

(** [array[i]]: reading past the end of an array gives [undefined]. *)
Definition array_at (array : list val) (i : nat) : val :=
  default VUndefined (array !! i).

(** [[head, ...tail]] and [tail = t.slice(); tail.unshift(head)].  The
    spread of a value that is not an array throws in JavaScript; [combine]
    only spreads the tuples produced by an inner [combine]. *)
Definition cons_tuple (head tail : val) : val :=
  match tail with
  | VArr items => VArr (head :: items)
  | _ => VUndefined
  end.

(** [v[i]] on a value that is an array. *)
Definition item (v : val) (i : nat) : val :=
  match v with
  | VArr items => array_at items i
  | _ => VUndefined
  end.

Definition yielded (v : val) : IteratorResult := {| value := v; done := false |}.

(** ** Consumers, over any object with a [next] method

    [S] is the state a call of [next] acts on (the generator object and
    the world); [next s] is [None] when the call does not return. *)
Section Consumers.
Context {St : Type} (next : St → option (IteratorResult * St)).

(** lib/index.js [take]:
    [while (count-- > 0) { iteration = generator.next();
       if (iteration.done) break; result.push(iteration.value); }] *)
Fixpoint lib_take_loop (count : nat) (generator : St) (result : list val)
  : option (list val * St) :=
  match count with
  | O => Some (result, generator)
  | S count =>
      '(iteration, generator) ← next generator;
      if done iteration then Some (result, generator)
      else lib_take_loop count generator (result ++ [value iteration])
  end.

Definition lib_take (generator : St) (count : Z) : option (list val * St) :=
  lib_take_loop (Z.to_nat count) generator [].

(** src/index.ts [take]: as above, but
    [if (iteration.done) { if (iteration.value !== undefined)
       result.push(iteration.value); break; }] *)
Fixpoint ts_take_loop (count : nat) (iterator : St) (result : list val)
  : option (list val * St) :=
  match count with
  | O => Some (result, iterator)
  | S count =>
      '(iteration, iterator) ← next iterator;
      if done iteration then
        Some (if defined (value iteration)
              then result ++ [value iteration] else result, iterator)
      else ts_take_loop count iterator (result ++ [value iteration])
  end.

Definition ts_take (iterator : St) (count : Z) : option (list val * St) :=
  ts_take_loop (Z.to_nat count) iterator [].

(** [forEach]: [for (var iteration; !(iteration = generator.next()).done;)
    iterator(iteration.value)], the callback acting on a state [A].  The
    loop has no bound of its own: [fuel] bounds its iterations. *)
Fixpoint forEach {A : Type} (fuel : nat) (generator : St)
    (iterator : val → A → A) (acc : A) : option (A * St) :=
  match fuel with
  | O => None
  | S fuel =>
      '(iteration, generator) ← next generator;
      if done iteration then Some (acc, generator)
      else forEach fuel generator iterator (iterator (value iteration) acc)
  end.

(** [toArray]: [results = []; forEach(generator, value => results.push(value))];
    [Array.from(iterable)] runs the same loop. *)
Definition toArray (fuel : nat) (generator : St) : option (list val * St) :=
  forEach fuel generator (λ value results, results ++ [value]) [].

(** A test double: the generator together with the number of times its
    [next] has been called. *)
Definition spy (g : nat * St) : option (IteratorResult * (nat * St)) :=
  '(iteration, generator) ← next g.2;
  Some (iteration, (S g.1, generator)).

(** [calls k g]: what [k] successive calls of [next] return. *)
Fixpoint calls (k : nat) (g : St) : option (list IteratorResult * St) :=
  match k with
  | O => Some ([], g)
  | S k =>
      '(iteration, g) ← next g;
      '(iterations, g) ← calls k g;
      Some (iteration :: iterations, g)
  end.
End Consumers.

(** * lib/index.js *)
Module Lib.
Section Lib.
Context {W : Type}.

(** The generator objects of lib/index.js, one constructor per [next]
    closure, with the variables it closes over.  The callbacks of [map]
    and [filter] are pure; [transform(value, skip)] of [filterMap] returns
    its result, whether it called [skip], and the world it leaves. *)
Inductive gen : Type :=
| Exhausted
    (* [{ next() { return { value: null, done: true }; } }] *)
| Custom (step : W → IteratorResult * W)
    (* any hand-written object with a [next] method *)
| NaturalNumbers (value : Z)
    (* the tests' [naturalNumbers] *)
| FromArray (array : list val) (offset : nat)
| Range (i max : Z)
| Map (generator : gen) (transformer : val → val)
| Filter (generator : gen) (predicate : val → bool)
| FilterMap (generator : gen) (transform : val → W → val * bool * W)
| Concat (generators : list gen) (offset : nat)
| Combine2 (left_ : gen) (allRight : list val)
    (leftIteration : option IteratorResult) (rightOffset : nat).

Definition exhausted : IteratorResult := {| value := VNull; done := true |}.

Fixpoint next (fuel : nat) (g : gen) (w : W)
  : option (IteratorResult * (gen * W)) :=
  match fuel with
  | O => None
  | S fuel =>
    match g with
    | Exhausted => Some (exhausted, (g, w))
    | Custom step =>
        let '(iteration, w) := step w in
        Some (iteration, (g, w))
    | NaturalNumbers value =>
        Some (yielded (VNum value), (NaturalNumbers (increment value), w))
    | FromArray array offset =>
        if bool_decide (offset < length array)
        then Some (yielded (array_at array offset),
                   (FromArray array (S offset), w))
        else Some (exhausted, (g, w))
    | Range i max =>
        if bool_decide (i ≤ max)%Z
        then Some (yielded (VNum i), (Range (increment i) max, w))
        else Some (exhausted, (g, w))
    | Map generator transformer =>
        '(iteration, (generator, w)) ← next fuel generator w;
        if done iteration then Some (iteration, (Map generator transformer, w))
        else Some (yielded (transformer (value iteration)),
                   (Map generator transformer, w))
    | Filter generator predicate =>
        '(iteration, (generator, w)) ← next fuel generator w;
        if done iteration
        then Some (iteration, (Filter generator predicate, w))
        else if negb (predicate (value iteration))
             then next fuel (Filter generator predicate) w
             else Some (iteration, (Filter generator predicate, w))
    | FilterMap generator transform =>
        '(iteration, (generator, w)) ← next fuel generator w;
        if done iteration
        then Some (iteration, (FilterMap generator transform, w))
        else
          let '(mapped, skipped, w) := transform (value iteration) w in
          let iteration := {| value := mapped; done := done iteration |} in
          if skipped then next fuel (FilterMap generator transform) w
          else Some (iteration, (FilterMap generator transform, w))
    | Concat generators offset =>
        if bool_decide (length generators ≤ offset)
        then Some (exhausted, (g, w))
        else
          generator ← generators !! offset;
          '(iteration, (generator, w)) ← next fuel generator w;
          let generators := <[offset := generator]> generators in
          if done iteration then next fuel (Concat generators (S offset)) w
          else Some (iteration, (Concat generators offset, w))
    | Combine2 left_ allRight leftIteration rightOffset =>
        '(leftIteration, (left_, w)) ←
          match leftIteration with
          | Some iteration => Some (iteration, (left_, w))
          | None => next fuel left_ w
          end;
        if done leftIteration
        then Some (leftIteration,
                   (Combine2 left_ allRight (Some leftIteration) rightOffset, w))
        else
          let nextRight := array_at allRight rightOffset in
          if truthy nextRight
          then Some (yielded (VArr [value leftIteration; nextRight]),
                     (Combine2 left_ allRight (Some leftIteration)
                        (S rightOffset), w))
          else next fuel (Combine2 left_ allRight None 0) w
    end
  end.

(** [generator.next()] as an action on the generator and the world. *)
Definition step (fuel : nat) (s : gen * W) : option (IteratorResult * (gen * W)) :=
  next fuel s.1 s.2.

Definition fromArray (array : list val) : gen := FromArray array 0.
Definition range (min max : Z) : gen := Range min max.
Definition map (generator : gen) (transformer : val → val) : gen :=
  Map generator transformer.
Definition filter (generator : gen) (predicate : val → bool) : gen :=
  Filter generator predicate.
Definition filterMap (generator : gen)
    (transform : val → W → val * bool * W) : gen :=
  FilterMap generator transform.
Definition naturalNumbers : gen := NaturalNumbers 0.

(** [switch (generators.length)]: none, [generators[0]] itself, or a new
    object starting at [offset = 0]. *)
Definition concat (generators : list gen) : gen :=
  match generators with
  | [] => Exhausted
  | [generator] => generator
  | _ => Concat generators 0
  end.

(** [case 2]: [allRight = toArray(generators[1])] is read when the
    generator is made. *)
Definition combine2 (fuel : nat) (left_ right_ : gen) (w : W)
  : option (gen * W) :=
  '(allRight, (_, w)) ← toArray (step fuel) fuel (right_, w);
  Some (Combine2 left_ allRight None 0, w).

Fixpoint combine (fuel : nat) (generators : list gen) (w : W)
  : option (gen * W) :=
  match generators with
  | [] => Some (Exhausted, w)
  | [generator] => Some (Map generator (λ value, VArr [value]), w)
  | head :: tail =>
      match tail with
      | [right_] => combine2 fuel head right_ w
      | _ =>
          '(inner, w) ← combine fuel tail w;
          '(pairs, w) ← combine2 fuel head inner w;
          Some (Map pairs (λ headAndTail,
                  cons_tuple (item headAndTail 0) (item headAndTail 1)), w)
      end
  end.

Definition take (fuel : nat) := lib_take (step fuel).
End Lib.
End Lib.

(** * src/index.ts *)

(** ** [copy]: the variables its closures share

    [values], [indexes] (one read position per iterator handed out),
    [done] and [maxIndex] ([None] is [Infinity]). *)
Record Copy (G : Type) : Type := {
  iterable : G;
  values : list val;
  indexes : list nat;
  done_ : bool;
  maxIndex : option Z
}.
Arguments iterable {G}.
Arguments values {G}.
Arguments indexes {G}.
Arguments done_ {G}.
Arguments maxIndex {G}.

Section CopyOps.
Context {G W : Type} (next : G * W → option (IteratorResult * (G * W))).

Definition copy (iterable : G) : Copy G :=
  {| iterable := iterable; values := []; indexes := [];
     done_ := false; maxIndex := None |}.

(** [index > maxIndex] *)
Definition beyond (index : nat) (maxIndex : option Z) : bool :=
  match maxIndex with
  | None => false
  | Some m => bool_decide (m < Z.of_nat index)%Z
  end.

(** One turn of the body of [while (values.length <= index)] when [done]
    is false: [take(iterable, 1)], then the bookkeeping. *)
Definition pull (c : Copy G) (w : W) : option (Copy G * W) :=
  '(valueArray, (iterable, w)) ← ts_take next (iterable c, w) 1;
  let '(done_, maxIndex) :=
    if bool_decide (length valueArray = 0)
    then (true, Some (Z.of_nat (length (values c)) - 1)%Z)
    else (done_ c, maxIndex c) in
  Some ({| iterable := iterable;
           values := values c ++ [array_at valueArray 0];
           indexes := indexes c;
           done_ := done_; maxIndex := maxIndex |}, w).

Fixpoint getIteratorResultAtIndex (fuel : nat) (c : Copy G) (w : W)
    (index : nat) : option (IteratorResult * (Copy G * W)) :=
  match fuel with
  | O => None
  | S fuel =>
      if bool_decide (length (values c) ≤ index) then
        if negb (done_ c) then
          '(c, w) ← pull c w;
          getIteratorResultAtIndex fuel c w index
        else getIteratorResultAtIndex fuel c w index
      else
        Some ({| value := array_at (values c) index;
                 done := beyond index (maxIndex c) |}, (c, w))
  end.

(** [[Symbol.iterator]()]: [id = iterators.length; indexes[id] = 0]. *)
Definition iterator (c : Copy G) : Copy G * nat :=
  ({| iterable := iterable c; values := values c;
      indexes := indexes c ++ [0];
      done_ := done_ c; maxIndex := maxIndex c |},
   length (indexes c)).

(** The [next] of iterator [id]:
    [getIteratorResultAtIndex(indexes[id]++)]. *)
Definition iterator_next (fuel : nat) (c : Copy G) (w : W) (id : nat)
  : option (IteratorResult * (Copy G * W)) :=
  index ← indexes c !! id;
  getIteratorResultAtIndex fuel
    {| iterable := iterable c; values := values c;
       indexes := <[id := S index]> (indexes c);
       done_ := done_ c; maxIndex := maxIndex c |}
    w index.
End CopyOps.

Module Ts.
Section Ts.
Context {W : Type}.

(** Generator objects: one constructor per generator function, holding
    its local variables at the [yield] where it is suspended.  A
    generator object is its own iterator. *)
Inductive genobj : Type :=
| Completed
    (* a generator whose body has returned *)
| Custom (step : W → IteratorResult * W)
    (* any hand-written iterator *)
| NaturalNumbers (value : Z)
    (* the tests' [naturalNumbers] *)
| FromArray (array : list val) (position : nat)
| Range (i max : Z)
| Map (iterable : genobj) (transformer : val → val)
| Filter (iterable : genobj) (predicate : val → bool)
| FilterMap (iterable : genobj) (transform : val → W → val * bool * W)
| Concat (iterables : list genobj) (position : nat) (inner : option genobj)
| CombineArrays (generators : list genobj)
    (* [combine] of the first revision, not yet started *)
| CombineArraysLoop (headValues tailCombinations : list val)
    (position : nat) (inner : option (val * nat))
| Combine (iterables : list genobj)
    (* [combine] of the later revision, not yet started *)
| Combine1 (iterable : genobj)
| CombineLoop (heads : genobj) (tails : Copy genobj)
    (inner : option (val * nat)).

Definition finished : IteratorResult := {| value := VUndefined; done := true |}.

Fixpoint next (fuel : nat) (g : genobj) (w : W)
  : option (IteratorResult * (genobj * W)) :=
  match fuel with
  | O => None
  | S fuel =>
    match g with
    | Completed => Some (finished, (Completed, w))
    | Custom step =>
        let '(iteration, w) := step w in
        Some (iteration, (g, w))
    | NaturalNumbers value =>
        Some (yielded (VNum value), (NaturalNumbers (increment value), w))
    | FromArray array position =>
        if bool_decide (position < length array)
        then Some (yielded (array_at array position),
                   (FromArray array (S position), w))
        else Some (finished, (Completed, w))
    | Range i max =>
        if bool_decide (i ≤ max)%Z
        then Some (yielded (VNum i), (Range (increment i) max, w))
        else Some (finished, (Completed, w))
    | Map iterable transformer =>
        '(iteration, (iterable, w)) ← next fuel iterable w;
        if done iteration then Some (finished, (Completed, w))
        else Some (yielded (transformer (value iteration)),
                   (Map iterable transformer, w))
    | Filter iterable predicate =>
        '(iteration, (iterable, w)) ← next fuel iterable w;
        if done iteration then Some (finished, (Completed, w))
        else if predicate (value iteration)
             then Some (yielded (value iteration),
                        (Filter iterable predicate, w))
             else next fuel (Filter iterable predicate) w
    | FilterMap iterable transform =>
        '(iteration, (iterable, w)) ← next fuel iterable w;
        if done iteration then Some (finished, (Completed, w))
        else
          let '(mappedValue, skipped, w) := transform (value iteration) w in
          if negb skipped && defined mappedValue
          then Some (yielded mappedValue, (FilterMap iterable transform, w))
          else next fuel (FilterMap iterable transform) w
    | Concat iterables position inner =>
        match inner with
        | None =>
            if bool_decide (position < length iterables)
            then
              iterable ← iterables !! position;
              next fuel (Concat iterables (S position) (Some iterable)) w
            else Some (finished, (Completed, w))
        | Some iterable =>
            '(iteration, (iterable, w)) ← next fuel iterable w;
            if done iteration then next fuel (Concat iterables position None) w
            else Some (iteration, (Concat iterables position (Some iterable), w))
        end
    | CombineArrays generators =>
        match generators with
        | [] => Some (finished, (Completed, w))
        | [generator] => next fuel (Combine1 generator) w
        | head :: tail =>
            '(headValues, (_, w)) ←
              toArray (λ s, next fuel s.1 s.2) fuel (head, w);
            '(tailCombinations, (_, w)) ←
              toArray (λ s, next fuel s.1 s.2) fuel (CombineArrays tail, w);
            next fuel (CombineArraysLoop headValues tailCombinations 0 None) w
        end
    | CombineArraysLoop headValues tailCombinations position inner =>
        match inner with
        | None =>
            if bool_decide (position < length headValues)
            then next fuel (CombineArraysLoop headValues tailCombinations
                              (S position)
                              (Some (array_at headValues position, 0))) w
            else Some (finished, (Completed, w))
        | Some (headValue, j) =>
            if bool_decide (j < length tailCombinations)
            then Some (yielded (cons_tuple headValue
                                  (array_at tailCombinations j)),
                       (CombineArraysLoop headValues tailCombinations position
                          (Some (headValue, S j)), w))
            else next fuel (CombineArraysLoop headValues tailCombinations
                              position None) w
        end
    | Combine iterables =>
        match iterables with
        | [] => Some (finished, (Completed, w))
        | [iterable] => next fuel (Combine1 iterable) w
        | head :: tail =>
            next fuel (CombineLoop head (copy (Combine tail)) None) w
        end
    | Combine1 iterable =>
        '(iteration, (iterable, w)) ← next fuel iterable w;
        if done iteration then Some (finished, (Completed, w))
        else Some (yielded (VArr [value iteration]), (Combine1 iterable, w))
    | CombineLoop heads tails inner =>
        match inner with
        | None =>
            '(iteration, (heads, w)) ← next fuel heads w;
            if done iteration then Some (finished, (Completed, w))
            else
              let '(tails, id) := iterator tails in
              next fuel (CombineLoop heads tails (Some (value iteration, id))) w
        | Some (head, id) =>
            '(iteration, (tails, w)) ←
              iterator_next (λ s, next fuel s.1 s.2) fuel tails w id;
            if done iteration then next fuel (CombineLoop heads tails None) w
            else Some (yielded (cons_tuple head (value iteration)),
                       (CombineLoop heads tails (Some (head, id)), w))
        end
    end
  end.

(** [iterator.next()] as an action on the generator and the world. *)
Definition step (fuel : nat) (s : genobj * W)
  : option (IteratorResult * (genobj * W)) :=
  next fuel s.1 s.2.

Definition fromArray (array : list val) : genobj := FromArray array 0.
Definition range (min max : Z) : genobj := Range min max.
Definition map (iterable : genobj) (transformer : val → val) : genobj :=
  Map iterable transformer.
Definition filter (iterable : genobj) (predicate : val → bool) : genobj :=
  Filter iterable predicate.
Definition filterMap (iterable : genobj)
    (transform : val → W → val * bool * W) : genobj :=
  FilterMap iterable transform.
Definition concat (iterables : list genobj) : genobj :=
  Concat iterables 0 None.
Definition combine_arrays (generators : list genobj) : genobj :=
  CombineArrays generators.
Definition combine (iterables : list genobj) : genobj := Combine iterables.
Definition naturalNumbers : genobj := NaturalNumbers 0.

Definition take (fuel : nat) := ts_take (step fuel).
End Ts.
End Ts.

(** * Vocabulary of the properties *)

(** [next1] returns whatever [next2] returns. *)
Definition refines {St : Type}
    (next1 next2 : St → option (IteratorResult * St)) : Prop :=
  ∀ s r, next1 s = Some r → next2 s = Some r.

(** Only the last of these iteration results may be a [done] one. *)
Definition stops_at_first_done (rs : list IteratorResult) : Prop :=
  ∀ i r, rs !! i = Some r → done r = true → S i = length rs.

(** The last of these iteration results is a [done] one. *)
Definition ends_done (rs : list IteratorResult) : Prop :=
  ∃ r, last rs = Some r ∧ done r = true.

(** The values of the iterations whose [done] flag is false, in order. *)
Definition available (rs : list IteratorResult) : list val :=
  value <$> filter (λ r, done r = false) rs.

(** The value that comes with the closing [done] signal, when it is not
    [undefined]. *)
Definition returned_value (rs : list IteratorResult) : list val :=
  match last rs with
  | Some r => if done r && defined (value r) then [value r] else []
  | None => []
  end.

(** What a call [take(s, count)] on a spied source comes to: either it
    returns [result] after [k] calls of [next], which returned [rs]; or it
    does not return, because one of fewer than [count] calls of [next]
    did not. [extra] is what the closing [done] iteration adds. *)
Definition take_spec {St : Type} (next : St → option (IteratorResult * St))
    (extra : list IteratorResult → list val) (s : St) (count : Z)
    (outcome : option (list val * (nat * St))) : Prop :=
  match outcome with
  | Some (result, (k, s')) =>
      ∃ rs, calls next k s = Some (rs, s') ∧
        (Z.of_nat k ≤ Z.max count 0)%Z ∧
        stops_at_first_done rs ∧
        ((count ≤ Z.of_nat k)%Z ∨ ends_done rs) ∧
        result = available rs ++ extra rs
  | None =>
      ∃ k rs s', (Z.of_nat k < count)%Z ∧ calls next k s = Some (rs, s') ∧
        Forall (λ r, done r = false) rs ∧ next s' = None
  end.

(** The same, for the loop of [take] entered with [k0] calls made and
    [result0] collected. *)
Definition take_outcome {St : Type} (next : St → option (IteratorResult * St))
    (extra : list IteratorResult → list val)
    (count k0 : nat) (s : St) (result0 : list val)
    (o : option (list val * (nat * St))) : Prop :=
  match o with
  | Some (result, (k, s')) =>
      ∃ j rs, k = k0 + j ∧ calls next j s = Some (rs, s') ∧ j ≤ count ∧
        stops_at_first_done rs ∧ (j < count → ends_done rs) ∧
        result = result0 ++ available rs ++ extra rs
  | None =>
      ∃ j rs s', j < count ∧ calls next j s = Some (rs, s') ∧
        Forall (λ r, done r = false) rs ∧ next s' = None
  end.

(** ** Runs of a generator, whatever fuel its calls need *)
Section Runs.
Context {St : Type} (step : nat → St → option (IteratorResult * St)).

(** More fuel never changes what a call returns. *)
Definition monotone : Prop :=
  ∀ fuel fuel' s r, fuel ≤ fuel' → step fuel s = Some r → step fuel' s = Some r.

(** The call [next()] in state [s] returns [r] and leaves [s']. *)
Definition Returns (s : St) (r : IteratorResult) (s' : St) : Prop :=
  ∃ fuel, step fuel s = Some (r, s').

(** Successive calls of [next] from [s] yield the values [vs]. *)
Inductive Yields : St → list val → St → Prop :=
| Yields_nil s : Yields s [] s
| Yields_cons s v s1 vs s' :
    Returns s (yielded v) s1 → Yields s1 vs s' → Yields s (v :: vs) s'.

(** The sequence in state [s] is finite: it yields [vs], and the call
    after those returns the [done] result [r]. *)
Definition Drains (s : St) (vs : list val) (r : IteratorResult) (s' : St) : Prop :=
  ∃ s1, Yields s vs s1 ∧ Returns s1 r s' ∧ done r = true.

(** The sequence in state [s] never ends. *)
Definition Infinite (s : St) : Prop :=
  ∀ n, ∃ vs s', length vs = n ∧ Yields s vs s'.
End Runs.

(** ** The bounds of [range] *)

(** The bounds between which [range] counts every integer: there is
    nothing to count, or every [i++] from [min] up to [max] is exact. *)
Definition counted_exactly (min max : Z) : Prop :=
  (max < min ∨ (- MAX_SAFE_INTEGER - 1 ≤ min ∧ max ≤ MAX_SAFE_INTEGER))%Z.

(** ** Generators used as examples *)

(** [{ next() { return { value: 5, done: true }; } }], as an iterator of
    src/index.ts. *)
Definition return_five : @Ts.genobj unit :=
  Ts.Custom (λ w, ({| value := VNum 5; done := true |}, w)).

(** How deep [concat] objects are nested at the head of a generator
    object of src/index.ts. *)
Fixpoint concat_depth {W : Type} (g : @Ts.genobj W) : nat :=
  match g with
  | Ts.Concat iterables _ _ =>
      S ((fix depths (gs : list Ts.genobj) : nat :=
            match gs with
            | [] => 0
            | g :: gs => concat_depth g `max` depths gs
            end) iterables)
  | _ => 0
  end.

(** ** The cross product, in the words of the specification

    Every tuple [(v0, v1, ..., v(n-1))] with [vi] drawn from
    [sequences[i]], the first sequence as the outermost loop and the last
    as the innermost; nothing for no sequences, singleton tuples for one. *)
Fixpoint tuples (sequences : list (list val)) : list val :=
  match sequences with
  | [] => []
  | vs :: rest =>
      match rest with
      | [] => (λ v, VArr [v]) <$> vs
      | _ => v ← vs; t ← tuples rest; [cons_tuple v t]
      end
  end.

(** ** What [filterMap] does with the values it pulls *)

(** One entry per value pulled from the underlying sequence: the value,
    what [transform] returned for it, and whether [transform] called
    [skip]. *)
Definition outcome : Type := val * val * bool.

(** The specification's rule: the value is discarded when [skip] was
    called or when [transform] returned [undefined]. *)
Definition skipped_or_absent (o : outcome) : bool :=
  o.2 || negb (defined o.1.2).

(** The rule of lib/index.js: the value is discarded when [skip] was
    called. *)
Definition skip_called (o : outcome) : bool := o.2.

Section Pulled.
Context {G W : Type} (step : nat → G * W → option (IteratorResult * (G * W))).
Context (transform : val → W → val * bool * W).

(** [Pulled s os s']: starting in [s], the underlying sequence yielded
    one value after the other, and [transform] was called once on each
    value as it came, before the next one was asked for, with the
    outcomes [os]. *)
Inductive Pulled : G * W → list outcome → G * W → Prop :=
| Pulled_nil s : Pulled s [] s
| Pulled_cons g w v g1 w1 mapped skipped w2 os s' :
    Returns step (g, w) (yielded v) (g1, w1) →
    transform v w1 = (mapped, skipped, w2) →
    Pulled (g1, w2) os s' →
    Pulled (g, w) ((v, mapped, skipped) :: os) s'.
End Pulled.

(** The transform of the tests: [skip()] for the even numbers, [-n] for
    the odd ones; it also records each value it is called on. *)
Definition negate_odds (v : val) (log : list val) : val * bool * list val :=
  match v with
  | VNum n =>
      if (n mod 2 =? 0)%Z then (VUndefined, true, log ++ [v])
      else (VNum (- n), false, log ++ [v])
  | _ => (VUndefined, true, log ++ [v])
  end.

(** A transform that returns [undefined] and never calls [skip]. *)
Definition absent_without_skip (v : val) (w : unit) : val * bool * unit :=
  (VUndefined, false, w).

(** ** Callbacks used as examples *)

(** [x => x * 2] *)
Definition double (v : val) : val :=
  match v with VNum n => VNum (n * 2) | _ => VUndefined end.

(** [x => x % 2 === 0] *)
Definition even (v : val) : bool :=
  match v with VNum n => (n mod 2 =? 0)%Z | _ => false end.

(** [_ => false] *)
Definition reject_all (v : val) : bool := false.

(** ** Exhaustion of the generators of lib/index.js *)

(** No hand-written [next] anywhere inside the generator: it was built
    with [fromArray], [range], [map], [filter], [filterMap], [concat] and
    [combine]. *)
Fixpoint library_made {W : Type} (g : @Lib.gen W) : bool :=
  match g with
  | Lib.Custom _ => false
  | Lib.Map g _ | Lib.Filter g _ | Lib.FilterMap g _ => library_made g
  | Lib.Concat generators _ =>
      (fix all (gs : list Lib.gen) : bool :=
         match gs with
         | [] => true
         | g :: gs => library_made g && all gs
         end) generators
  | Lib.Combine2 left_ _ _ _ => library_made left_
  | _ => true
  end.

(** [settled r g]: the generator [g] is exhausted, and answers [r]. *)
Inductive settled {W : Type} : IteratorResult → @Lib.gen W → Prop :=
| settled_Exhausted : settled Lib.exhausted Lib.Exhausted
| settled_FromArray array offset :
    length array ≤ offset → settled Lib.exhausted (Lib.FromArray array offset)
| settled_Range i max :
    (max < i)%Z → settled Lib.exhausted (Lib.Range i max)
| settled_Map r g transformer :
    settled r g → settled r (Lib.Map g transformer)
| settled_Filter r g predicate :
    settled r g → settled r (Lib.Filter g predicate)
| settled_FilterMap r g transform :
    settled r g → settled r (Lib.FilterMap g transform)
| settled_Concat generators offset :
    length generators ≤ offset →
    settled Lib.exhausted (Lib.Concat generators offset)
| settled_Combine2 left_ allRight r rightOffset :
    done r = true →
    settled r (Lib.Combine2 left_ allRight (Some r) rightOffset).

(** A generator object of src/index.ts that was made by one of the
    generator functions [fromArray], [range], [map], [filter],
    [filterMap], [concat] and [combine]. *)
Definition generator_function_made {W : Type} (g : @Ts.genobj W) : bool :=
  match g with
  | Ts.Custom _ => false
  | _ => true
  end.

(** The values of an array up to, not including, its first falsy one. *)
Fixpoint truthy_prefix (array : list val) : list val :=
  match array with
  | [] => []
  | v :: array => if truthy v then v :: truthy_prefix array else []
  end.

(** The pairs [[v, x]] for [v] in [ls], each with every [x] of [rs]. *)
Definition pairs (ls rs : list val) : list val :=
  v ← ls; (λ x, VArr [v; x]) <$> rs.

(** ** The state of a [copy] *)

(** The relation that [copy] keeps between [done], [maxIndex] and
    [values]: before the underlying sequence has ended, [maxIndex] is
    [Infinity]; after, [values] holds the [n] values read and one
    [undefined] pushed when the end was seen, and [maxIndex] is [n - 1]. *)
Definition copy_wf {G : Type} (c : Copy G) : Prop :=
  if done_ c
  then ∃ n : nat, maxIndex c = Some (Z.of_nat n - 1)%Z ∧ length (values c) = S n
  else maxIndex c = None.

(** The positions of [values] that hold values of the sequence. *)
Definition cached {G : Type} (c : Copy G) : nat :=
  if done_ c then length (values c) - 1 else length (values c).

(** [c], with the read positions [idx]. *)
Definition with_indexes {G : Type} (c : Copy G) (idx : list nat) : Copy G :=
  {| iterable := iterable c; values := values c; indexes := idx;
     done_ := done_ c; maxIndex := maxIndex c |}.

(** The [next] of iterator [id] of a copy, as an action on the copy and
    the world. *)
Definition copy_step {G W : Type}
    (step : nat → G * W → option (IteratorResult * (G * W))) (id : nat)
    (fuel : nat) (s : Copy G * W) : option (IteratorResult * (Copy G * W)) :=
  iterator_next (step fuel) fuel s.1 s.2 id.

(** A copy whose underlying sequence has been read to its end: it gave
    the values [vs], and [iterable] is what is left of it. *)
Definition copy_of_all {G : Type} (iterable : G) (vs : list val)
    (idx : list nat) : Copy G :=
  {| iterable := iterable; values := vs ++ [VUndefined]; indexes := idx;
     done_ := true; maxIndex := Some (Z.of_nat (length vs) - 1)%Z |}.

(** A copy whose underlying sequence is still being read: it has given
    the values [vs] so far. *)
Definition reading {G : Type} (iterable : G) (vs : list val)
    (idx : list nat) : Copy G :=
  {| iterable := iterable; values := vs; indexes := idx;
     done_ := false; maxIndex := None |}.

(** ** Reading several sequences one after the other *)
Section DrainsAll.
Context {G W : Type} (step : nat → G * W → option (IteratorResult * (G * W))).

(** [DrainsAll gs w vss w']: read to their ends in this order, starting
    in the world [w], the sequences [gs] give the lists of values [vss]
    and leave the world [w']. *)
Inductive DrainsAll : list G → W → list (list val) → W → Prop :=
| DrainsAll_nil w : DrainsAll [] w [] w
| DrainsAll_cons g gs w vs r g' w1 vss w2 :
    Drains step (g, w) vs r (g', w1) →
    DrainsAll gs w1 vss w2 →
    DrainsAll (g :: gs) w (vs :: vss) w2.
End DrainsAll.

(** ** The order in which the lazy [combine] reads its inputs *)
Section CombineReads.
Context {G W : Type} (step : nat → G * W → option (IteratorResult * (G * W))).

(** [CombineReads gs w vss w']: the first sequence is asked for one
    value; if it has one, the remaining sequences are read in the same
    way, and after them the first sequence is read to its end.  The
    sequences give the lists of values [vss].  When the first sequence
    has no value the others are not read. *)
Inductive CombineReads : list G → W → list (list val) → W → Prop :=
| CombineReads_nil w : CombineReads [] w [] w
| CombineReads_one g w vs r g' w' :
    Drains step (g, w) vs r (g', w') →
    CombineReads [g] w [vs] w'
| CombineReads_empty g g2 rest w r g' w' vss :
    Drains step (g, w) [] r (g', w') →
    CombineReads (g :: g2 :: rest) w ([] :: vss) w'
| CombineReads_cons g g2 rest w a g1 w1 vss w2 vs r g' w3 :
    Returns step (g, w) (yielded a) (g1, w1) →
    CombineReads (g2 :: rest) w1 vss w2 →
    Drains step (g1, w2) vs r (g', w3) →
    CombineReads (g :: g2 :: rest) w ((a :: vs) :: vss) w3.
End CombineReads.

(** ** The order in which [combine] of lib/index.js reads its inputs *)
Section DrainsBackwards.
Context {G W : Type} (step : nat → G * W → option (IteratorResult * (G * W))).

(** [DrainsBackwards gs w vss w']: read to their ends from the last to
    the first, starting in the world [w], the sequences [gs] give the
    lists of values [vss] and leave the world [w']. *)
Inductive DrainsBackwards : list G → W → list (list val) → W → Prop :=
| DrainsBackwards_nil w : DrainsBackwards [] w [] w
| DrainsBackwards_cons g gs w vss w1 vs r g' w2 :
    DrainsBackwards gs w vss w1 →
    Drains step (g, w1) vs r (g', w2) →
    DrainsBackwards (g :: gs) w (vs :: vss) w2.
End DrainsBackwards.

(** The lists [vss], the last of them cut before its first falsy value. *)
Fixpoint truncate_last (vss : list (list val)) : list (list val) :=
  match vss with
  | [] => []
  | vs :: rest =>
      match rest with
      | [] => [truthy_prefix vs]
      | _ => vs :: truncate_last rest
      end
  end.

(** What [combine] of lib/index.js yields on sequences with the values
    [vss]: with two sequences or more, the tuples over [truncate_last vss]. *)
Definition lib_combine_values (vss : list (list val)) : list val :=
  match vss with
  | [_] => tuples vss
  | _ => tuples (truncate_last vss)
  end.

(** ** Several iterations over one [copy], in any order *)

(** What the user of a copy does, one step at a time: ask it for a new
    iterator, or call [next] on its iterator number [id]. *)
Inductive copy_action : Type :=
| NewIterator
| CallNext (id : nat).

(** [indexes[id]++] *)
Definition advance (id : nat) (idx : list nat) : list nat :=
  match idx !! id with
  | Some p => <[id := S p]> idx
  | None => idx
  end.

(** The read positions after [actions], from the read positions [idx]. *)
Fixpoint positions (idx : list nat) (actions : list copy_action) : list nat :=
  match actions with
  | [] => idx
  | NewIterator :: actions => positions (idx ++ [0]) actions
  | CallNext id :: actions => positions (advance id idx) actions
  end.

(** Every call is on an iterator that was handed out, and none is on an
    iterator that has returned its [done] result already ([n] is the
    number of values of the sequence). *)
Fixpoint in_turn (n : nat) (idx : list nat) (actions : list copy_action)
  : bool :=
  match actions with
  | [] => true
  | NewIterator :: actions => in_turn n (idx ++ [0]) actions
  | CallNext id :: actions =>
      match idx !! id with
      | Some p => bool_decide (p ≤ n) && in_turn n (advance id idx) actions
      | None => false
      end
  end.

(** What the calls of [actions] return when each iterator replays the
    values [vs]: an iterator at position [p] is given [vs[p]], and the end
    at position [length vs]. *)
Fixpoint replayed (vs : list val) (idx : list nat)
    (actions : list copy_action) : list IteratorResult :=
  match actions with
  | [] => []
  | NewIterator :: actions => replayed vs (idx ++ [0]) actions
  | CallNext id :: actions =>
      let p := default 0 (idx !! id) in
      {| value := array_at vs p; done := bool_decide (length vs ≤ p) |}
        :: replayed vs (advance id idx) actions
  end.

Section CopyRuns.
Context {G W : Type} (step : nat → G * W → option (IteratorResult * (G * W))).

(** [CopyRuns actions s rs s']: carried out one after the other from the
    copy and the world [s], the actions all return; the calls of [next]
    among them return [rs], and [s'] is what is left. *)
Inductive CopyRuns :
    list copy_action → Copy G * W → list IteratorResult → Copy G * W → Prop :=
| CopyRuns_nil s : CopyRuns [] s [] s
| CopyRuns_new actions c w rs s' :
    CopyRuns actions ((iterator c).1, w) rs s' →
    CopyRuns (NewIterator :: actions) (c, w) rs s'
| CopyRuns_next id actions s r s1 rs s' :
    Returns (copy_step step id) s r s1 →
    CopyRuns actions s1 rs s' →
    CopyRuns (CallNext id :: actions) s (r :: rs) s'.

(** The copy [c] of the sequence [(g, w0)], whose values are [vs] and
    which ends in [(g', w')], when its iterators stand at [idx]: the
    sequence has been asked for as many values as the furthest iterator
    has read, [k] of them, and [values] holds these; or, when an iterator
    has seen the end, the sequence has been read to its end, and no
    further. *)
Definition copy_read_to (g : G) (w0 : W) (vs : list val) (g' : G) (w' : W)
    (idx : list nat) (s : Copy G * W) : Prop :=
  let k := max_list idx in
  if bool_decide (k ≤ length vs)
  then ∃ g_k, Yields step (g, w0) (take k vs) (g_k, s.2) ∧
              s.1 = reading g_k (take k vs) idx
  else s = (copy_of_all g' vs idx, w').
End CopyRuns.

(** A hand-written iterator that yields [0], [1], [2] and then is done,
    and counts the calls of its [next] in the world. *)
Definition counted_three : @Ts.genobj nat :=
  Ts.Custom (λ calls,
    (if bool_decide (calls < 3) then yielded (VNum (Z.of_nat calls))
     else Ts.finished, S calls)).

(** * Properties *)

(** ** Fuel *)

Ltac bind_inv H :=
  let x := fresh "x" in
  let E := fresh "E" in
  apply bind_Some in H as (x & E & H); simpl in H.

Ltac exact_bounds := unfold counted_exactly, MAX_SAFE_INTEGER in *; lia.

Section Mono.
Context {St : Type} (next1 next2 : St → option (IteratorResult * St)).
Hypothesis Href : refines next1 next2.

Lemma lib_take_loop_mono count g result r :
  lib_take_loop next1 count g result = Some r →
  lib_take_loop next2 count g result = Some r.
Proof.
  revert g result. induction count as [|count IH]; intros g result H; simpl in *; [done|].
  bind_inv H. rewrite (Href _ _ E). simpl. destruct x as [it g']. simpl in *.
  destruct (done it); eauto.
Qed.

Lemma ts_take_loop_mono count g result r :
  ts_take_loop next1 count g result = Some r →
  ts_take_loop next2 count g result = Some r.
Proof.
  revert g result. induction count as [|count IH]; intros g result H; simpl in *; [done|].
  bind_inv H. rewrite (Href _ _ E). simpl. destruct x as [it g']. simpl in *.
  destruct (done it); eauto.
Qed.

Lemma forEach_mono {A} fuel1 fuel2 g (f : val → A → A) acc r :
  fuel1 ≤ fuel2 →
  forEach next1 fuel1 g f acc = Some r →
  forEach next2 fuel2 g f acc = Some r.
Proof.
  revert fuel2 g acc. induction fuel1 as [|fuel1 IH]; intros fuel2 g acc Hle H; [done|].
  destruct fuel2 as [|fuel2]; [lia|]. simpl in *.
  bind_inv H. rewrite (Href _ _ E). simpl. destruct x as [it g']. simpl in *.
  destruct (done it); eauto with lia.
Qed.
End Mono.

Section CopyMono.
Context {G W : Type} (next1 next2 : G * W → option (IteratorResult * (G * W))).
Hypothesis Href : refines next1 next2.

Lemma pull_mono c w r : pull next1 c w = Some r → pull next2 c w = Some r.
Proof.
  unfold pull. intros H. bind_inv H.
  unfold ts_take in *. rewrite (ts_take_loop_mono _ _ Href _ _ _ _ E). done.
Qed.

Lemma getIteratorResultAtIndex_mono fuel1 fuel2 c w index r :
  fuel1 ≤ fuel2 →
  getIteratorResultAtIndex next1 fuel1 c w index = Some r →
  getIteratorResultAtIndex next2 fuel2 c w index = Some r.
Proof.
  revert fuel2 c w. induction fuel1 as [|fuel1 IH]; intros fuel2 c w Hle H; [done|].
  destruct fuel2 as [|fuel2]; [lia|]. simpl in *.
  case_bool_decide; [|done].
  destruct (done_ c); simpl in *; [eauto with lia|].
  bind_inv H. rewrite (pull_mono _ _ _ E). simpl. destruct x. eauto with lia.
Qed.

Lemma iterator_next_mono fuel1 fuel2 c w id r :
  fuel1 ≤ fuel2 →
  iterator_next next1 fuel1 c w id = Some r →
  iterator_next next2 fuel2 c w id = Some r.
Proof.
  unfold iterator_next. intros Hle H. bind_inv H. rewrite E. simpl.
  eauto using getIteratorResultAtIndex_mono.
Qed.
End CopyMono.

Section LibMono.
Context {W : Type}.
Implicit Types (g : @Lib.gen W) (w : W).

Lemma lib_next_mono fuel fuel' g w r :
  fuel ≤ fuel' → Lib.next fuel g w = Some r → Lib.next fuel' g w = Some r.
Proof.
  revert fuel' g w r. induction fuel as [|fuel IH]; intros fuel' g w r Hle H; [done|].
  destruct fuel' as [|fuel']; [lia|]. assert (Hle' : fuel ≤ fuel') by lia.
  destruct g; simpl in *; try done.
  - bind_inv H. rewrite (IH _ _ _ _ Hle' E). simpl. done.
  - bind_inv H. rewrite (IH _ _ _ _ Hle' E). simpl. destruct x as [it [g' w']]; simpl in *.
    repeat case_match; eauto.
  - bind_inv H. rewrite (IH _ _ _ _ Hle' E). simpl. destruct x as [it [g' w']]; simpl in *.
    repeat case_match; eauto.
  - case_bool_decide; [done|]. bind_inv H. rewrite E. simpl.
    bind_inv H. rewrite (IH _ _ _ _ Hle' E0). simpl. destruct x0 as [it [g' w']]; simpl in *.
    repeat case_match; eauto.
  - bind_inv H. destruct leftIteration; simplify_eq/=.
    + repeat case_match; eauto.
    + rewrite (IH _ _ _ _ Hle' E). simpl. destruct x as [it [g' w']]; simpl in *.
      repeat case_match; eauto.
Qed.
End LibMono.

Section TsMono.
Context {W : Type}.
Implicit Types (g : @Ts.genobj W) (w : W).

Lemma ts_next_mono fuel fuel' g w r :
  fuel ≤ fuel' → Ts.next fuel g w = Some r → Ts.next fuel' g w = Some r.
Proof.
  revert fuel' g w r. induction fuel as [|fuel IH]; intros fuel' g w r Hle H; [done|].
  destruct fuel' as [|fuel']; [lia|]. assert (Hle' : fuel ≤ fuel') by lia.
  assert (Href : refines (λ s : Ts.genobj * W, Ts.next fuel s.1 s.2)
                         (λ s, Ts.next fuel' s.1 s.2)).
  { intros [g0 w0] r0 H0. simpl in *. eauto. }
  destruct g; simpl in *; try done.
  - bind_inv H. rewrite (IH _ _ _ _ Hle' E). simpl. destruct x as [it [g' w']]; simpl in *.
    repeat case_match; eauto.
  - bind_inv H. rewrite (IH _ _ _ _ Hle' E). simpl. destruct x as [it [g' w']]; simpl in *.
    repeat case_match; eauto.
  - bind_inv H. rewrite (IH _ _ _ _ Hle' E). simpl. destruct x as [it [g' w']]; simpl in *.
    repeat case_match; eauto.
  - destruct inner.
    + bind_inv H. rewrite (IH _ _ _ _ Hle' E). simpl. destruct x as [it [g' w']]; simpl in *.
      repeat case_match; eauto.
    + case_bool_decide; [|done]. bind_inv H. rewrite E. simpl. eauto.
  - destruct generators as [|g1 [|g2 gs]]; eauto.
    unfold toArray in *.
    bind_inv H. rewrite (forEach_mono _ _ Href _ _ _ _ _ _ Hle' E). simpl.
    destruct x as [hv [? w1]]. simpl in *.
    bind_inv H.
    rewrite (forEach_mono _ _ Href _ _ _ _ _ _ Hle' E0). simpl.
    destruct x as [tc [? w2]]. simpl in *. eauto.
  - destruct inner as [[hv j]|]; repeat case_match; eauto.
  - destruct iterables as [|g1 [|g2 gs]]; eauto.
  - bind_inv H. rewrite (IH _ _ _ _ Hle' E). simpl. destruct x as [it [g' w']]; simpl in *.
    repeat case_match; eauto.
  - destruct inner as [[hv j]|].
    + bind_inv H. rewrite (iterator_next_mono _ _ Href _ _ _ _ _ _ Hle' E). simpl.
      destruct x as [it [g' w']]; simpl in *.
      repeat case_match; eauto.
    + bind_inv H. rewrite (IH _ _ _ _ Hle' E). simpl. destruct x as [it [g' w']]; simpl in *.
      repeat case_match; eauto.
Qed.
End TsMono.

(** ** [take] *)
Section Take.
Context {St : Type} (next : St → option (IteratorResult * St)).

Lemma spy_eq k s :
  spy next (k, s) = '(iteration, s') ← next s; Some (iteration, (S k, s')).
Proof. done. Qed.

Lemma stops_cons r rs :
  done r = false → stops_at_first_done rs → stops_at_first_done (r :: rs).
Proof.
  intros Hr Hs [|i] r' Hl Hd; simplify_eq/=; [congruence|].
  f_equal. eauto.
Qed.

Lemma available_cons r rs :
  done r = false → available (r :: rs) = value r :: available rs.
Proof.
  intros Hr. unfold available. rewrite filter_cons_True by done. done.
Qed.

Lemma ends_done_cons r r' rs : ends_done (r' :: rs) → ends_done (r :: r' :: rs).
Proof. intros (x & Hl & Hd). exists x. split; [|done]. by rewrite last_cons_cons. Qed.

Lemma returned_value_cons r r' rs :
  returned_value (r :: r' :: rs) = returned_value (r' :: rs).
Proof. unfold returned_value. by rewrite last_cons_cons. Qed.


Lemma lib_take_loop_outcome count k0 s result0 :
  take_outcome next (λ _, []) count k0 s result0
    (lib_take_loop (spy next) count (k0, s) result0).
Proof.
  revert k0 s result0. unfold take_outcome.
  induction count as [|count IH]; intros k0 s result0; simpl.
  { exists 0; exists []. split_and!; try done; try lia. by rewrite app_nil_r. }
  rewrite spy_eq. destruct (next s) as [[it s1]|] eqn:E; simpl.
  2:{ exists 0; exists []; exists s. split_and!; try done; lia. }
  destruct (done it) eqn:Hd.
  { exists 1; exists [it]. simpl. rewrite E. simpl. split_and!; try done; try lia.
    - intros [|i] r Hl Hr; by simplify_eq/=.
    - intros _. by exists it.
    - unfold available. rewrite filter_cons_False by (rewrite Hd; done). by rewrite app_nil_r. }
  specialize (IH (S k0) s1 (result0 ++ [value it])).
  destruct (lib_take_loop _ _ _ _) as [[result [k s']]|]; simpl in *.
  - destruct IH as (j & rs & -> & Hc & Hj & Hs & He & ->).
    exists (S j); exists (it :: rs). simpl. rewrite E. simpl. rewrite Hc. simpl.
    split_and!; try done; try lia.
    + by apply stops_cons.
    + intros Hlt. destruct He as (r & Hl & Hr); [lia|]. exists r. split; [|done].
      destruct rs; [done|]. by rewrite last_cons_cons.
    + rewrite available_cons by done. by rewrite <-app_assoc.
  - destruct IH as (j & rs & s' & Hj & Hc & Hf & Hn).
    exists (S j); exists (it :: rs); exists s'. simpl. rewrite E. simpl. rewrite Hc. simpl.
    split_and!; try done; try lia. by constructor.
Qed.

Lemma ts_take_loop_outcome count k0 s result0 :
  take_outcome next returned_value count k0 s result0
    (ts_take_loop (spy next) count (k0, s) result0).
Proof.
  revert k0 s result0. unfold take_outcome.
  induction count as [|count IH]; intros k0 s result0; simpl.
  { exists 0; exists []. split_and!; try done; try lia. by rewrite app_nil_r. }
  rewrite spy_eq. destruct (next s) as [[it s1]|] eqn:E; simpl.
  2:{ exists 0; exists []; exists s. split_and!; try done; lia. }
  destruct (done it) eqn:Hd.
  { exists 1; exists [it]. simpl. rewrite E. simpl. split_and!; try done; try lia.
    - intros [|i] r Hl Hr; by simplify_eq/=.
    - intros _. by exists it.
    - unfold available, returned_value. rewrite filter_cons_False by (rewrite Hd; done).
      simpl. rewrite Hd. simpl. destruct (defined (value it)); by rewrite ?app_nil_r. }
  specialize (IH (S k0) s1 (result0 ++ [value it])).
  destruct (ts_take_loop _ _ _ _) as [[result [k s']]|]; simpl in *.
  - destruct IH as (j & rs & -> & Hc & Hj & Hs & He & ->).
    exists (S j); exists (it :: rs). simpl. rewrite E. simpl. rewrite Hc. simpl.
    split_and!; try done; try lia.
    + by apply stops_cons.
    + intros Hlt. destruct He as (r & Hl & Hr); [lia|]. exists r. split; [|done].
      destruct rs; [done|]. by rewrite last_cons_cons.
    + rewrite available_cons by done. rewrite <-app_assoc. simpl. do 2 f_equal.
      destruct rs as [|r' rs]; [|by rewrite returned_value_cons].
      unfold returned_value. simpl. by rewrite Hd.
  - destruct IH as (j & rs & s' & Hj & Hc & Hf & Hn).
    exists (S j); exists (it :: rs); exists s'. simpl. rewrite E. simpl. rewrite Hc. simpl.
    split_and!; try done; try lia. by constructor.
Qed.
End Take.

Lemma take_spec_holds {St : Type}
    (next : St → option (IteratorResult * St)) (s : St) (count : Z) :
  take_spec next (λ _, []) s count (lib_take (spy next) (0, s) count) ∧
  take_spec next returned_value s count (ts_take (spy next) (0, s) count).
Proof.
  split.
  - unfold lib_take, take_spec.
    pose proof (lib_take_loop_outcome next (Z.to_nat count) 0 s []) as H.
    unfold take_outcome in H.
    destruct (lib_take_loop _ _ _ _) as [[result [k s']]|].
    + destruct H as (j & rs & -> & Hc & Hj & Hs & He & ->). exists rs.
      split_and!; try done; try lia.
      destruct (decide (j < Z.to_nat count)); [right; auto|left; lia].
    + destruct H as (j & rs & s' & Hj & Hc & Hf & Hn). exists j, rs, s'.
      split_and!; try done; lia.
  - unfold ts_take, take_spec.
    pose proof (ts_take_loop_outcome next (Z.to_nat count) 0 s []) as H.
    unfold take_outcome in H.
    destruct (ts_take_loop _ _ _ _) as [[result [k s']]|].
    + destruct H as (j & rs & -> & Hc & Hj & Hs & He & ->). exists rs.
      split_and!; try done; try lia.
      destruct (decide (j < Z.to_nat count)); [right; auto|left; lia].
    + destruct H as (j & rs & s' & Hj & Hc & Hf & Hn). exists j, rs, s'.
      split_and!; try done; lia.
Qed.

(** C8, as the code has it.  [take(s, count)] calls [next] on [s] at most
    [max(count, 0)] times: it returns after [k <= max(count, 0)] calls
    unless one of those calls does not return; it makes no call after the
    first [done] result; and for [count <= 0] it returns the empty list
    and leaves the source as it was, without a call.  The result of [take]
    of lib/index.js holds the values yielded by those calls, in order, and
    nothing else; the result of [take] of src/index.ts holds those,
    followed by the value of the closing [done] result when that value is
    not [undefined]. *)
Theorem take_pulls_at_most_count {St : Type}
    (next : St → option (IteratorResult * St)) (s : St) (count : Z) :
  take_spec next (λ _, []) s count (lib_take (spy next) (0, s) count) ∧
  take_spec next returned_value s count (ts_take (spy next) (0, s) count) ∧
  ((count ≤ 0)%Z →
     lib_take (spy next) (0, s) count = Some ([], (0, s)) ∧
     ts_take (spy next) (0, s) count = Some ([], (0, s))).
Proof.
  destruct (take_spec_holds next s count) as [Hl Ht].
  split_and!; [done..|].
  intros Hc. unfold lib_take, ts_take.
  replace (Z.to_nat count) with 0 by lia. done.
Qed.

Lemma take_pulls_at_most_count_witness :
  ((-2 ≤ 0)%Z ∧
   lib_take (spy (Lib.step 1)) (0, (Lib.naturalNumbers, tt)) (-2)
     = Some ([], (0, (Lib.naturalNumbers, tt))) ∧
   ts_take (spy (Lib.step 1)) (0, (Lib.naturalNumbers, tt)) (-2)
     = Some ([], (0, (Lib.naturalNumbers, tt)))) ∧
  take_spec (Lib.step 1) (λ _, []) (Lib.naturalNumbers, tt) 3
    (Some ([VNum 0; VNum 1; VNum 2], (3, (Lib.NaturalNumbers 3, tt)))) ∧
  take_spec (Ts.step 1) returned_value (Ts.range 0 1, tt) 5
    (Some ([VNum 0; VNum 1], (3, (Ts.Completed, tt)))) ∧
  take_spec (Ts.step 1) returned_value (return_five, tt) 3
    (Some ([VNum 5], (1, (return_five, tt)))).
Proof.
  split; [|split; [|split]].
  - split; [lia|].
    apply (take_pulls_at_most_count (Lib.step 1)
             (Lib.naturalNumbers (W:=unit), tt) (-2)). lia.
  - exact (proj1 (take_pulls_at_most_count (Lib.step 1)
                    (Lib.naturalNumbers (W:=unit), tt) 3)).
  - exact (proj1 (proj2 (take_pulls_at_most_count (Ts.step 1)
                           (Ts.range (W:=unit) 0 1, tt) 5))).
  - exact (proj1 (proj2 (take_pulls_at_most_count (Ts.step 1)
                           (return_five, tt) 3))).
Defined.

(** C8 fails for [take] of src/index.ts in its last clause: on an
    iterator whose [next] returns [{ value: 5, done: true }],
    [take(g, 3)] stops after one call, as claimed, but returns [[5]],
    where no value was available: the one call made was a [done] one. *)
Lemma ts_take_returns_a_value_that_was_not_yielded :
  ts_take (spy (Ts.step 1)) (0, (return_five, tt)) 3
    = Some ([VNum 5], (1, (return_five, tt))) ∧
  calls (Ts.step 1) 1 (return_five, tt)
    = Some ([{| value := VNum 5; done := true |}], (return_five, tt)) ∧
  available [{| value := VNum 5; done := true |}] = [].
Proof. done. Qed.

(** C7, as the code has it.  The array returned by [take] of lib/index.js
    holds the values of the iterations whose [done] flag was false and
    nothing else; the array returned by [take] of src/index.ts holds
    those, followed by the value of the closing [done] iteration when
    that value is not [undefined]. *)
Theorem take_values_of_iterations {St : Type}
    (next : St → option (IteratorResult * St)) (s : St) (count : Z) :
  match lib_take (spy next) (0, s) count with
  | Some (result, (k, s')) =>
      ∃ rs, calls next k s = Some (rs, s') ∧ result = available rs
  | None => True
  end ∧
  match ts_take (spy next) (0, s) count with
  | Some (result, (k, s')) =>
      ∃ rs, calls next k s = Some (rs, s') ∧
        result = available rs ++ returned_value rs
  | None => True
  end.
Proof.
  destruct (take_spec_holds next s count) as [Hl Ht].
  unfold take_spec in *. split.
  - destruct (lib_take _ _ _) as [[result [k s']]|]; [|done].
    destruct Hl as (rs & ? & _ & _ & _ & ->). exists rs. by rewrite app_nil_r.
  - destruct (ts_take _ _ _) as [[result [k s']]|]; [|done].
    destruct Ht as (rs & ? & _ & _ & _ & ->). by exists rs.
Qed.

(** C7 fails for [take] of src/index.ts: an iterator whose [next]
    returns [{ value: 5, done: true }] makes [take(g, 1)] return [[5]], although no
    iteration had its [done] flag false. *)
Lemma take_pushes_value_of_done :
  Ts.take 1 (return_five, tt) 1 = Some ([VNum 5], (return_five, tt)) ∧
  calls (Ts.step 1) 1 (return_five, tt)
    = Some ([{| value := VNum 5; done := true |}], (return_five, tt)) ∧
  available [{| value := VNum 5; done := true |}] = [].
Proof. done. Qed.

(** ** Runs *)
Section RunsFacts.
Context {St : Type} (step : nat → St → option (IteratorResult * St)).
Hypothesis Hmono : monotone step.

Lemma Returns_from s r s' :
  Returns step s r s' →
  ∃ fuel, ∀ fuel', fuel ≤ fuel' → step fuel' s = Some (r, s').
Proof. intros [fuel H]. exists fuel. eauto. Qed.

Lemma Returns_det s r1 s1 r2 s2 :
  Returns step s r1 s1 → Returns step s r2 s2 → r1 = r2 ∧ s1 = s2.
Proof.
  intros [f1 H1] [f2 H2].
  assert (step (f1 `max` f2) s = Some (r1, s1)) as E1
    by (eapply Hmono; [|done]; lia).
  assert (step (f1 `max` f2) s = Some (r2, s2)) as E2
    by (eapply Hmono; [|done]; lia).
  by simplify_eq.
Qed.

Lemma Yields_app s vs1 s1 vs2 s2 :
  Yields step s vs1 s1 → Yields step s1 vs2 s2 → Yields step s (vs1 ++ vs2) s2.
Proof. induction 1; simpl; eauto using Yields. Qed.

Lemma Yields_snoc s vs s1 v s2 :
  Yields step s vs s1 → Returns step s1 (yielded v) s2 →
  Yields step s (vs ++ [v]) s2.
Proof. intros H1 H2. eapply Yields_app; eauto using Yields. Qed.

Lemma Yields_det s vs1 s1 vs2 s2 :
  Yields step s vs1 s1 → Yields step s vs2 s2 → length vs1 = length vs2 →
  vs1 = vs2 ∧ s1 = s2.
Proof.
  intros H. revert vs2 s2.
  induction H as [s|s v s0 vs s1 Hv _ IH]; intros vs2 s2 H2 Hl.
  - destruct H2; by simplify_eq/=.
  - destruct H2 as [|s v' s0' vs' s' Hv' H2]; simplify_eq/=.
    destruct (Returns_det _ _ _ _ _ Hv Hv') as [? ->]. simplify_eq.
    destruct (IH _ _ H2) as [-> ->]; done.
Qed.

Lemma Yields_calls s vs s' :
  Yields step s vs s' →
  ∃ fuel, ∀ fuel', fuel ≤ fuel' →
    calls (step fuel') (length vs) s = Some (yielded <$> vs, s').
Proof.
  induction 1 as [s|s v s1 vs s' Hr _ (fuel2 & IH)].
  - exists 0. done.
  - apply Returns_from in Hr as (fuel1 & Hr).
    exists (fuel1 `max` fuel2). intros fuel' Hle. simpl.
    rewrite Hr by lia. simpl. rewrite IH by lia. done.
Qed.

Lemma forEach_Drains {A} s vs r s' (f : val → A → A) :
  Drains step s vs r s' →
  ∃ fuel, ∀ fuel1 fuel2 acc, fuel ≤ fuel1 → fuel ≤ fuel2 →
    forEach (step fuel1) fuel2 s f acc = Some (foldl (flip f) acc vs, s').
Proof.
  intros (s1 & Hy & Hr & Hd).
  induction Hy as [s|s v s0 vs s1 Hv _ IH].
  - apply Returns_from in Hr as (fuel & Hr). exists (S fuel).
    intros fuel1 [|fuel2] acc Hle1 Hle2; [lia|]. simpl.
    rewrite Hr by lia. simpl. by rewrite Hd.
  - destruct (IH Hr) as (fuel2 & IH'). clear IH.
    apply Returns_from in Hv as (fuel1 & Hv).
    exists (S (fuel1 `max` fuel2)).
    intros f1 [|f2] acc Hle1 Hle2; [lia|]. simpl. rewrite Hv by lia. simpl.
    apply IH'; lia.
Qed.

Lemma foldl_push (vs acc : list val) :
  foldl (flip (λ value results, results ++ [value])) acc vs = acc ++ vs.
Proof.
  revert acc. induction vs as [|v vs IH]; intros acc; simpl.
  - by rewrite app_nil_r.
  - rewrite IH. by rewrite <-app_assoc.
Qed.

Lemma toArray_Drains s vs r s' :
  Drains step s vs r s' →
  ∃ fuel, ∀ fuel1 fuel2, fuel ≤ fuel1 → fuel ≤ fuel2 →
    toArray (step fuel1) fuel2 s = Some (vs, s').
Proof.
  intros H.
  destruct (forEach_Drains s vs r s' (λ value results, results ++ [value]) H)
    as (fuel & Hf).
  exists fuel. intros fuel1 fuel2 H1 H2. unfold toArray.
  rewrite Hf by done. by rewrite foldl_push.
Qed.

Lemma forEach_Drains_inv {A} fuel1 fuel2 s (f : val → A → A) acc acc' s' :
  forEach (step fuel1) fuel2 s f acc = Some (acc', s') →
  ∃ vs r, Drains step s vs r s' ∧ acc' = foldl (flip f) acc vs.
Proof.
  revert s acc. induction fuel2 as [|fuel2 IH]; intros s acc H; [done|].
  simpl in H. apply bind_Some in H as ([it s1] & E & H). simpl in H.
  destruct (done it) eqn:Hd.
  - simplify_eq. exists [], it. split; [|done].
    exists s. split_and!; [constructor|by exists fuel1|done].
  - apply IH in H as (vs & r & (s2 & Hy & Hr & Hdr) & ->).
    exists (value it :: vs), r. split; [|done].
    exists s2. split_and!; [|done..].
    econstructor; [|done]. exists fuel1. rewrite E.
    destruct it; simpl in *. by subst.
Qed.

Lemma toArray_Drains_inv fuel1 fuel2 s vs s' :
  toArray (step fuel1) fuel2 s = Some (vs, s') → ∃ r, Drains step s vs r s'.
Proof.
  unfold toArray. intros H.
  apply forEach_Drains_inv in H as (vs' & r & Hd & ->).
  rewrite foldl_push. eauto.
Qed.

Lemma lib_take_loop_Yields s vs s' :
  Yields step s vs s' →
  ∃ fuel, ∀ fuel' result, fuel ≤ fuel' →
    lib_take_loop (step fuel') (length vs) s result = Some (result ++ vs, s').
Proof.
  induction 1 as [s|s v s1 vs s' Hr _ (fuel2 & IH)].
  - exists 0. intros. simpl. by rewrite app_nil_r.
  - apply Returns_from in Hr as (fuel1 & Hr).
    exists (fuel1 `max` fuel2). intros fuel' result Hle. simpl.
    rewrite Hr by lia. simpl. rewrite IH by lia. by rewrite <-app_assoc.
Qed.

Lemma ts_take_loop_Yields s vs s' :
  Yields step s vs s' →
  ∃ fuel, ∀ fuel' result, fuel ≤ fuel' →
    ts_take_loop (step fuel') (length vs) s result = Some (result ++ vs, s').
Proof.
  induction 1 as [s|s v s1 vs s' Hr _ (fuel2 & IH)].
  - exists 0. intros. simpl. by rewrite app_nil_r.
  - apply Returns_from in Hr as (fuel1 & Hr).
    exists (fuel1 `max` fuel2). intros fuel' result Hle. simpl.
    rewrite Hr by lia. simpl. rewrite IH by lia. by rewrite <-app_assoc.
Qed.
End RunsFacts.

Lemma lib_step_monotone {W : Type} : monotone (Lib.step (W:=W)).
Proof. intros fuel fuel' [g w] r Hle H. by eapply lib_next_mono. Qed.

Lemma ts_step_monotone {W : Type} : monotone (Ts.step (W:=W)).
Proof. intros fuel fuel' [g w] r Hle H. by eapply ts_next_mono. Qed.
(** ** [range] *)

Lemma increment_exact (i : Z) :
  (- MAX_SAFE_INTEGER - 1 ≤ i ≤ MAX_SAFE_INTEGER)%Z → increment i = (i + 1)%Z.
Proof.
  unfold increment, to_double, MAX_SAFE_INTEGER. intros Hi.
  destruct (Z.leb_spec (Z.abs (i + 1)) (9007199254740991 + 1)); [done|lia].
Qed.

Lemma forEach_stuck {St A : Type} (next : St → option (IteratorResult * St))
    fuel s v (f : val → A → A) acc :
  next s = None ∨ next s = Some (yielded v, s) →
  forEach next fuel s f acc = None.
Proof.
  intros H. revert acc. induction fuel as [|fuel IH]; intros acc; [done|].
  simpl. destruct H as [->| ->]; [done|]. simpl. apply IH.
Qed.

Section Range.
Context {W : Type}.

Lemma lib_range_Yields (n : nat) (i max : Z) (w : W) :
  n = Z.to_nat (max - i + 1) → counted_exactly i max →
  Yields Lib.step (Lib.Range i max, w) (VNum <$> seqZ i (max - i + 1))
    (Lib.Range (i + Z.of_nat n) max, w).
Proof.
  revert i. induction n as [|n IH]; intros i Hn Hb.
  - rewrite seqZ_nil by lia. rewrite Z.add_0_r. constructor.
  - rewrite seqZ_cons by lia. simpl. econstructor.
    + exists 1. unfold Lib.step. simpl. rewrite bool_decide_true by lia. done.
    + rewrite increment_exact by exact_bounds.
      replace (Z.pred (max - i + 1)) with (max - Z.succ i + 1)%Z by lia.
      replace (i + Z.of_nat (S n))%Z with (Z.succ i + Z.of_nat n)%Z by lia.
      replace (i + 1)%Z with (Z.succ i) by lia.
      apply IH; [lia|exact_bounds].
Qed.

Lemma lib_range_Drains (min max : Z) (w : W) :
  counted_exactly min max →
  ∃ s', Drains Lib.step (Lib.range min max, w)
          (VNum <$> seqZ min (max - min + 1)) Lib.exhausted s'.
Proof.
  intros Hb. eexists. eexists. split; [by apply lib_range_Yields|].
  split; [|done].
  exists 1. unfold Lib.step. simpl. rewrite bool_decide_false by lia. done.
Qed.

Lemma ts_range_Yields (n : nat) (i max : Z) (w : W) :
  n = Z.to_nat (max - i + 1) → counted_exactly i max →
  Yields Ts.step (Ts.Range i max, w) (VNum <$> seqZ i (max - i + 1))
    (Ts.Range (i + Z.of_nat n) max, w).
Proof.
  revert i. induction n as [|n IH]; intros i Hn Hb.
  - rewrite seqZ_nil by lia. rewrite Z.add_0_r. constructor.
  - rewrite seqZ_cons by lia. simpl. econstructor.
    + exists 1. unfold Ts.step. simpl. rewrite bool_decide_true by lia. done.
    + rewrite increment_exact by exact_bounds.
      replace (Z.pred (max - i + 1)) with (max - Z.succ i + 1)%Z by lia.
      replace (i + Z.of_nat (S n))%Z with (Z.succ i + Z.of_nat n)%Z by lia.
      replace (i + 1)%Z with (Z.succ i) by lia.
      apply IH; [lia|exact_bounds].
Qed.

Lemma ts_range_Drains (min max : Z) (w : W) :
  counted_exactly min max →
  Drains Ts.step (Ts.range min max, w)
    (VNum <$> seqZ min (max - min + 1)) Ts.finished (Ts.Completed, w).
Proof.
  intros Hb. eexists. split; [by apply ts_range_Yields|]. split; [|done].
  exists 1. unfold Ts.step. simpl. rewrite bool_decide_false by lia. done.
Qed.

(** C9, as the code has it.  For integers [min] and [max] that [i++]
    steps through exactly, [-2^53 <= min] and [max <= 2^53 - 1],
    [range(min, max)], read to its end, gives the integers
    [min, min + 1, ..., max] in this order (the value at position [k] is
    [min + k], for as long as that is at most [max]): [max - min + 1]
    values when [min <= max]; and whatever the numbers are, it gives no
    value when [min > max].  In both cases the reading returns, without
    an error.  Both [range]s, lib/index.js and src/index.ts. *)
Theorem range_yields_min_to_max (min max : Z) (w : W) :
  counted_exactly min max →
  (∃ fuel s', toArray (Lib.step fuel) fuel (Lib.range min max, w)
                = Some (VNum <$> seqZ min (max - min + 1), s')) ∧
  (∃ fuel s', toArray (Ts.step fuel) fuel (Ts.range min max, w)
                = Some (VNum <$> seqZ min (max - min + 1), s')) ∧
  (∀ k v, seqZ min (max - min + 1) !! k = Some v ↔
          (v = min + Z.of_nat k ∧ v ≤ max)%Z) ∧
  ((min ≤ max)%Z →
     Z.of_nat (length (seqZ min (max - min + 1))) = (max - min + 1)%Z) ∧
  ((max < min)%Z → seqZ min (max - min + 1) = []).
Proof.
  intros Hb. split_and!.
  - destruct (lib_range_Drains min max w Hb) as (s' & Hd).
    destruct (toArray_Drains _ lib_step_monotone _ _ _ _ Hd) as (fuel & H).
    exists fuel, s'. by apply H.
  - destruct (toArray_Drains _ ts_step_monotone _ _ _ _
                (ts_range_Drains min max w Hb)) as (fuel & H).
    exists fuel. eexists. by apply H.
  - intros k v. rewrite lookup_seqZ. split; intros [-> ?]; split; lia.
  - intros Hle. rewrite length_seqZ. lia.
  - intros Hlt. apply seqZ_nil. lia.
Qed.
End Range.

Lemma range_yields_min_to_max_witness :
  (counted_exactly 0 3 ∧
   (∃ fuel s', toArray (Lib.step fuel) fuel (Lib.range 0 3, tt)
                 = Some ([VNum 0; VNum 1; VNum 2; VNum 3], s')) ∧
   (∃ fuel s', toArray (Ts.step fuel) fuel (Ts.range 0 3, tt)
                 = Some ([VNum 0; VNum 1; VNum 2; VNum 3], s'))) ∧
  (counted_exactly 0 (-1) ∧
   (∃ fuel s', toArray (Lib.step fuel) fuel (Lib.range 0 (-1), tt)
                 = Some ([], s')) ∧
   (∃ fuel s', toArray (Ts.step fuel) fuel (Ts.range 0 (-1), tt)
                 = Some ([], s'))).
Proof.
  assert (H1 : counted_exactly 0 3) by exact_bounds.
  assert (H2 : counted_exactly 0 (-1)) by exact_bounds.
  split.
  - split; [exact H1|].
    pose proof (range_yields_min_to_max (W:=unit) 0 3 tt H1) as H.
    split; [exact (proj1 H)|exact (proj1 (proj2 H))].
  - split; [exact H2|].
    pose proof (range_yields_min_to_max (W:=unit) 0 (-1) tt H2) as H.
    split; [exact (proj1 H)|exact (proj1 (proj2 H))].
Defined.

(** C9 fails past [2^53].  [2^53 + 1] is not a double, and [i++] at
    [2^53] leaves [2^53]: [range(2^53, 2^53 + 2)] yields [2^53] at every
    call, so that reading it to its end never returns, where the claim
    has three values.  From below, [i++] at [-2^53 - 2] gives [-2^53]:
    [range(-2^53 - 2, -2^53 + 2)] has four values, where the claim has
    five. *)
Lemma range_stops_counting_at_2_53 :
  (∀ fuel, Lib.step (S fuel) (Lib.range 9007199254740992 9007199254740994, tt)
     = Some (yielded (VNum 9007199254740992),
             (Lib.range 9007199254740992 9007199254740994, tt))) ∧
  (∀ fuel, Ts.step (S fuel) (Ts.range 9007199254740992 9007199254740994, tt)
     = Some (yielded (VNum 9007199254740992),
             (Ts.range 9007199254740992 9007199254740994, tt))) ∧
  (∀ fuel1 fuel2,
     toArray (Lib.step fuel1) fuel2
       (Lib.range 9007199254740992 9007199254740994, tt) = None) ∧
  (∀ fuel1 fuel2,
     toArray (Ts.step fuel1) fuel2
       (Ts.range 9007199254740992 9007199254740994, tt) = None) ∧
  toArray (Ts.step 1) 5
    (Ts.range (-9007199254740994) (-9007199254740990), tt)
  = Some ([VNum (-9007199254740994); VNum (-9007199254740992);
           VNum (-9007199254740991); VNum (-9007199254740990)],
          (Ts.Completed, tt)).
Proof.
  assert (Hl : ∀ fuel,
            Lib.step (S fuel) (Lib.range 9007199254740992 9007199254740994, tt)
            = Some (yielded (VNum 9007199254740992),
                    (Lib.range 9007199254740992 9007199254740994, tt)))
    by (intros fuel; vm_compute; reflexivity).
  assert (Ht : ∀ fuel,
            Ts.step (S fuel) (Ts.range 9007199254740992 9007199254740994, tt)
            = Some (yielded (VNum 9007199254740992),
                    (Ts.range 9007199254740992 9007199254740994, tt)))
    by (intros fuel; vm_compute; reflexivity).
  split_and!; [exact Hl|exact Ht| | |].
  - intros [|fuel1] fuel2;
      apply (forEach_stuck _ _ _ (VNum 9007199254740992)); [by left|].
    right. apply Hl.
  - intros [|fuel1] fuel2;
      apply (forEach_stuck _ _ _ (VNum 9007199254740992)); [by left|].
    right. apply Ht.
  - vm_compute. reflexivity.
Qed.

(** ** [concat] *)
Section Concat.
Context {W : Type}.
Implicit Types (s : @Ts.genobj W) (w : W).

Lemma ts_concat_neq s : Ts.concat [s] ≠ s.
Proof.
  intros H. apply (f_equal concat_depth) in H. simpl in H. lia.
Qed.

Lemma ts_concat_inner_yield iterables position s w v s' w' :
  Returns Ts.step (s, w) (yielded v) (s', w') →
  Returns Ts.step (Ts.Concat iterables position (Some s), w) (yielded v)
    (Ts.Concat iterables position (Some s'), w').
Proof.
  intros [fuel H]. exists (S fuel). unfold Ts.step in *. simpl in *.
  rewrite H. done.
Qed.

Lemma ts_concat_Yields_inner iterables position s w vs s' w' :
  Yields Ts.step (s, w) vs (s', w') →
  Yields Ts.step (Ts.Concat iterables position (Some s), w) vs
    (Ts.Concat iterables position (Some s'), w').
Proof.
  intros H. remember (s, w) as x eqn:Hx. remember (s', w') as y eqn:Hy.
  revert s w Hx. induction H as [?|[s0 w0] v [s1 w1] vs ? Hr _ IH];
    intros s2 w2 ?; simplify_eq.
  - constructor.
  - econstructor; [by apply ts_concat_inner_yield|]. by apply IH.
Qed.

Lemma ts_concat_start s w r x :
  Returns Ts.step (Ts.Concat [s] 1 (Some s), w) r x →
  Returns Ts.step (Ts.concat [s], w) r x.
Proof.
  intros [fuel H]. exists (S fuel). unfold Ts.step, Ts.concat in *. simpl.
  done.
Qed.

Lemma ts_concat_one_Yields s w vs s' w' :
  Yields Ts.step (s, w) vs (s', w') →
  ∃ c, Yields Ts.step (Ts.concat [s], w) vs (c, w').
Proof.
  intros H. apply (ts_concat_Yields_inner [s] 1) in H.
  inversion H as [|? v [s1 w1] vs' ? Hr Hy]; simplify_eq.
  - eexists. constructor.
  - eexists. econstructor; [|done]. by apply ts_concat_start.
Qed.

Lemma ts_concat_inner_done s0 s w r s' w' :
  Returns Ts.step (s, w) r (s', w') → done r = true →
  Returns Ts.step (Ts.Concat [s0] 1 (Some s), w) Ts.finished (Ts.Completed, w').
Proof.
  intros [fuel H] Hd. exists (S fuel). unfold Ts.step in *. simpl in *.
  rewrite H. simpl. rewrite Hd. destruct fuel as [|fuel]; [done|]. done.
Qed.

Lemma ts_concat_one_Drains s w vs r s' w' :
  Drains Ts.step (s, w) vs r (s', w') →
  Drains Ts.step (Ts.concat [s], w) vs Ts.finished (Ts.Completed, w').
Proof.
  intros ([s1 w1] & Hy & Hr & Hd).
  apply (ts_concat_Yields_inner [s] 1) in Hy.
  pose proof (ts_concat_inner_done s _ _ _ _ _ Hr Hd) as Hf.
  inversion Hy as [|? v [s2 w2] vs' ? Hv Hy']; simplify_eq.
  - eexists. split_and!; [constructor| |done].
    by apply ts_concat_start.
  - eexists. split_and!; [|done..].
    econstructor; [|done]. by apply ts_concat_start.
Qed.

(** C6, as the code has it.  [concat] of lib/index.js, given exactly one
    generator, returns that generator itself, and given none returns a
    generator whose every [next] signals done.  [concat] of src/index.ts,
    given exactly one iterable [s], returns a new generator object, never
    [s] itself, which yields the values of [s] in order and is done when
    [s] is; given none, its first [next] signals done. *)
Theorem concat_of_one_and_of_none :
  (∀ g : @Lib.gen W, Lib.concat [g] = g) ∧
  (∀ w fuel, Lib.step (S fuel) (Lib.concat [], w)
               = Some (Lib.exhausted, (Lib.concat [], w))) ∧
  (∀ s, Ts.concat [s] ≠ s) ∧
  (∀ s w vs s' w', Yields Ts.step (s, w) vs (s', w') →
     ∃ c, Yields Ts.step (Ts.concat [s], w) vs (c, w')) ∧
  (∀ s w vs r s' w', Drains Ts.step (s, w) vs r (s', w') →
     Drains Ts.step (Ts.concat [s], w) vs Ts.finished (Ts.Completed, w')) ∧
  (∀ w fuel, Ts.step (S fuel) (Ts.concat [], w)
               = Some (Ts.finished, (Ts.Completed, w))).
Proof.
  split_and!; try done.
  - apply ts_concat_neq.
  - apply ts_concat_one_Yields.
  - apply ts_concat_one_Drains.
Qed.
End Concat.

Lemma concat_of_one_and_of_none_witness :
  Drains Ts.step (Ts.range 0 1, tt) [VNum 0; VNum 1] Ts.finished
    (Ts.Completed, tt) ∧
  Drains Ts.step (Ts.concat [Ts.range 0 1], tt) [VNum 0; VNum 1] Ts.finished
    (Ts.Completed, tt).
Proof.
  assert (H : Drains Ts.step (Ts.range 0 1, tt) [VNum 0; VNum 1] Ts.finished
                (Ts.Completed, tt)) by (apply (ts_range_Drains 0 1 tt); exact_bounds).
  split; [exact H|].
  exact (proj1 (proj2 (proj2 (proj2 (proj2 concat_of_one_and_of_none))))
           _ _ _ _ _ _ H).
Defined.

(** C6 fails for [concat] of src/index.ts: [concat([range(0, 1)])] is a
    new generator object, not the [range(0, 1)] it was given. *)
Lemma ts_concat_is_not_its_argument :
  Ts.concat [Ts.range (W:=unit) 0 1] ≠ Ts.range 0 1.
Proof. done. Qed.

(** ** [combine] of lib/index.js *)

Example lib_combine_test :
  ∃ g s', Lib.combine 20 [Lib.range 0 1; Lib.range 3 4; Lib.range 6 7] tt
            = Some (g, tt) ∧
    toArray (Lib.step 20) 20 (g, tt)
      = Some (tuples [VNum <$> [0; 1]; VNum <$> [3; 4]; VNum <$> [6; 7]]%Z, s').
Proof.
  do 2 eexists. split.
  - vm_compute. reflexivity.
  - vm_compute. reflexivity.
Qed.

(** C1 at the failing input.  lib/index.js, [case 2] of [combine], tests
    [if (nextRight)] to find the end of [allRight]; a right-hand value
    that is falsy ends the row early.  [combine([range(0, 1), range(0, 1)])]
    is exhausted at its first [next], where the cross product has the four
    tuples [[0,0], [0,1], [1,0], [1,1]]; and
    [combine([range(1, 2), range(-1, 1)])] yields [[1,-1], [2,-1]] only. *)
Theorem lib_combine_drops_falsy_values :
  (∃ g s', Lib.combine 10 [Lib.range 0 1; Lib.range 0 1] tt = Some (g, tt) ∧
     Lib.step 10 (g, tt) = Some (Lib.exhausted, s') ∧
     toArray (Lib.step 10) 10 (g, tt) = Some ([], s')) ∧
  tuples [VNum <$> [0; 1]; VNum <$> [0; 1]]%Z
    = [VArr [VNum 0; VNum 0]; VArr [VNum 0; VNum 1];
       VArr [VNum 1; VNum 0]; VArr [VNum 1; VNum 1]] ∧
  (∃ g s', Lib.combine 10 [Lib.range 1 2; Lib.range (-1) 1] tt = Some (g, tt) ∧
     toArray (Lib.step 10) 10 (g, tt)
       = Some ([VArr [VNum 1; VNum (-1)]; VArr [VNum 2; VNum (-1)]], s')).
Proof.
  split; [|split].
  - do 2 eexists. split; [|split].
    + vm_compute. reflexivity.
    + vm_compute. reflexivity.
    + vm_compute. reflexivity.
  - reflexivity.
  - do 2 eexists. split.
    + vm_compute. reflexivity.
    + vm_compute. reflexivity.
Qed.

(** ** [filterMap] *)
Section FilterMap.
Context {W : Type}.
Implicit Types (w : W) (transform : val → W → val * bool * W).

(** *** src/index.ts *)

Lemma ts_filterMap_discard it w v it1 w1 transform mapped skipped w2 r x :
  Returns Ts.step (it, w) (yielded v) (it1, w1) →
  transform v w1 = (mapped, skipped, w2) →
  skipped_or_absent (v, mapped, skipped) = true →
  Returns Ts.step (Ts.FilterMap it1 transform, w2) r x →
  Returns Ts.step (Ts.FilterMap it transform, w) r x.
Proof.
  intros [f1 H1] Ht Hd [f2 H2]. exists (S (f1 `max` f2)).
  unfold Ts.step in *. simpl in *.
  rewrite (ts_next_mono f1 (f1 `max` f2) _ _ _ ltac:(lia) H1). simpl. rewrite Ht.
  unfold skipped_or_absent in Hd. simpl in Hd.
  destruct skipped, (defined mapped); simplify_eq/=;
    by apply (ts_next_mono f2 (f1 `max` f2) _ _ _ ltac:(lia) H2).
Qed.

Lemma ts_filterMap_keep it w v it1 w1 transform mapped skipped w2 :
  Returns Ts.step (it, w) (yielded v) (it1, w1) →
  transform v w1 = (mapped, skipped, w2) →
  skipped_or_absent (v, mapped, skipped) = false →
  Returns Ts.step (Ts.FilterMap it transform, w) (yielded mapped)
    (Ts.FilterMap it1 transform, w2).
Proof.
  intros [f1 H1] Ht Hd. exists (S f1).
  unfold Ts.step in *. simpl in *. rewrite H1. simpl. rewrite Ht.
  unfold skipped_or_absent in Hd. simpl in Hd.
  by destruct skipped, (defined mapped); simplify_eq/=.
Qed.

Lemma ts_filterMap_end it w transform r it1 w1 :
  Returns Ts.step (it, w) r (it1, w1) → done r = true →
  Returns Ts.step (Ts.FilterMap it transform, w) Ts.finished (Ts.Completed, w1).
Proof.
  intros [f1 H1] Hd. exists (S f1).
  unfold Ts.step in *. simpl in *. rewrite H1. simpl. by rewrite Hd.
Qed.

Lemma ts_filterMap_yields transform it w os o it' w' :
  Pulled Ts.step transform (it, w) (os ++ [o]) (it', w') →
  Forall (λ o, skipped_or_absent o = true) os →
  skipped_or_absent o = false →
  Returns Ts.step (Ts.filterMap it transform, w) (yielded o.1.2)
    (Ts.filterMap it' transform, w').
Proof.
  unfold Ts.filterMap. revert it w.
  induction os as [|o' os IH]; intros it w Hp Hos Ho; simpl in *.
  - inversion Hp as [|???????? os' ? Hr Ht Hp']; simplify_eq.
    inversion Hp'; simplify_eq. by eapply ts_filterMap_keep.
  - inversion Hp as [|???????? os' ? Hr Ht Hp']; simplify_eq.
    apply Forall_cons in Hos as [Ho' Hos].
    eapply ts_filterMap_discard; eauto.
Qed.

Lemma ts_filterMap_finishes transform it w os it1 w1 r it2 w2 :
  Pulled Ts.step transform (it, w) os (it1, w1) →
  Forall (λ o, skipped_or_absent o = true) os →
  Returns Ts.step (it1, w1) r (it2, w2) → done r = true →
  Returns Ts.step (Ts.filterMap it transform, w) Ts.finished (Ts.Completed, w2).
Proof.
  unfold Ts.filterMap. revert it w.
  induction os as [|o' os IH]; intros it w Hp Hos Hr Hd; simpl in *.
  - inversion Hp; simplify_eq. by eapply ts_filterMap_end.
  - inversion Hp as [|???????? os' ? Hr' Ht Hp']; simplify_eq.
    apply Forall_cons in Hos as [Ho' Hos].
    eapply ts_filterMap_discard; eauto.
Qed.

Lemma ts_filterMap_inv fuel transform it w r g' w' :
  Ts.next fuel (Ts.FilterMap it transform) w = Some (r, (g', w')) →
  ∃ os it1 w1, Pulled Ts.step transform (it, w) os (it1, w1) ∧
    ((∃ os0 o, os = os0 ++ [o] ∧
        Forall (λ o, skipped_or_absent o = true) os0 ∧
        skipped_or_absent o = false ∧
        r = yielded o.1.2 ∧ g' = Ts.FilterMap it1 transform ∧ w' = w1) ∨
     (Forall (λ o, skipped_or_absent o = true) os ∧
      ∃ r0 it2, Returns Ts.step (it1, w1) r0 (it2, w') ∧ done r0 = true ∧
        r = Ts.finished ∧ g' = Ts.Completed)).
Proof.
  revert it w. induction fuel as [|fuel IH]; intros it w H; [done|].
  simpl in H. bind_inv H. destruct x as [r0 [it0 w0]]. simpl in H.
  destruct (done r0) eqn:Hd.
  { simplify_eq. exists [], it, w. split; [constructor|]. right.
    split; [done|]. exists r0, it0. split_and!; try done. by exists fuel. }
  destruct (transform (value r0) w0) as [[mapped skipped] w2] eqn:Ht.
  assert (Hr : Returns Ts.step (it, w) (yielded (value r0)) (it0, w0)).
  { exists fuel. unfold Ts.step. simpl. rewrite E. destruct r0; simpl in *. by subst. }
  destruct (negb skipped && defined mapped) eqn:Hk.
  - simplify_eq. exists [(value r0, mapped, skipped)], it0, w'.
    split; [by econstructor; [done..|constructor]|]. left.
    exists [], (value r0, mapped, skipped). split_and!; try done.
    unfold skipped_or_absent. simpl. by destruct skipped, (defined mapped).
  - apply IH in H as (os & it1 & w1 & Hp & Hcase).
    exists ((value r0, mapped, skipped) :: os), it1, w1.
    split; [by econstructor|].
    assert (Hdis : skipped_or_absent (value r0, mapped, skipped) = true).
    { unfold skipped_or_absent. simpl. by destruct skipped, (defined mapped). }
    destruct Hcase as [(os0 & o & -> & Hos & Ho & -> & -> & ->)|(Hos & Hrest)].
    + left. exists ((value r0, mapped, skipped) :: os0), o.
      split_and!; try done. by constructor.
    + right. split; [by constructor|done].
Qed.

(** *** lib/index.js *)

Lemma lib_filterMap_discard g w v g1 w1 transform mapped w2 r x :
  Returns Lib.step (g, w) (yielded v) (g1, w1) →
  transform v w1 = (mapped, true, w2) →
  Returns Lib.step (Lib.FilterMap g1 transform, w2) r x →
  Returns Lib.step (Lib.FilterMap g transform, w) r x.
Proof.
  intros [f1 H1] Ht [f2 H2]. exists (S (f1 `max` f2)).
  unfold Lib.step in *. simpl in *.
  rewrite (lib_next_mono f1 (f1 `max` f2) _ _ _ ltac:(lia) H1). simpl. rewrite Ht.
  by apply (lib_next_mono f2 (f1 `max` f2) _ _ _ ltac:(lia) H2).
Qed.

Lemma lib_filterMap_keep g w v g1 w1 transform mapped w2 :
  Returns Lib.step (g, w) (yielded v) (g1, w1) →
  transform v w1 = (mapped, false, w2) →
  Returns Lib.step (Lib.FilterMap g transform, w) (yielded mapped)
    (Lib.FilterMap g1 transform, w2).
Proof.
  intros [f1 H1] Ht. exists (S f1).
  unfold Lib.step in *. simpl in *. rewrite H1. simpl. by rewrite Ht.
Qed.

Lemma lib_filterMap_end g w transform r g1 w1 :
  Returns Lib.step (g, w) r (g1, w1) → done r = true →
  Returns Lib.step (Lib.FilterMap g transform, w) r
    (Lib.FilterMap g1 transform, w1).
Proof.
  intros [f1 H1] Hd. exists (S f1).
  unfold Lib.step in *. simpl in *. rewrite H1. simpl. by rewrite Hd.
Qed.

Lemma lib_filterMap_yields transform g w os o g' w' :
  Pulled Lib.step transform (g, w) (os ++ [o]) (g', w') →
  Forall (λ o, skip_called o = true) os →
  skip_called o = false →
  Returns Lib.step (Lib.filterMap g transform, w) (yielded o.1.2)
    (Lib.filterMap g' transform, w').
Proof.
  unfold Lib.filterMap, skip_called. revert g w.
  induction os as [|o' os IH]; intros g w Hp Hos Ho; simpl in *.
  - inversion Hp as [|???????? os' ? Hr Ht Hp']; simplify_eq/=.
    inversion Hp'; simplify_eq. by eapply lib_filterMap_keep.
  - inversion Hp as [|???????? os' ? Hr Ht Hp']; simplify_eq/=.
    apply Forall_cons in Hos as [Ho' Hos]. simpl in *. subst.
    eapply lib_filterMap_discard; eauto.
Qed.

Lemma lib_filterMap_finishes transform g w os g1 w1 r g2 w2 :
  Pulled Lib.step transform (g, w) os (g1, w1) →
  Forall (λ o, skip_called o = true) os →
  Returns Lib.step (g1, w1) r (g2, w2) → done r = true →
  Returns Lib.step (Lib.filterMap g transform, w) r
    (Lib.filterMap g2 transform, w2).
Proof.
  unfold Lib.filterMap, skip_called. revert g w.
  induction os as [|o' os IH]; intros g w Hp Hos Hr Hd; simpl in *.
  - inversion Hp; simplify_eq. by eapply lib_filterMap_end.
  - inversion Hp as [|???????? os' ? Hr' Ht Hp']; simplify_eq/=.
    apply Forall_cons in Hos as [Ho' Hos]. simpl in *. subst.
    eapply lib_filterMap_discard; eauto.
Qed.

Lemma lib_filterMap_inv fuel transform g w r g' w' :
  Lib.next fuel (Lib.FilterMap g transform) w = Some (r, (g', w')) →
  ∃ os g1 w1, Pulled Lib.step transform (g, w) os (g1, w1) ∧
    ((∃ os0 o, os = os0 ++ [o] ∧
        Forall (λ o, skip_called o = true) os0 ∧
        skip_called o = false ∧
        r = yielded o.1.2 ∧ g' = Lib.FilterMap g1 transform ∧ w' = w1) ∨
     (Forall (λ o, skip_called o = true) os ∧
      ∃ g2, Returns Lib.step (g1, w1) r (g2, w') ∧ done r = true ∧
        g' = Lib.FilterMap g2 transform)).
Proof.
  revert g w. induction fuel as [|fuel IH]; intros g w H; [done|].
  simpl in H. bind_inv H. destruct x as [r0 [g0 w0]]. simpl in H.
  destruct (done r0) eqn:Hd.
  { simplify_eq. exists [], g, w. split; [constructor|]. right.
    split; [done|]. exists g0. split_and!; try done. by exists fuel. }
  destruct (transform (value r0) w0) as [[mapped skipped] w2] eqn:Ht.
  assert (Hr : Returns Lib.step (g, w) (yielded (value r0)) (g0, w0)).
  { exists fuel. unfold Lib.step. simpl. rewrite E. destruct r0; simpl in *. by subst. }
  destruct skipped.
  - apply IH in H as (os & g1 & w1 & Hp & Hcase).
    exists ((value r0, mapped, true) :: os), g1, w1.
    split; [by econstructor|].
    destruct Hcase as [(os0 & o & -> & Hos & Ho & -> & -> & ->)|(Hos & Hrest)].
    + left. exists ((value r0, mapped, true) :: os0), o.
      split_and!; try done. by constructor.
    + right. split; [by constructor|done].
  - simplify_eq. exists [(value r0, mapped, false)], g0, w'.
    split; [by econstructor; [done..|constructor]|]. left.
    exists [], (value r0, mapped, false). split_and!; try done.
Qed.
End FilterMap.

(** C10. A call of [next] on [filterMap(sequence, transform)] comes to
    this and nothing else: the underlying sequence is asked for one value
    after the other, and each value it yields is handed to [transform]
    exactly once, as it comes and before the next value is asked for, so
    that the world is the one those calls leave.  Whenever the values
    pulled and their outcomes go the way [Pulled] says, up to the first
    value that is kept or up to the end of the underlying sequence, the
    call returns, with that value's result or [done]; and whenever the
    call returns, it went that way.  A value that was discarded is not
    handed to [transform] again.  Both [filterMap]s, lib/index.js (which
    discards on [skip]) and src/index.ts (on [skip] or [undefined]). *)
Theorem filterMap_calls_transform_once_per_value {W : Type}
    (transform : val → W → val * bool * W) :
  (∀ g w r g' w',
     Returns Lib.step (Lib.filterMap g transform, w) r (g', w') ↔
     ∃ os g1 w1, Pulled Lib.step transform (g, w) os (g1, w1) ∧
       ((∃ os0 o, os = os0 ++ [o] ∧
           Forall (λ o, skip_called o = true) os0 ∧
           skip_called o = false ∧
           r = yielded o.1.2 ∧ g' = Lib.filterMap g1 transform ∧ w' = w1) ∨
        (Forall (λ o, skip_called o = true) os ∧
         ∃ g2, Returns Lib.step (g1, w1) r (g2, w') ∧ done r = true ∧
           g' = Lib.filterMap g2 transform))) ∧
  (∀ it w r g' w',
     Returns Ts.step (Ts.filterMap it transform, w) r (g', w') ↔
     ∃ os it1 w1, Pulled Ts.step transform (it, w) os (it1, w1) ∧
       ((∃ os0 o, os = os0 ++ [o] ∧
           Forall (λ o, skipped_or_absent o = true) os0 ∧
           skipped_or_absent o = false ∧
           r = yielded o.1.2 ∧ g' = Ts.filterMap it1 transform ∧ w' = w1) ∨
        (Forall (λ o, skipped_or_absent o = true) os ∧
         ∃ r0 it2, Returns Ts.step (it1, w1) r0 (it2, w') ∧ done r0 = true ∧
           r = Ts.finished ∧ g' = Ts.Completed))).
Proof.
  split.
  - intros g w r g' w'. split.
    + intros [fuel H]. unfold Lib.step in H. simpl in H.
      by apply lib_filterMap_inv in H.
    + intros (os & g1 & w1 & Hp & Hcase).
      destruct Hcase as [(os0 & o & -> & Hos & Ho & -> & -> & ->)
                        |(Hos & g2 & Hr & Hd & ->)].
      * by eapply lib_filterMap_yields.
      * by eapply lib_filterMap_finishes.
  - intros it w r g' w'. split.
    + intros [fuel H]. unfold Ts.step in H. simpl in H.
      by apply ts_filterMap_inv in H.
    + intros (os & it1 & w1 & Hp & Hcase).
      destruct Hcase as [(os0 & o & -> & Hos & Ho & -> & -> & ->)
                        |(Hos & r0 & it2 & Hr & Hd & -> & ->)].
      * by eapply ts_filterMap_yields.
      * by eapply ts_filterMap_finishes.
Qed.

Lemma filterMap_calls_transform_once_per_value_witness :
  (Pulled Lib.step negate_odds (Lib.range 0 5, [])
     ([(VNum 0, VUndefined, true)] ++ [(VNum 1, VNum (-1), false)])
     (Lib.Range 2 5, [VNum 0; VNum 1]) ∧
   Returns Lib.step (Lib.filterMap (Lib.range 0 5) negate_odds, [])
     (yielded (VNum (-1)))
     (Lib.filterMap (Lib.Range 2 5) negate_odds, [VNum 0; VNum 1])) ∧
  (Returns Ts.step (Ts.filterMap (Ts.range 0 5) negate_odds, [])
     (yielded (VNum (-1)))
     (Ts.filterMap (Ts.range 2 5) negate_odds, [VNum 0; VNum 1]) ∧
   ∃ os it1 w1,
     Pulled Ts.step negate_odds (Ts.range 0 5, []) os (it1, w1) ∧
     ((∃ os0 o, os = os0 ++ [o] ∧
         Forall (λ o, skipped_or_absent o = true) os0 ∧
         skipped_or_absent o = false ∧
         yielded (VNum (-1)) = yielded o.1.2 ∧
         Ts.filterMap (Ts.range 2 5) negate_odds
           = Ts.filterMap it1 negate_odds ∧
         [VNum 0; VNum 1] = w1) ∨
      (Forall (λ o, skipped_or_absent o = true) os ∧
       ∃ r0 it2, Returns Ts.step (it1, w1) r0 (it2, [VNum 0; VNum 1]) ∧
         done r0 = true ∧ yielded (VNum (-1)) = Ts.finished ∧
         Ts.filterMap (Ts.range 2 5) negate_odds = Ts.Completed))).
Proof.
  assert (Hp : Pulled Lib.step negate_odds (Lib.range 0 5, [])
     ([(VNum 0, VUndefined, true)] ++ [(VNum 1, VNum (-1), false)])
     (Lib.Range 2 5, [VNum 0; VNum 1])).
  { eapply (Pulled_cons _ _ _ _ _ (Lib.Range 1 5) []);
      [by exists 1|reflexivity|].
    eapply (Pulled_cons _ _ _ _ _ (Lib.Range 2 5) [VNum 0]);
      [by exists 1|reflexivity|]. constructor. }
  assert (H : Returns Ts.step (Ts.filterMap (Ts.range 0 5) negate_odds, [])
                (yielded (VNum (-1)))
                (Ts.filterMap (Ts.range 2 5) negate_odds, [VNum 0; VNum 1]))
    by (exists 3; reflexivity).
  split.
  - split; [exact Hp|].
    apply (proj1 (filterMap_calls_transform_once_per_value negate_odds)).
    eexists _, _, _. split; [exact Hp|]. left.
    eexists _, _. split_and!; [reflexivity| |reflexivity..].
    by constructor.
  - split; [exact H|].
    exact (proj1 (proj2 (filterMap_calls_transform_once_per_value negate_odds)
                    _ _ _ _ _) H).
Defined.

(** C5, as the code has it.  In [filterMap] of src/index.ts a pulled
    value is discarded, and the next one tried, when [transform] called
    [skip] or returned [undefined]; the first value for which neither
    holds has its [transform] result yielded, and when the underlying
    sequence ends first the generator is done.  In [filterMap] of
    lib/index.js a pulled value is discarded when [transform] called
    [skip], and only then: the first value for which [skip] was not called
    has its [transform] result yielded, [undefined] included. *)
Theorem filterMap_discards_and_yields {W : Type}
    (transform : val → W → val * bool * W) :
  (∀ it w os o it' w',
     Pulled Ts.step transform (it, w) (os ++ [o]) (it', w') →
     Forall (λ o, skipped_or_absent o = true) os →
     skipped_or_absent o = false →
     Returns Ts.step (Ts.filterMap it transform, w) (yielded o.1.2)
       (Ts.filterMap it' transform, w')) ∧
  (∀ it w os it1 w1 r it2 w2,
     Pulled Ts.step transform (it, w) os (it1, w1) →
     Forall (λ o, skipped_or_absent o = true) os →
     Returns Ts.step (it1, w1) r (it2, w2) → done r = true →
     Returns Ts.step (Ts.filterMap it transform, w) Ts.finished
       (Ts.Completed, w2)) ∧
  (∀ g w os o g' w',
     Pulled Lib.step transform (g, w) (os ++ [o]) (g', w') →
     Forall (λ o, skip_called o = true) os →
     skip_called o = false →
     Returns Lib.step (Lib.filterMap g transform, w) (yielded o.1.2)
       (Lib.filterMap g' transform, w')) ∧
  (∀ g w os g1 w1 r g2 w2,
     Pulled Lib.step transform (g, w) os (g1, w1) →
     Forall (λ o, skip_called o = true) os →
     Returns Lib.step (g1, w1) r (g2, w2) → done r = true →
     Returns Lib.step (Lib.filterMap g transform, w) r
       (Lib.filterMap g2 transform, w2)).
Proof.
  split_and!.
  - apply ts_filterMap_yields.
  - apply ts_filterMap_finishes.
  - apply lib_filterMap_yields.
  - apply lib_filterMap_finishes.
Qed.

Lemma filterMap_discards_and_yields_witness :
  (Pulled Ts.step negate_odds (Ts.range 0 5, [])
     ([(VNum 0, VUndefined, true)] ++ [(VNum 1, VNum (-1), false)])
     (Ts.range 2 5, [VNum 0; VNum 1]) ∧
   Forall (λ o, skipped_or_absent o = true) [(VNum 0, VUndefined, true)] ∧
   skipped_or_absent (VNum 1, VNum (-1), false) = false ∧
   Returns Ts.step (Ts.filterMap (Ts.range 0 5) negate_odds, [])
     (yielded (VNum (-1)))
     (Ts.filterMap (Ts.range 2 5) negate_odds, [VNum 0; VNum 1])).
Proof.
  assert (Hp : Pulled Ts.step negate_odds (Ts.range 0 5, [])
     ([(VNum 0, VUndefined, true)] ++ [(VNum 1, VNum (-1), false)])
     (Ts.range 2 5, [VNum 0; VNum 1])).
  { eapply (Pulled_cons _ _ _ _ _ (Ts.range 1 5) []);
      [by exists 1|reflexivity|].
    eapply (Pulled_cons _ _ _ _ _ (Ts.range 2 5) [VNum 0]);
      [by exists 1|reflexivity|]. constructor. }
  assert (Hf : Forall (λ o, skipped_or_absent o = true)
                 [(VNum 0, VUndefined, true)]) by (by constructor).
  split_and!; [exact Hp|exact Hf|reflexivity|].
  exact (proj1 (filterMap_discards_and_yields negate_odds)
           _ _ _ _ _ _ Hp Hf eq_refl).
Defined.

(** C5 fails for [filterMap] of lib/index.js: with a transform that
    returns [undefined] without calling [skip],
    [filterMap(fromArray([1]), transform).next()] is
    [{ value: undefined, done: false }]; the value is not discarded. *)
Lemma lib_filterMap_yields_undefined :
  Lib.step 2 (Lib.filterMap (Lib.fromArray [VNum 1]) absent_without_skip, tt)
    = Some ({| value := VUndefined; done := false |},
            (Lib.filterMap (Lib.FromArray [VNum 1] 1) absent_without_skip, tt)) ∧
  skipped_or_absent (VNum 1, VUndefined, false) = true.
Proof. done. Qed.

(** * Further properties of the combinators *)

(** ** More on runs *)
Section RunsMore.
Context {St : Type} (step : nat → St → option (IteratorResult * St)).
Hypothesis Hmono : monotone step.

Lemma Yields_app_inv s vs1 vs2 s2 :
  Yields step s (vs1 ++ vs2) s2 →
  ∃ s1, Yields step s vs1 s1 ∧ Yields step s1 vs2 s2.
Proof.
  revert s. induction vs1 as [|v vs1 IH]; intros s H; simpl in *.
  - exists s. split; [constructor|done].
  - inversion H as [|? ? s0 ? ? Hr Hy]; simplify_eq.
    apply IH in Hy as (s1 & H1 & H2). exists s1. split; [|done].
    by econstructor.
Qed.

Lemma Drains_not_Infinite s vs r s' :
  Drains step s vs r s' → ¬ Infinite step s.
Proof.
  intros (s1 & Hy & Hr & Hd) Hinf.
  destruct (Hinf (S (length vs))) as (vs2 & s2 & Hlen & Hy2).
  assert (∃ vs2a v, vs2 = vs2a ++ [v] ∧ length vs2a = length vs)
    as (vs2a & v & -> & Hlen').
  { destruct vs2 as [|x vs2] using rev_ind; [done|].
    exists vs2, x. split; [done|]. rewrite length_app in Hlen. simpl in Hlen. lia. }
  apply Yields_app_inv in Hy2 as (s1' & Hya & Hyb).
  destruct (Yields_det _ Hmono _ _ _ _ _ Hy Hya) as [-> ->]; [done|].
  inversion Hyb as [|? ? s3 ? ? Hr' _]; simplify_eq.
  destruct (Returns_det _ Hmono _ _ _ _ _ Hr Hr') as [-> _]. done.
Qed.

Lemma toArray_Infinite s fuel1 fuel2 :
  Infinite step s → toArray (step fuel1) fuel2 s = None.
Proof.
  intros Hinf. destruct (toArray _ _ _) as [[vs s']|] eqn:E; [|done].
  apply toArray_Drains_inv in E as [r Hd].
  by apply Drains_not_Infinite in Hd.
Qed.

Lemma forEach_Infinite {A} s fuel1 fuel2 (f : val → A → A) acc :
  Infinite step s → forEach (step fuel1) fuel2 s f acc = None.
Proof.
  intros Hinf. destruct (forEach _ _ _ _ _) as [[acc' s']|] eqn:E; [|done].
  apply forEach_Drains_inv in E as (vs & r & Hd & _).
  by apply Drains_not_Infinite in Hd.
Qed.

(** A run of [b] that begins like a run of [a]. *)
Lemma Drains_first (a b : St) vs r s' :
  (∀ r x, Returns step a r x → Returns step b r x) →
  Drains step a vs r s' → Drains step b vs r s'.
Proof.
  intros Hab (s1 & Hy & Hr & Hd). inversion Hy; simplify_eq.
  - exists b. split_and!; [constructor|by apply Hab|done].
  - exists s1. split_and!; [|done..]. econstructor; [by apply Hab|done].
Qed.

Lemma Drains_cons s v s1 vs r s' :
  Returns step s (yielded v) s1 → Drains step s1 vs r s' →
  Drains step s (v :: vs) r s'.
Proof.
  intros Hv (s2 & Hy & Hr & Hd). exists s2. split_and!; [|done..].
  by econstructor.
Qed.

Lemma Drains_nil s r s' :
  Returns step s r s' → done r = true → Drains step s [] r s'.
Proof. intros. exists s. split_and!; [constructor|done..]. Qed.
End RunsMore.

(** ** [naturalNumbers], [fromArray] *)
Section Sources.
Context {W : Type}.
Implicit Types (w : W).

Lemma lib_naturalNumbers_Yields (n : nat) (k : Z) w :
  (- MAX_SAFE_INTEGER - 1 ≤ k)%Z →
  (k + Z.of_nat n ≤ MAX_SAFE_INTEGER + 1)%Z →
  Yields Lib.step (Lib.NaturalNumbers k, w) (VNum <$> seqZ k (Z.of_nat n))
    (Lib.NaturalNumbers (k + Z.of_nat n), w).
Proof.
  revert k. induction n as [|n IH]; intros k Hk Hn.
  - rewrite seqZ_nil by lia. rewrite Z.add_0_r. constructor.
  - rewrite seqZ_cons by lia. simpl. econstructor; [by exists 1|].
    rewrite increment_exact by lia.
    replace (Z.pred (Z.of_nat (S n))) with (Z.of_nat n) by lia.
    replace (k + Z.of_nat (S n))%Z with (Z.succ k + Z.of_nat n)%Z by lia.
    replace (k + 1)%Z with (Z.succ k) by lia. apply IH; lia.
Qed.

Lemma lib_naturalNumbers_Infinite k w :
  Infinite Lib.step (Lib.NaturalNumbers k, w).
Proof.
  intros n. revert k. induction n as [|n IH]; intros k.
  - exists [], (Lib.NaturalNumbers k, w). split; [done|constructor].
  - destruct (IH (increment k)) as (vs & s' & Hlen & Hy).
    exists (VNum k :: vs), s'. split; [by rewrite <-Hlen|].
    econstructor; [|exact Hy]. by exists 1.
Qed.

Lemma ts_naturalNumbers_Yields (n : nat) (k : Z) w :
  (- MAX_SAFE_INTEGER - 1 ≤ k)%Z →
  (k + Z.of_nat n ≤ MAX_SAFE_INTEGER + 1)%Z →
  Yields Ts.step (Ts.NaturalNumbers k, w) (VNum <$> seqZ k (Z.of_nat n))
    (Ts.NaturalNumbers (k + Z.of_nat n), w).
Proof.
  revert k. induction n as [|n IH]; intros k Hk Hn.
  - rewrite seqZ_nil by lia. rewrite Z.add_0_r. constructor.
  - rewrite seqZ_cons by lia. simpl. econstructor; [by exists 1|].
    rewrite increment_exact by lia.
    replace (Z.pred (Z.of_nat (S n))) with (Z.of_nat n) by lia.
    replace (k + Z.of_nat (S n))%Z with (Z.succ k + Z.of_nat n)%Z by lia.
    replace (k + 1)%Z with (Z.succ k) by lia. apply IH; lia.
Qed.

Lemma ts_naturalNumbers_Infinite k w :
  Infinite Ts.step (Ts.NaturalNumbers k, w).
Proof.
  intros n. revert k. induction n as [|n IH]; intros k.
  - exists [], (Ts.NaturalNumbers k, w). split; [done|constructor].
  - destruct (IH (increment k)) as (vs & s' & Hlen & Hy).
    exists (VNum k :: vs), s'. split; [by rewrite <-Hlen|].
    econstructor; [|exact Hy]. by exists 1.
Qed.

Lemma array_at_drop (array : list val) offset :
  offset < length array →
  drop offset array = array_at array offset :: drop (S offset) array.
Proof.
  intros Hlt. destruct (lookup_lt_is_Some_2 array offset Hlt) as [v Hv].
  unfold array_at. rewrite Hv. simpl. by apply drop_S.
Qed.

Lemma lib_fromArray_Yields (n : nat) array offset w :
  n = length array - offset →
  Yields Lib.step (Lib.FromArray array offset, w) (drop offset array)
    (Lib.FromArray array (offset + n), w).
Proof.
  revert offset. induction n as [|n IH]; intros offset Hn.
  - rewrite drop_ge by lia. rewrite Nat.add_0_r. constructor.
  - rewrite array_at_drop by lia. econstructor.
    + exists 1. unfold Lib.step. simpl. by rewrite bool_decide_true by lia.
    + replace (offset + S n) with (S offset + n) by lia. apply IH. lia.
Qed.

Lemma lib_fromArray_Drains array w :
  Drains Lib.step (Lib.fromArray array, w) array Lib.exhausted
    (Lib.FromArray array (length array), w).
Proof.
  pose proof (lib_fromArray_Yields (length array) array 0 w ltac:(lia)) as H.
  rewrite drop_0 in H. eexists. split; [exact H|].
  split; [|done]. exists 1. unfold Lib.step. simpl.
  by rewrite bool_decide_false by lia.
Qed.

Lemma ts_fromArray_Yields (n : nat) array position w :
  n = length array - position →
  Yields Ts.step (Ts.FromArray array position, w) (drop position array)
    (Ts.FromArray array (position + n), w).
Proof.
  revert position. induction n as [|n IH]; intros position Hn.
  - rewrite drop_ge by lia. rewrite Nat.add_0_r. constructor.
  - rewrite array_at_drop by lia. econstructor.
    + exists 1. unfold Ts.step. simpl. by rewrite bool_decide_true by lia.
    + replace (position + S n) with (S position + n) by lia. apply IH. lia.
Qed.

Lemma ts_fromArray_Drains array w :
  Drains Ts.step (Ts.fromArray array, w) array Ts.finished (Ts.Completed, w).
Proof.
  pose proof (ts_fromArray_Yields (length array) array 0 w ltac:(lia)) as H.
  rewrite drop_0 in H. eexists. split; [exact H|].
  split; [|done]. exists 1. unfold Ts.step. simpl.
  by rewrite bool_decide_false by lia.
Qed.

(** X1. [toArray(fromArray(array))] returns, with the items of [array]
    in their order, whatever the items are; the generator of lib/index.js
    is left with its offset at the length of the array, the one of
    src/index.ts completed; the world is untouched. *)
Theorem fromArray_toArray_round_trip (array : list val) w :
  (∃ fuel, toArray (Lib.step fuel) fuel (Lib.fromArray array, w)
             = Some (array, (Lib.FromArray array (length array), w))) ∧
  (∃ fuel, toArray (Ts.step fuel) fuel (Ts.fromArray array, w)
             = Some (array, (Ts.Completed, w))).
Proof.
  split.
  - destruct (toArray_Drains _ lib_step_monotone _ _ _ _
                (lib_fromArray_Drains array w)) as (fuel & H).
    exists fuel. by apply H.
  - destruct (toArray_Drains _ ts_step_monotone _ _ _ _
                (ts_fromArray_Drains array w)) as (fuel & H).
    exists fuel. by apply H.
Qed.
End Sources.

Section RunsTake.
Context {St : Type} (step : nat → St → option (IteratorResult * St)).
Hypothesis Hmono : monotone step.

Lemma Infinite_tail s v s1 :
  Infinite step s → Returns step s (yielded v) s1 → Infinite step s1.
Proof.
  intros Hinf Hr n. destruct (Hinf (S n)) as (vs & s' & Hlen & Hy).
  inversion Hy as [|? v' s1' vs' ? Hr' Hy']; simplify_eq/=.
  destruct (Returns_det _ Hmono _ _ _ _ _ Hr Hr') as [_ ->]. eauto.
Qed.

Lemma Infinite_Returns s r s1 fuel :
  Infinite step s → step fuel s = Some (r, s1) → done r = false.
Proof.
  intros Hinf H. destruct (Hinf 1) as (vs & s' & Hlen & Hy).
  inversion Hy as [|? v' s1' vs' ? Hr' Hy']; simplify_eq/=.
  assert (Hr : Returns step s r s1) by (by exists fuel).
  by destruct (Returns_det _ Hmono _ _ _ _ _ Hr Hr') as [-> _].
Qed.

Lemma lib_take_loop_Drains s vs r s' (k : nat) :
  Drains step s vs r s' →
  ∃ fuel, ∀ fuel' result, fuel ≤ fuel' →
    lib_take_loop (step fuel') (length vs + S k) s result
      = Some (result ++ vs, s').
Proof.
  intros (s1 & Hy & Hr & Hd).
  induction Hy as [s|s v s0 vs s1 Hv _ IH].
  - apply (Returns_from _ Hmono) in Hr as (fuel & Hr). exists fuel.
    intros fuel' result Hle. simpl. rewrite Hr by done. simpl.
    by rewrite Hd, app_nil_r.
  - destruct (IH Hr) as (fuel2 & IH').
    apply (Returns_from _ Hmono) in Hv as (fuel1 & Hv).
    exists (fuel1 `max` fuel2). intros fuel' result Hle. simpl.
    rewrite Hv by lia. simpl. rewrite IH' by lia. by rewrite <-app_assoc.
Qed.

Lemma ts_take_loop_Drains s vs r s' (k : nat) :
  Drains step s vs r s' →
  ∃ fuel, ∀ fuel' result, fuel ≤ fuel' →
    ts_take_loop (step fuel') (length vs + S k) s result
      = Some (result ++ vs ++ returned_value [r], s').
Proof.
  intros (s1 & Hy & Hr & Hd).
  induction Hy as [s|s v s0 vs s1 Hv _ IH].
  - apply (Returns_from _ Hmono) in Hr as (fuel & Hr). exists fuel.
    intros fuel' result Hle. simpl. rewrite Hr by done. simpl.
    unfold returned_value. simpl. rewrite Hd. simpl.
    destruct (defined (value r)); by rewrite ?app_nil_r.
  - destruct (IH Hr) as (fuel2 & IH').
    apply (Returns_from _ Hmono) in Hv as (fuel1 & Hv).
    exists (fuel1 `max` fuel2). intros fuel' result Hle. simpl.
    rewrite Hv by lia. simpl. rewrite IH' by lia. by rewrite <-app_assoc.
Qed.
End RunsTake.

(** ** [forEach], [toArray], [take] on whole sequences *)
Section WholeSequences.
Context {W : Type}.

(** X2. On a finite sequence, [forEach] calls its callback once on each
    value, in order, and returns when the sequence is done; [toArray]
    returns the values in order.  On a sequence that never ends neither of
    them returns.  lib/index.js and src/index.ts. *)
Theorem forEach_visits_each_value_in_order {A : Type}
    (iterator : val → A → A) (acc : A) :
  (∀ (s : Lib.gen * W) vs r s', Drains Lib.step s vs r s' →
     ∃ fuel, forEach (Lib.step fuel) fuel s iterator acc
               = Some (foldl (flip iterator) acc vs, s') ∧
             toArray (Lib.step fuel) fuel s = Some (vs, s')) ∧
  (∀ (s : Lib.gen * W), Infinite Lib.step s →
     ∀ fuel1 fuel2, forEach (Lib.step fuel1) fuel2 s iterator acc = None ∧
                    toArray (Lib.step fuel1) fuel2 s = None) ∧
  (∀ (s : Ts.genobj * W) vs r s', Drains Ts.step s vs r s' →
     ∃ fuel, forEach (Ts.step fuel) fuel s iterator acc
               = Some (foldl (flip iterator) acc vs, s') ∧
             toArray (Ts.step fuel) fuel s = Some (vs, s')) ∧
  (∀ (s : Ts.genobj * W), Infinite Ts.step s →
     ∀ fuel1 fuel2, forEach (Ts.step fuel1) fuel2 s iterator acc = None ∧
                    toArray (Ts.step fuel1) fuel2 s = None).
Proof.
  split_and!.
  - intros s vs r s' Hd.
    destruct (forEach_Drains _ lib_step_monotone _ _ _ _ iterator Hd) as (f1 & H1).
    destruct (toArray_Drains _ lib_step_monotone _ _ _ _ Hd) as (f2 & H2).
    exists (f1 `max` f2). split; [apply H1|apply H2]; lia.
  - intros s Hinf fuel1 fuel2. split.
    + by apply forEach_Infinite; [apply lib_step_monotone|].
    + by apply toArray_Infinite; [apply lib_step_monotone|].
  - intros s vs r s' Hd.
    destruct (forEach_Drains _ ts_step_monotone _ _ _ _ iterator Hd) as (f1 & H1).
    destruct (toArray_Drains _ ts_step_monotone _ _ _ _ Hd) as (f2 & H2).
    exists (f1 `max` f2). split; [apply H1|apply H2]; lia.
  - intros s Hinf fuel1 fuel2. split.
    + by apply forEach_Infinite; [apply ts_step_monotone|].
    + by apply toArray_Infinite; [apply ts_step_monotone|].
Qed.

(** X3. [take(s, n)] on a sequence that has at least [n] values returns
    the first [n] of them and leaves [s] where the next call of [next]
    gives the value after those; on a sequence that ends before [count]
    values it returns all of them (src/index.ts adds the value of the
    [done] result when that is not [undefined]).  lib/index.js and
    src/index.ts. *)
Theorem take_returns_the_first_values :
  (∀ (s : Lib.gen * W) vs s', Yields Lib.step s vs s' →
     ∃ fuel, Lib.take fuel s (Z.of_nat (length vs)) = Some (vs, s')) ∧
  (∀ (s : Lib.gen * W) vs r s' count, Drains Lib.step s vs r s' →
     (Z.of_nat (length vs) < count)%Z →
     ∃ fuel, Lib.take fuel s count = Some (vs, s')) ∧
  (∀ (s : Ts.genobj * W) vs s', Yields Ts.step s vs s' →
     ∃ fuel, Ts.take fuel s (Z.of_nat (length vs)) = Some (vs, s')) ∧
  (∀ (s : Ts.genobj * W) vs r s' count, Drains Ts.step s vs r s' →
     (Z.of_nat (length vs) < count)%Z →
     ∃ fuel, Ts.take fuel s count = Some (vs ++ returned_value [r], s')).
Proof.
  split_and!.
  - intros s vs s' Hy.
    destruct (lib_take_loop_Yields _ lib_step_monotone _ _ _ Hy) as (fuel & H).
    exists fuel. unfold Lib.take, lib_take. rewrite Nat2Z.id. by apply H.
  - intros s vs r s' count Hd Hc.
    destruct (lib_take_loop_Drains _ lib_step_monotone _ _ _ _
                (Z.to_nat count - length vs - 1) Hd) as (fuel & H).
    exists fuel. unfold Lib.take, lib_take.
    replace (Z.to_nat count)
      with (length vs + S (Z.to_nat count - length vs - 1)) by lia.
    by apply H.
  - intros s vs s' Hy.
    destruct (ts_take_loop_Yields _ ts_step_monotone _ _ _ Hy) as (fuel & H).
    exists fuel. unfold Ts.take, ts_take. rewrite Nat2Z.id. by apply H.
  - intros s vs r s' count Hd Hc.
    destruct (ts_take_loop_Drains _ ts_step_monotone _ _ _ _
                (Z.to_nat count - length vs - 1) Hd) as (fuel & H).
    exists fuel. unfold Ts.take, ts_take.
    replace (Z.to_nat count)
      with (length vs + S (Z.to_nat count - length vs - 1)) by lia.
    by apply H.
Qed.
End WholeSequences.

Lemma forEach_visits_each_value_in_order_witness :
  Drains Lib.step (Lib.range 2 5, tt) (VNum <$> seqZ 2 (5 - 2 + 1))
    Lib.exhausted (Lib.Range 6 5, tt) ∧
  ∃ fuel,
    forEach (Lib.step fuel) fuel (Lib.range 2 5, tt)
      (λ value values, values ++ [value]) []
    = Some (foldl (flip (λ value values, values ++ [value])) []
              (VNum <$> seqZ 2 (5 - 2 + 1)), (Lib.Range 6 5, tt)) ∧
    toArray (Lib.step fuel) fuel (Lib.range 2 5, tt)
    = Some (VNum <$> seqZ 2 (5 - 2 + 1), (Lib.Range 6 5, tt)).
Proof.
  assert (H : Drains Lib.step (Lib.range 2 5, tt) (VNum <$> seqZ 2 (5 - 2 + 1))
                Lib.exhausted (Lib.Range 6 5, tt)).
  { eexists. split; [apply (lib_range_Yields 4 2 5 tt); [lia|exact_bounds]|].
    split; [by exists 1|done]. }
  split; [exact H|].
  exact (proj1 (forEach_visits_each_value_in_order
                  (λ value values, values ++ [value]) []) _ _ _ _ H).
Defined.

Lemma take_returns_the_first_values_witness :
  Yields Ts.step (Ts.naturalNumbers, tt) (VNum <$> seqZ 0 10)
    (Ts.NaturalNumbers 10, tt) ∧
  ∃ fuel, Ts.take fuel (Ts.naturalNumbers, tt) (Z.of_nat (length (VNum <$> seqZ 0 10)))
            = Some (VNum <$> seqZ 0 10, (Ts.NaturalNumbers 10, tt)).
Proof.
  assert (H : Yields Ts.step (Ts.naturalNumbers (W:=unit), tt)
                (VNum <$> seqZ 0 10) (Ts.NaturalNumbers 10, tt))
    by (apply (ts_naturalNumbers_Yields 10 0 tt); exact_bounds).
  split; [exact H|].
  exact (proj1 (proj2 (proj2 take_returns_the_first_values)) _ _ _ H).
Defined.

(** ** [map] and [filter] *)
Section MapFilter.
Context {W : Type}.
Implicit Types (w : W) (transformer : val → val) (predicate : val → bool).

Lemma lib_map_yield g w v g' w' transformer :
  Returns Lib.step (g, w) (yielded v) (g', w') →
  Returns Lib.step (Lib.Map g transformer, w) (yielded (transformer v))
    (Lib.Map g' transformer, w').
Proof.
  intros [fuel H]. exists (S fuel). unfold Lib.step in *. simpl in *.
  by rewrite H.
Qed.

Lemma lib_map_done g w r g' w' transformer :
  Returns Lib.step (g, w) r (g', w') → done r = true →
  Returns Lib.step (Lib.Map g transformer, w) r (Lib.Map g' transformer, w').
Proof.
  intros [fuel H] Hd. exists (S fuel). unfold Lib.step in *. simpl in *.
  rewrite H. simpl. by rewrite Hd.
Qed.

Lemma lib_map_Yields g w vs g' w' transformer :
  Yields Lib.step (g, w) vs (g', w') →
  Yields Lib.step (Lib.Map g transformer, w) (transformer <$> vs)
    (Lib.Map g' transformer, w').
Proof.
  intros H. remember (g, w) as x eqn:Hx. remember (g', w') as y eqn:Hy.
  revert g w Hx. induction H as [?|[g0 w0] v [g1 w1] vs ? Hr _ IH];
    intros g2 w2 ?; simplify_eq.
  - constructor.
  - simpl. econstructor; [by apply lib_map_yield|]. by apply IH.
Qed.

Lemma ts_map_yield it w v it' w' transformer :
  Returns Ts.step (it, w) (yielded v) (it', w') →
  Returns Ts.step (Ts.Map it transformer, w) (yielded (transformer v))
    (Ts.Map it' transformer, w').
Proof.
  intros [fuel H]. exists (S fuel). unfold Ts.step in *. simpl in *.
  by rewrite H.
Qed.

Lemma ts_map_done it w r it' w' transformer :
  Returns Ts.step (it, w) r (it', w') → done r = true →
  Returns Ts.step (Ts.Map it transformer, w) Ts.finished (Ts.Completed, w').
Proof.
  intros [fuel H] Hd. exists (S fuel). unfold Ts.step in *. simpl in *.
  rewrite H. simpl. by rewrite Hd.
Qed.

Lemma ts_map_Yields it w vs it' w' transformer :
  Yields Ts.step (it, w) vs (it', w') →
  Yields Ts.step (Ts.Map it transformer, w) (transformer <$> vs)
    (Ts.Map it' transformer, w').
Proof.
  intros H. remember (it, w) as x eqn:Hx. remember (it', w') as y eqn:Hy.
  revert it w Hx. induction H as [?|[g0 w0] v [g1 w1] vs ? Hr _ IH];
    intros g2 w2 ?; simplify_eq.
  - constructor.
  - simpl. econstructor; [by apply ts_map_yield|]. by apply IH.
Qed.

(** X4. [map(sequence, transformer)] is lazy and exact: as far as
    [sequence] yields values, [map] yields their images under
    [transformer], in order, pulling [sequence] once per value; when
    [sequence] is done so is [map] (lib/index.js passes on the [done]
    result of [sequence], src/index.ts completes with [undefined]). *)
Theorem map_yields_the_images transformer :
  (∀ g w vs g' w', Yields Lib.step (g, w) vs (g', w') →
     Yields Lib.step (Lib.map g transformer, w) (transformer <$> vs)
       (Lib.map g' transformer, w')) ∧
  (∀ g w vs r g' w', Drains Lib.step (g, w) vs r (g', w') →
     Drains Lib.step (Lib.map g transformer, w) (transformer <$> vs) r
       (Lib.map g' transformer, w')) ∧
  (∀ it w vs it' w', Yields Ts.step (it, w) vs (it', w') →
     Yields Ts.step (Ts.map it transformer, w) (transformer <$> vs)
       (Ts.map it' transformer, w')) ∧
  (∀ it w vs r it' w', Drains Ts.step (it, w) vs r (it', w') →
     Drains Ts.step (Ts.map it transformer, w) (transformer <$> vs)
       Ts.finished (Ts.Completed, w')).
Proof.
  split_and!.
  - intros g w vs g' w' H. by apply lib_map_Yields.
  - intros g w vs r g' w' ([g1 w1] & Hy & Hr & Hd).
    exists (Lib.Map g1 transformer, w1).
    split_and!; [by apply lib_map_Yields|by apply lib_map_done|done].
  - intros it w vs it' w' H. by apply ts_map_Yields.
  - intros it w vs r it' w' ([it1 w1] & Hy & Hr & Hd).
    exists (Ts.Map it1 transformer, w1).
    split_and!; [by apply ts_map_Yields|by eapply ts_map_done|done].
Qed.

(** *** [filter] *)

Lemma lib_filter_reject g w v g1 w1 predicate r x :
  Returns Lib.step (g, w) (yielded v) (g1, w1) → predicate v = false →
  Returns Lib.step (Lib.Filter g1 predicate, w1) r x →
  Returns Lib.step (Lib.Filter g predicate, w) r x.
Proof.
  intros [f1 H1] Hp [f2 H2]. exists (S (f1 `max` f2)).
  unfold Lib.step in *. simpl in *.
  rewrite (lib_next_mono f1 (f1 `max` f2) _ _ _ ltac:(lia) H1). simpl.
  rewrite Hp. simpl.
  by apply (lib_next_mono f2 (f1 `max` f2) _ _ _ ltac:(lia) H2).
Qed.

Lemma lib_filter_pass g w v g1 w1 predicate :
  Returns Lib.step (g, w) (yielded v) (g1, w1) → predicate v = true →
  Returns Lib.step (Lib.Filter g predicate, w) (yielded v)
    (Lib.Filter g1 predicate, w1).
Proof.
  intros [f1 H1] Hp. exists (S f1). unfold Lib.step in *. simpl in *.
  rewrite H1. simpl. by rewrite Hp.
Qed.

Lemma lib_filter_done g w r g1 w1 predicate :
  Returns Lib.step (g, w) r (g1, w1) → done r = true →
  Returns Lib.step (Lib.Filter g predicate, w) r (Lib.Filter g1 predicate, w1).
Proof.
  intros [f1 H1] Hd. exists (S f1). unfold Lib.step in *. simpl in *.
  rewrite H1. simpl. by rewrite Hd.
Qed.

Lemma lib_filter_Drains g w vs r g' w' predicate :
  Drains Lib.step (g, w) vs r (g', w') →
  Drains Lib.step (Lib.Filter g predicate, w) (List.filter predicate vs) r
    (Lib.Filter g' predicate, w').
Proof.
  intros ([g1 w1] & Hy & Hr & Hd).
  remember (g, w) as x eqn:Hx. remember (g1, w1) as y eqn:Hy'.
  revert g w Hx. induction Hy as [?|[g0 w0] v [g2 w2] vs ? Hv _ IH];
    intros g3 w3 ?; simplify_eq.
  - apply Drains_nil; [by apply lib_filter_done|done].
  - simpl. specialize (IH eq_refl Hr _ _ eq_refl).
    destruct (predicate v) eqn:Hp.
    + eapply Drains_cons; [by apply lib_filter_pass|done].
    + eapply Drains_first; [|exact IH].
      intros r0 x0. by eapply lib_filter_reject.
Qed.

Lemma ts_filter_reject it w v it1 w1 predicate r x :
  Returns Ts.step (it, w) (yielded v) (it1, w1) → predicate v = false →
  Returns Ts.step (Ts.Filter it1 predicate, w1) r x →
  Returns Ts.step (Ts.Filter it predicate, w) r x.
Proof.
  intros [f1 H1] Hp [f2 H2]. exists (S (f1 `max` f2)).
  unfold Ts.step in *. simpl in *.
  rewrite (ts_next_mono f1 (f1 `max` f2) _ _ _ ltac:(lia) H1). simpl.
  rewrite Hp.
  by apply (ts_next_mono f2 (f1 `max` f2) _ _ _ ltac:(lia) H2).
Qed.

Lemma ts_filter_pass it w v it1 w1 predicate :
  Returns Ts.step (it, w) (yielded v) (it1, w1) → predicate v = true →
  Returns Ts.step (Ts.Filter it predicate, w) (yielded v)
    (Ts.Filter it1 predicate, w1).
Proof.
  intros [f1 H1] Hp. exists (S f1). unfold Ts.step in *. simpl in *.
  rewrite H1. simpl. by rewrite Hp.
Qed.

Lemma ts_filter_done it w r it1 w1 predicate :
  Returns Ts.step (it, w) r (it1, w1) → done r = true →
  Returns Ts.step (Ts.Filter it predicate, w) Ts.finished (Ts.Completed, w1).
Proof.
  intros [f1 H1] Hd. exists (S f1). unfold Ts.step in *. simpl in *.
  rewrite H1. simpl. by rewrite Hd.
Qed.

Lemma ts_filter_Drains it w vs r it' w' predicate :
  Drains Ts.step (it, w) vs r (it', w') →
  Drains Ts.step (Ts.Filter it predicate, w) (List.filter predicate vs)
    Ts.finished (Ts.Completed, w').
Proof.
  intros ([g1 w1] & Hy & Hr & Hd).
  remember (it, w) as x eqn:Hx. remember (g1, w1) as y eqn:Hy'.
  revert it w Hx. induction Hy as [?|[g0 w0] v [g2 w2] vs ? Hv _ IH];
    intros g3 w3 ?; simplify_eq.
  - apply Drains_nil; [by eapply ts_filter_done|done].
  - simpl. specialize (IH eq_refl Hr _ _ eq_refl).
    destruct (predicate v) eqn:Hp.
    + eapply Drains_cons; [by apply ts_filter_pass|done].
    + eapply Drains_first; [|exact IH].
      intros r0 x0. by eapply ts_filter_reject.
Qed.

(** X5. [filter(sequence, predicate)] on a finite sequence yields the
    values that pass [predicate], in their order, and nothing else, and is
    done when [sequence] is. *)
Theorem filter_yields_the_passing_values predicate :
  (∀ g w vs r g' w', Drains Lib.step (g, w) vs r (g', w') →
     Drains Lib.step (Lib.filter g predicate, w) (List.filter predicate vs) r
       (Lib.filter g' predicate, w')) ∧
  (∀ it w vs r it' w', Drains Ts.step (it, w) vs r (it', w') →
     Drains Ts.step (Ts.filter it predicate, w) (List.filter predicate vs)
       Ts.finished (Ts.Completed, w')).
Proof.
  split.
  - intros g w vs r g' w' H. by apply lib_filter_Drains.
  - intros it w vs r it' w' H. by eapply ts_filter_Drains.
Qed.

Lemma lib_filter_never fuel g w predicate :
  Infinite Lib.step (g, w) →
  (∀ vs s', Yields Lib.step (g, w) vs s' → Forall (λ v, predicate v = false) vs) →
  Lib.next fuel (Lib.Filter g predicate) w = None.
Proof.
  revert g w. induction fuel as [|fuel IH]; intros g w Hinf Hrej; [done|].
  simpl. destruct (Lib.next fuel g w) as [[r [g1 w1]]|] eqn:E; [|done]. simpl.
  assert (Hd : done r = false)
    by (eapply (Infinite_Returns _ lib_step_monotone); [exact Hinf|exact E]).
  rewrite Hd.
  assert (Hr : Returns Lib.step (g, w) (yielded (value r)) (g1, w1)).
  { exists fuel. unfold Lib.step. simpl. rewrite E. destruct r; simpl in *. by subst. }
  assert (predicate (value r) = false) as ->.
  { assert (Hy : Yields Lib.step (g, w) [value r] (g1, w1))
      by (econstructor; [done|constructor]).
    apply Hrej in Hy. by inversion Hy. }
  simpl. apply IH.
  - by eapply (Infinite_tail _ lib_step_monotone).
  - intros vs s' Hy.
    assert (Hy' : Yields Lib.step (g, w) (value r :: vs) s') by (by econstructor).
    apply Hrej in Hy'. by inversion Hy'.
Qed.

Lemma ts_filter_never fuel it w predicate :
  Infinite Ts.step (it, w) →
  (∀ vs s', Yields Ts.step (it, w) vs s' → Forall (λ v, predicate v = false) vs) →
  Ts.next fuel (Ts.Filter it predicate) w = None.
Proof.
  revert it w. induction fuel as [|fuel IH]; intros g w Hinf Hrej; [done|].
  simpl. destruct (Ts.next fuel g w) as [[r [g1 w1]]|] eqn:E; [|done]. simpl.
  assert (Hd : done r = false)
    by (eapply (Infinite_Returns _ ts_step_monotone); [exact Hinf|exact E]).
  rewrite Hd.
  assert (Hr : Returns Ts.step (g, w) (yielded (value r)) (g1, w1)).
  { exists fuel. unfold Ts.step. simpl. rewrite E. destruct r; simpl in *. by subst. }
  assert (predicate (value r) = false) as ->.
  { assert (Hy : Yields Ts.step (g, w) [value r] (g1, w1))
      by (econstructor; [done|constructor]).
    apply Hrej in Hy. by inversion Hy. }
  apply IH.
  - by eapply (Infinite_tail _ ts_step_monotone).
  - intros vs s' Hy.
    assert (Hy' : Yields Ts.step (g, w) (value r :: vs) s') by (by econstructor).
    apply Hrej in Hy'. by inversion Hy'.
Qed.

(** X6. [filter] has no guard against a predicate that never passes:
    when [sequence] never ends and [predicate] rejects every value it
    yields, [next] on [filter(sequence, predicate)] does not return. *)
Theorem filter_never_returns_when_nothing_passes predicate :
  (∀ g w, Infinite Lib.step (g, w) →
     (∀ vs s', Yields Lib.step (g, w) vs s' →
               Forall (λ v, predicate v = false) vs) →
     ∀ fuel, Lib.step fuel (Lib.filter g predicate, w) = None) ∧
  (∀ it w, Infinite Ts.step (it, w) →
     (∀ vs s', Yields Ts.step (it, w) vs s' →
               Forall (λ v, predicate v = false) vs) →
     ∀ fuel, Ts.step fuel (Ts.filter it predicate, w) = None).
Proof.
  split.
  - intros g w Hinf Hrej fuel. by apply lib_filter_never.
  - intros it w Hinf Hrej fuel. by apply ts_filter_never.
Qed.
End MapFilter.

Lemma map_yields_the_images_witness :
  Drains Ts.step (Ts.range 2 5, tt) (VNum <$> seqZ 2 (5 - 2 + 1)) Ts.finished
    (Ts.Completed, tt) ∧
  Drains Ts.step (Ts.map (Ts.range 2 5) double, tt)
    (double <$> (VNum <$> seqZ 2 (5 - 2 + 1))) Ts.finished (Ts.Completed, tt).
Proof.
  assert (H : Drains Ts.step (Ts.range 2 5, tt) (VNum <$> seqZ 2 (5 - 2 + 1))
                Ts.finished (Ts.Completed, tt)) by (apply ts_range_Drains; exact_bounds).
  split; [exact H|].
  exact (proj2 (proj2 (proj2 (map_yields_the_images double))) _ _ _ _ _ _ H).
Defined.

Lemma filter_yields_the_passing_values_witness :
  Drains Ts.step (Ts.range 0 5, tt) (VNum <$> seqZ 0 (5 - 0 + 1)) Ts.finished
    (Ts.Completed, tt) ∧
  Drains Ts.step (Ts.filter (Ts.range 0 5) even, tt)
    (List.filter even (VNum <$> seqZ 0 (5 - 0 + 1))) Ts.finished
    (Ts.Completed, tt).
Proof.
  assert (H : Drains Ts.step (Ts.range 0 5, tt) (VNum <$> seqZ 0 (5 - 0 + 1))
                Ts.finished (Ts.Completed, tt)) by (apply ts_range_Drains; exact_bounds).
  split; [exact H|].
  exact (proj2 (filter_yields_the_passing_values even) _ _ _ _ _ _ H).
Defined.

(** ** Exhaustion is idempotent *)

Lemma calls_fixed {St : Type} (next : St → option (IteratorResult * St)) s r k :
  next s = Some (r, s) → calls next k s = Some (replicate k r, s).
Proof.
  intros H. induction k as [|k IH]; [done|]. simpl. rewrite H. simpl.
  by rewrite IH.
Qed.

Section Exhaustion.
Context {W : Type}.
Implicit Types (g : @Lib.gen W) (w : W).

Lemma library_made_Concat (generators : list (@Lib.gen W)) offset :
  library_made (Lib.Concat generators offset) = forallb library_made generators.
Proof. simpl. induction generators as [|g gs IH]; simpl; by rewrite ?IH. Qed.

Lemma forallb_insert {A} (f : A → bool) (l : list A) i x :
  forallb f l = true → f x = true → forallb f (<[i := x]> l) = true.
Proof.
  revert i. induction l as [|y l IH]; intros i Hl Hx; [done|].
  simpl in Hl. apply andb_true_iff in Hl as [Hy Hl].
  destruct i as [|i]; simpl; apply andb_true_iff; auto.
Qed.

Lemma forallb_lookup {A} (f : A → bool) (l : list A) i x :
  forallb f l = true → l !! i = Some x → f x = true.
Proof.
  revert i. induction l as [|y l IH]; intros i Hl Hx; [done|].
  simpl in Hl. apply andb_true_iff in Hl as [Hy Hl].
  destruct i as [|i]; simplify_eq/=; eauto.
Qed.

Lemma library_made_next fuel g w r g' w' :
  library_made g = true → Lib.next fuel g w = Some (r, (g', w')) →
  library_made g' = true.
Proof.
  revert g w r g' w'. induction fuel as [|fuel IH];
    intros g w r g' w' Hg H; [done|].
  destruct g; simpl in H; try done.
  - by simplify_eq.
  - by simplify_eq.
  - case_bool_decide; by simplify_eq.
  - case_bool_decide; by simplify_eq.
  - bind_inv H. destruct x as [it [g1 w1]]. simpl in *.
    apply IH in E; [|done]. destruct (done it); by simplify_eq.
  - bind_inv H. destruct x as [it [g1 w1]]. simpl in *.
    apply IH in E; [|done].
    destruct (done it); [by simplify_eq|].
    destruct (negb _); [eapply IH; [|exact H]; exact E|by simplify_eq].
  - bind_inv H. destruct x as [it [g1 w1]]. simpl in *.
    apply IH in E; [|done].
    destruct (done it); [by simplify_eq|].
    destruct (transform _ _) as [[mapped skipped] w2].
    destruct skipped; [eapply IH; [|exact H]; exact E|by simplify_eq].
  - rewrite library_made_Concat in Hg.
    case_bool_decide; [by simplify_eq|].
    bind_inv H. bind_inv H. destruct x0 as [it [g1 w1]]. simpl in H.
    apply IH in E0; [|by eapply forallb_lookup].
    assert (library_made (Lib.Concat (<[offset := g1]> generators) offset) = true)
      by (rewrite library_made_Concat; by apply forallb_insert).
    destruct (done it); [eapply IH; [|exact H]; done|by simplify_eq].
  - bind_inv H. destruct x as [it [g1 w1]]. simpl in *.
    assert (library_made g1 = true).
    { destruct leftIteration; simplify_eq; [done|]. by eapply IH. }
    destruct (done it); [by simplify_eq|].
    destruct (truthy _); [by simplify_eq|]. eapply IH; [|exact H]. done.
Qed.

Lemma settled_next fuel g w r g' w' :
  library_made g = true → Lib.next fuel g w = Some (r, (g', w')) →
  done r = true → settled r g'.
Proof.
  revert g w r g' w'. induction fuel as [|fuel IH];
    intros g w r g' w' Hg H Hd; [done|].
  destruct g; simpl in H; try done.
  - simplify_eq. constructor.
  - by simplify_eq.
  - case_bool_decide; simplify_eq; try done. constructor. lia.
  - case_bool_decide; simplify_eq; try done. constructor. lia.
  - bind_inv H. destruct x as [it [g1 w1]]. simpl in *.
    destruct (done it) eqn:Hit; simplify_eq; try done.
    constructor. by eapply IH.
  - bind_inv H. destruct x as [it [g1 w1]]. simpl in *.
    destruct (done it) eqn:Hit.
    { simplify_eq. constructor. by eapply IH. }
    destruct (negb _); [|simplify_eq; congruence].
    eapply IH; [|exact H|exact Hd]. simpl. by eapply library_made_next.
  - bind_inv H. destruct x as [it [g1 w1]]. simpl in *.
    destruct (done it) eqn:Hit.
    { simplify_eq. constructor. by eapply IH. }
    destruct (transform _ _) as [[mapped skipped] w2].
    destruct skipped; [|simplify_eq; simpl in *; congruence].
    eapply IH; [|exact H|exact Hd]. simpl. by eapply library_made_next.
  - rewrite library_made_Concat in Hg.
    case_bool_decide; [simplify_eq; by constructor|].
    bind_inv H. bind_inv H. destruct x0 as [it [g1 w1]]. simpl in H.
    assert (library_made g1 = true)
      by (eapply library_made_next; [|exact E0]; by eapply forallb_lookup).
    destruct (done it) eqn:Hit; [|simplify_eq; congruence].
    eapply IH; [|exact H|exact Hd].
    rewrite library_made_Concat. by apply forallb_insert.
  - bind_inv H. destruct x as [it [g1 w1]]. simpl in *.
    destruct (done it) eqn:Hit; [simplify_eq; by constructor|].
    destruct (truthy _); [simplify_eq; simpl in *; congruence|].
    eapply IH; [|exact H|exact Hd]. simpl.
    destruct leftIteration; simplify_eq; [done|]. by eapply library_made_next.
Qed.

Lemma settled_done r g : settled r g → done r = true.
Proof. induction 1; done. Qed.

Lemma settled_stays r g w :
  settled r g → Returns Lib.step (g, w) r (g, w).
Proof.
  induction 1 as [|array offset Hl|i max Hlt|r g f Hs [fuel IH]
                  |r g p Hs [fuel IH]|r g t Hs [fuel IH]
                  |generators offset Hl|l a r off Hd].
  - by exists 1.
  - exists 1. unfold Lib.step. simpl. by rewrite bool_decide_false by lia.
  - exists 1. unfold Lib.step. simpl. by rewrite bool_decide_false by lia.
  - exists (S fuel). unfold Lib.step in *. simpl in *. rewrite IH. simpl.
    by rewrite (settled_done _ _ Hs).
  - exists (S fuel). unfold Lib.step in *. simpl in *. rewrite IH. simpl.
    by rewrite (settled_done _ _ Hs).
  - exists (S fuel). unfold Lib.step in *. simpl in *. rewrite IH. simpl.
    by rewrite (settled_done _ _ Hs).
  - exists 1. unfold Lib.step. simpl. by rewrite bool_decide_true by lia.
  - exists 1. unfold Lib.step. simpl. by rewrite Hd.
Qed.

Lemma ts_done_completes fuel (g : @Ts.genobj W) w r (g' : @Ts.genobj W) w' :
  generator_function_made g = true →
  Ts.next fuel g w = Some (r, (g', w')) → done r = true →
  r = Ts.finished ∧ g' = Ts.Completed.
Proof.
  revert g w r g' w'. induction fuel as [|fuel IH];
    intros g w r g' w' Hg H Hd; [done|].
  destruct g; simpl in H; try done.
  - by simplify_eq.
  - by simplify_eq.
  - case_bool_decide; by simplify_eq.
  - case_bool_decide; by simplify_eq.
  - bind_inv H. destruct x as [it [g1 w1]]. simpl in *.
    destruct (done it); by simplify_eq.
  - bind_inv H. destruct x as [it [g1 w1]]. simpl in *.
    destruct (done it); [by simplify_eq|].
    destruct (predicate _); [by simplify_eq|].
    eapply IH; [|exact H|exact Hd]. done.
  - bind_inv H. destruct x as [it [g1 w1]]. simpl in *.
    destruct (done it); [by simplify_eq|].
    destruct (transform _ _) as [[mapped skipped] w2].
    destruct (negb skipped && defined mapped); [by simplify_eq|].
    eapply IH; [|exact H|exact Hd]. done.
  - destruct inner as [it0|].
    + bind_inv H. destruct x as [it [g1 w1]]. simpl in *.
      destruct (done it) eqn:Hit; [eapply IH; [|exact H|exact Hd]; done|].
      simplify_eq. congruence.
    + case_bool_decide; [|by simplify_eq]. bind_inv H.
      eapply IH; [|exact H|exact Hd]. done.
  - destruct generators as [|g1 [|g2 gs]];
      [by simplify_eq|eapply IH; [|exact H|exact Hd]; done|].
    bind_inv H. destruct x as [hv [? w1]]. simpl in *.
    bind_inv H. destruct x as [tc [? w2]]. simpl in *.
    eapply IH; [|exact H|exact Hd]. done.
  - destruct inner as [[hv j]|].
    + case_bool_decide; [by simplify_eq|].
      eapply IH; [|exact H|exact Hd]. done.
    + case_bool_decide; [|by simplify_eq].
      eapply IH; [|exact H|exact Hd]. done.
  - destruct iterables as [|g1 [|g2 gs]];
      [by simplify_eq|eapply IH; [|exact H|exact Hd]; done..].
  - bind_inv H. destruct x as [it [g1 w1]]. simpl in *.
    destruct (done it); by simplify_eq.
  - destruct inner as [[hv j]|].
    + bind_inv H. destruct x as [it [g1 w1]]. simpl in *.
      destruct (done it); [|by simplify_eq].
      eapply IH; [|exact H|exact Hd]. done.
    + bind_inv H. destruct x as [it [g1 w1]]. simpl in *.
      destruct (done it); [by simplify_eq|].
      destruct (iterator tails) as [tails' id].
      eapply IH; [|exact H|exact Hd]. done.
Qed.

(** X7. Exhaustion is idempotent, for the generators of [fromArray],
    [range], [map], [filter], [filterMap], [concat] and [combine] over
    one another ([flatten] and hand-written generators are not covered).
    In lib/index.js, once [next] on such a generator has returned a
    [done] result, the calls of [next] that follow it, with nothing done
    in between, return that same result and change neither the generator
    nor the world: no callback is called again.  In src/index.ts, the
    generator object is completed by its first [done] result, and a
    completed generator answers [{ value: undefined, done: true }] for
    ever, whatever happens in between. *)
Theorem exhaustion_is_idempotent :
  (∀ g w r g' w', library_made g = true →
     Returns Lib.step (g, w) r (g', w') → done r = true →
     ∀ k, ∃ fuel,
       calls (Lib.step fuel) k (g', w') = Some (replicate k r, (g', w'))) ∧
  (∀ (g : @Ts.genobj W) w r (g' : @Ts.genobj W) w',
     generator_function_made g = true →
     Returns Ts.step (g, w) r (g', w') → done r = true →
     r = Ts.finished ∧ g' = Ts.Completed ∧
     ∀ w2 k fuel,
       calls (Ts.step (S fuel)) k (g', w2)
         = Some (replicate k Ts.finished, (g', w2))).
Proof.
  split.
  - intros g w r g' w' Hg [fuel H] Hd k.
    unfold Lib.step in H. simpl in H.
    pose proof (settled_next _ _ _ _ _ _ Hg H Hd) as Hs.
    destruct (settled_stays _ _ w' Hs) as [fuel' H'].
    exists fuel'. by apply calls_fixed.
  - intros g w r g' w' Hg [fuel H] Hd.
    unfold Ts.step in H. simpl in H.
    destruct (ts_done_completes _ _ _ _ _ _ Hg H Hd) as [-> ->].
    split_and!; [done..|]. intros w2 k fuel2. by apply calls_fixed.
Qed.
End Exhaustion.

(** ** [combine] of two generators, lib/index.js *)
Section Combine2.
Context {W : Type}.
Implicit Types (l : @Lib.gen W) (w : W) (a : list val).

Lemma truthy_prefix_lookup a i :
  i < length (truthy_prefix a) →
  array_at a i = array_at (truthy_prefix a) i ∧ truthy (array_at a i) = true.
Proof.
  revert i. induction a as [|v a IH]; intros i Hi; simpl in *; [lia|].
  destruct (truthy v) eqn:Hv; simpl in *; [|lia].
  destruct i as [|i]; [done|]. apply IH. lia.
Qed.

Lemma truthy_prefix_end a :
  truthy (array_at a (length (truthy_prefix a))) = false.
Proof.
  induction a as [|v a IH]; simpl; [done|].
  destruct (truthy v) eqn:Hv; simpl; [done|]. by unfold array_at.
Qed.

Lemma truthy_prefix_all a :
  Forall (λ x, truthy x = true) a → truthy_prefix a = a.
Proof. induction 1 as [|v a Hv _ IH]; simpl; [done|]. by rewrite Hv, IH. Qed.

Lemma lib_combine2_row l a v w (n : nat) offset :
  n = length (truthy_prefix a) - offset →
  Yields Lib.step (Lib.Combine2 l a (Some (yielded v)) offset, w)
    ((λ x, VArr [v; x]) <$> drop offset (truthy_prefix a))
    (Lib.Combine2 l a (Some (yielded v)) (offset + n), w).
Proof.
  revert offset. induction n as [|n IH]; intros offset Hn.
  - rewrite drop_ge by lia. rewrite Nat.add_0_r. constructor.
  - rewrite array_at_drop by lia. simpl.
    destruct (truthy_prefix_lookup a offset) as [Heq Ht]; [lia|].
    econstructor.
    + exists 1. unfold Lib.step. simpl. rewrite Ht, Heq. done.
    + replace (offset + S n) with (S offset + n) by lia. apply IH. lia.
Qed.

Lemma lib_combine2_row_end l a v w r x :
  Returns Lib.step (Lib.Combine2 l a None 0, w) r x →
  Returns Lib.step
    (Lib.Combine2 l a (Some (yielded v)) (length (truthy_prefix a)), w) r x.
Proof.
  intros [fuel H]. exists (S fuel). unfold Lib.step in *. simpl in *.
  by rewrite truthy_prefix_end.
Qed.

Lemma lib_combine2_row_start l a w v l1 w1 r x :
  Returns Lib.step (l, w) (yielded v) (l1, w1) →
  Returns Lib.step (Lib.Combine2 l1 a (Some (yielded v)) 0, w1) r x →
  Returns Lib.step (Lib.Combine2 l a None 0, w) r x.
Proof.
  intros [f1 H1] [f2 H2]. exists (S (f1 `max` f2)).
  apply (lib_next_mono f2 (S (f1 `max` f2)) _ _ _ ltac:(lia)) in H2.
  unfold Lib.step in *. simpl in *.
  by rewrite (lib_next_mono f1 (f1 `max` f2) _ _ _ ltac:(lia) H1).
Qed.

Lemma lib_combine2_left_done l a w r l1 w1 :
  Returns Lib.step (l, w) r (l1, w1) → done r = true →
  Returns Lib.step (Lib.Combine2 l a None 0, w) r
    (Lib.Combine2 l1 a (Some r) 0, w1).
Proof.
  intros [f1 H1] Hd. exists (S f1). unfold Lib.step in *. simpl in *.
  rewrite H1. simpl. by rewrite Hd.
Qed.

Lemma Drains_app {St : Type} (step : nat → St → option (IteratorResult * St))
    s vs1 s1 vs2 r s2 :
  Yields step s vs1 s1 → Drains step s1 vs2 r s2 →
  Drains step s (vs1 ++ vs2) r s2.
Proof.
  intros H1 (s3 & H2 & Hr & Hd). exists s3. split_and!; [|done..].
  by eapply Yields_app.
Qed.

Lemma lib_combine2_Drains l a w ls r l' w' :
  Drains Lib.step (l, w) ls r (l', w') →
  Drains Lib.step (Lib.Combine2 l a None 0, w) (pairs ls (truthy_prefix a)) r
    (Lib.Combine2 l' a (Some r) 0, w').
Proof.
  intros ([l1 w1] & Hy & Hr & Hd).
  remember (l, w) as x eqn:Hx. remember (l1, w1) as y eqn:Hy'.
  revert l w Hx. induction Hy as [?|[l0 w0] v [l2 w2] vs ? Hv _ IH];
    intros l3 w3 ?; simplify_eq.
  - apply Drains_nil; [by apply lib_combine2_left_done|done].
  - specialize (IH eq_refl Hr _ _ eq_refl).
    change (pairs (v :: vs) (truthy_prefix a))
      with (((λ x, VArr [v; x]) <$> truthy_prefix a) ++ pairs vs (truthy_prefix a)).
    eapply Drains_first;
      [intros r0 x0; by apply (lib_combine2_row_start _ _ _ _ _ _ _ _ Hv)|].
    eapply Drains_app.
    + pose proof (lib_combine2_row l2 a v w2 _ 0 eq_refl) as Hrow.
      rewrite drop_0 in Hrow. exact Hrow.
    + eapply Drains_first; [|exact IH]. intros r0 x0 H0. simpl.
      rewrite Nat.sub_0_r. by apply lib_combine2_row_end.
Qed.

Lemma pairs_row v rs :
  (λ x, VArr [v; x]) <$> rs
  = ((λ x, VArr [x]) <$> rs) ≫= (λ t, [cons_tuple v t]).
Proof. induction rs as [|x rs IH]; [done|]. csimpl. by rewrite IH. Qed.

Lemma pairs_tuples ls rs : pairs ls rs = tuples [ls; rs].
Proof.
  unfold pairs.
  change (tuples [ls; rs])
    with (ls ≫= (λ v, ((λ x, VArr [x]) <$> rs) ≫= (λ t, [cons_tuple v t]))).
  induction ls as [|v ls IH]; [done|].
  csimpl. by rewrite IH, pairs_row.
Qed.

(** X8. What [combine] of lib/index.js does with two generators.  The
    right-hand one is read to its end when [combine] is called; then, for
    each value [v] of the left-hand one in turn, the tuples [[v, x]] are
    yielded for the right-hand values [x] up to, not including, the first
    falsy one.  When every right-hand value is truthy this is the whole
    cross product, in order. *)
Theorem lib_combine_of_two (left_ right_ : @Lib.gen W) w rs rr right' w1
    ls r left' w2 :
  Drains Lib.step (right_, w) rs rr (right', w1) →
  Drains Lib.step (left_, w1) ls r (left', w2) →
  (∃ fuel g, Lib.combine fuel [left_; right_] w = Some (g, w1) ∧
     Drains Lib.step (g, w1) (pairs ls (truthy_prefix rs)) r
       (Lib.Combine2 left' rs (Some r) 0, w2)) ∧
  (Forall (λ x, truthy x = true) rs →
     pairs ls (truthy_prefix rs) = tuples [ls; rs]).
Proof.
  intros Hright Hleft. split.
  - destruct (toArray_Drains _ lib_step_monotone _ _ _ _ Hright) as (fuel & H).
    exists fuel, (Lib.Combine2 left_ rs None 0). split.
    + simpl. unfold Lib.combine2. rewrite H by done. done.
    + by apply lib_combine2_Drains.
  - intros Hall. rewrite truthy_prefix_all by done. apply pairs_tuples.
Qed.

(** X9. [combine] of lib/index.js does not return when its second
    generator never ends: it reads that generator with [toArray] before it
    makes the combined one. *)
Theorem lib_combine_never_returns_on_infinite_right
    (left_ right_ : @Lib.gen W) w :
  Infinite Lib.step (right_, w) →
  ∀ fuel, Lib.combine fuel [left_; right_] w = None.
Proof.
  intros Hinf fuel. simpl. unfold Lib.combine2.
  by rewrite (toArray_Infinite _ lib_step_monotone _ _ _ Hinf).
Qed.
End Combine2.

(** ** [copy] *)
Section CopyFacts.
Context {G W : Type}.
Implicit Types (c : Copy G) (w : W).

Lemma copy_wf_new (iterable : G) : copy_wf (copy iterable).
Proof. done. Qed.

Lemma copy_wf_with_indexes c idx : copy_wf c → copy_wf (with_indexes c idx).
Proof. done. Qed.

Lemma pull_wf next c w c' w' :
  done_ c = false → copy_wf c → pull next c w = Some (c', w') →
  copy_wf c' ∧ indexes c' = indexes c ∧
  length (values c') = S (length (values c)).
Proof.
  unfold pull. intros Hd Hwf H. bind_inv H. destruct x as [va [g1 w1]].
  simpl in H. unfold copy_wf in *. rewrite Hd in Hwf.
  case_bool_decide; simplify_eq/=; rewrite ?length_app; simpl.
  - split_and!; [|done|lia]. exists (length (values c)).
    split; [done|lia].
  - rewrite Hd. split_and!; [done..|lia].
Qed.

Lemma getIteratorResultAtIndex_spec next fuel c w index r c' w' :
  copy_wf c →
  getIteratorResultAtIndex next fuel c w index = Some (r, (c', w')) →
  copy_wf c' ∧ indexes c' = indexes c ∧ index < length (values c') ∧
  r = {| value := array_at (values c') index;
         done := beyond index (maxIndex c') |}.
Proof.
  revert c w. induction fuel as [|fuel IH]; intros c w Hwf H; [done|].
  simpl in H. case_bool_decide as Hlen.
  - destruct (done_ c) eqn:Hd; simpl in H; [by eapply IH|].
    bind_inv H. destruct x as [c1 w1]. simpl in H.
    destruct (pull_wf _ _ _ _ _ Hd Hwf E) as (Hwf1 & Hidx & _).
    destruct (IH _ _ Hwf1 H) as (? & ? & ? & ?). split_and!; try done.
    congruence.
  - simplify_eq. split_and!; try done. lia.
Qed.

Lemma getIteratorResultAtIndex_spins next fuel c w index :
  done_ c = true → length (values c) ≤ index →
  getIteratorResultAtIndex next fuel c w index = None.
Proof.
  intros Hd Hlen. induction fuel as [|fuel IH]; [done|]. simpl.
  rewrite bool_decide_true by done. by rewrite Hd.
Qed.

(** X10. [copy] keeps [maxIndex] at [Infinity] until the underlying
    sequence has ended, and at the number of values minus one after.  An
    iterator of the copy reports [done] exactly when it reads the position
    just past the values; and once it has reported [done], its next call
    of [next] does not return: [getIteratorResultAtIndex] then loops on
    [values.length <= index] with [done] set and nothing more to push. *)
Theorem copy_next_after_done_never_returns
    (next : G * W → option (IteratorResult * (G * W))) fuel c w id r c' w' :
  copy_wf c →
  iterator_next next fuel c w id = Some (r, (c', w')) →
  done r = true →
  copy_wf c' ∧ done_ c' = true ∧
  indexes c' !! id = Some (length (values c')) ∧
  ∀ fuel', iterator_next next fuel' c' w' id = None.
Proof.
  unfold iterator_next. intros Hwf H Hd. bind_inv H. rename x into index.
  apply getIteratorResultAtIndex_spec in H as (Hwf' & Hidx & Hlt & ->);
    [|done].
  simpl in *. unfold beyond in Hd. pose proof Hwf' as Hwf2.
  unfold copy_wf in Hwf'.
  destruct (maxIndex c') as [m|] eqn:Hm; [|done]. case_bool_decide; [|done].
  destruct (done_ c') eqn:Hdone; [|done].
  destruct Hwf' as (n & ? & Hlen). simplify_eq.
  assert (index = n) as -> by lia.
  assert (Hid : indexes c' !! id = Some (length (values c'))).
  { rewrite Hidx, Hlen. apply list_lookup_insert_eq. by eapply lookup_lt_Some. }
  split_and!; [done..|].
  intros fuel'. rewrite Hid. simpl.
  by apply getIteratorResultAtIndex_spins.
Qed.
End CopyFacts.

Section CopyReads.
Context {G W : Type} (step : nat → G * W → option (IteratorResult * (G * W))).
Implicit Types (c : Copy G) (w : W).

Lemma with_indexes_id c : with_indexes c (indexes c) = c.
Proof. by destruct c. Qed.

Lemma copy_read_cached fuel c w id p :
  indexes c !! id = Some p → p < length (values c) →
  copy_step step id (S fuel) (c, w)
  = Some ({| value := array_at (values c) p; done := beyond p (maxIndex c) |},
          (with_indexes c (<[id := S p]> (indexes c)), w)).
Proof.
  intros Hid Hp. unfold copy_step, iterator_next. simpl. rewrite Hid. simpl.
  by rewrite bool_decide_false by lia.
Qed.

Lemma beyond_cached c p :
  copy_wf c → p < cached c → beyond p (maxIndex c) = false.
Proof.
  unfold copy_wf, cached, beyond. intros Hwf Hp.
  destruct (done_ c); [|by rewrite Hwf].
  destruct Hwf as (n & -> & Hlen). rewrite bool_decide_false; [done|lia].
Qed.

Lemma cached_le c : cached c ≤ length (values c).
Proof. unfold cached. destruct (done_ c); lia. Qed.

Lemma copy_cached_Yields (n : nat) c w id p :
  copy_wf c → indexes c !! id = Some p → p + n ≤ cached c →
  Yields (copy_step step id) (c, w) (take n (drop p (values c)))
    (with_indexes c (<[id := p + n]> (indexes c)), w).
Proof.
  revert c p. induction n as [|n IH]; intros c p Hwf Hid Hn.
  - rewrite Nat.add_0_r, take_0, list_insert_id by done.
    rewrite with_indexes_id. constructor.
  - pose proof (cached_le c).
    rewrite array_at_drop by lia. simpl. econstructor.
    + exists 1. rewrite (copy_read_cached 0 c w id p) by (done || lia).
      rewrite beyond_cached by (done || lia). done.
    + assert (Hlt : id < length (indexes c)) by (by eapply lookup_lt_Some).
      specialize (IH (with_indexes c (<[id := S p]> (indexes c))) (S p)).
      simpl in IH. rewrite list_insert_insert_eq in IH.
      replace (p + S n) with (S p + n) by lia.
      apply IH; [done| |unfold cached in *; simpl; lia].
      by apply list_lookup_insert_eq.
Qed.

(** X11. Reading a position of a [copy] that is already in [values] asks
    nothing of the underlying sequence: whatever its [next] would do, an
    iterator at position [p] yields the [n] values cached from [p] on, in
    order and without a [done], and only its own read position changes;
    the underlying sequence, the cache and the world are as they were. *)
Theorem copy_cached_reads_do_not_pull (n : nat) (c : Copy G) (w : W) id p :
  copy_wf c → indexes c !! id = Some p → p + n ≤ cached c →
  Yields (copy_step step id) (c, w) (take n (drop p (values c)))
    (with_indexes c (<[id := p + n]> (indexes c)), w).
Proof. apply copy_cached_Yields. Qed.
End CopyReads.

Section CopyPasses.
Context {G W : Type} (step : nat → G * W → option (IteratorResult * (G * W))).
Hypothesis Hmono : monotone step.
Implicit Types (c : Copy G) (w : W).

Lemma copy_read_fresh g w v g1 w1 vs idx id :
  Returns step (g, w) (yielded v) (g1, w1) →
  idx !! id = Some (length vs) →
  Returns (copy_step step id) (reading g vs idx, w) (yielded v)
    (reading g1 (vs ++ [v]) (<[id := S (length vs)]> idx), w1).
Proof.
  intros [fuel H] Hid. exists (S (S fuel)).
  apply (Hmono fuel (S (S fuel))) in H; [|lia].
  unfold copy_step, iterator_next. simpl. rewrite Hid. simpl.
  rewrite bool_decide_true by lia. unfold pull, ts_take. simpl.
  rewrite H. simpl. rewrite length_app. simpl.
  rewrite bool_decide_false by lia.
  unfold array_at. rewrite lookup_app_r by lia.
  by rewrite Nat.sub_diag.
Qed.

Lemma copy_read_end g w r g1 w1 vs idx id :
  Returns step (g, w) r (g1, w1) → done r = true → value r = VUndefined →
  idx !! id = Some (length vs) →
  Returns (copy_step step id) (reading g vs idx, w)
    {| value := VUndefined; done := true |}
    (copy_of_all g1 vs (<[id := S (length vs)]> idx), w1).
Proof.
  intros [fuel H] Hd Hv Hid. exists (S (S fuel)).
  apply (Hmono fuel (S (S fuel))) in H; [|lia].
  unfold copy_step, iterator_next. simpl. rewrite Hid. simpl.
  rewrite bool_decide_true by lia. unfold pull, ts_take. simpl.
  rewrite H. simpl. rewrite Hd, Hv. simpl. rewrite length_app. simpl.
  rewrite bool_decide_false by lia.
  unfold array_at. rewrite lookup_app_r by lia. rewrite Nat.sub_diag. simpl.
  unfold beyond. rewrite bool_decide_true by lia. done.
Qed.

Lemma copy_fresh_Yields g w vs g1 w1 pre idx id :
  Yields step (g, w) vs (g1, w1) →
  idx !! id = Some (length pre) →
  Yields (copy_step step id) (reading g pre idx, w) vs
    (reading g1 (pre ++ vs) (<[id := length pre + length vs]> idx), w1).
Proof.
  intros H. remember (g, w) as x eqn:Hx. remember (g1, w1) as y eqn:Hy.
  revert g w pre idx Hx. induction H as [?|[g0 w0] v [g2 w2] vs ? Hv _ IH];
    intros g3 w3 pre idx ? Hid; simplify_eq.
  - rewrite app_nil_r, Nat.add_0_r, list_insert_id by done. constructor.
  - econstructor; [by apply copy_read_fresh|].
    assert (Hlt : id < length idx) by (by eapply lookup_lt_Some).
    specialize (IH eq_refl g2 w2 (pre ++ [v])
                  (<[id := S (length pre)]> idx) eq_refl).
    rewrite length_app, list_insert_insert_eq, <-app_assoc in IH. simpl in IH.
    replace (length pre + length (v :: vs))
      with (length pre + 1 + length vs) by (simpl; lia).
    apply IH. rewrite list_lookup_insert_eq by done. f_equal. lia.
Qed.

Lemma copy_first_Drains (g : G) w vs r g' w' :
  Drains step (g, w) vs r (g', w') → value r = VUndefined →
  Drains (copy_step step 0) ((iterator (copy g)).1, w) vs
    {| value := VUndefined; done := true |}
    (copy_of_all g' vs [S (length vs)], w').
Proof.
  intros ([g1 w1] & Hy & Hr & Hd) Hv.
  pose proof (copy_fresh_Yields _ _ _ _ _ [] [0] 0 Hy eq_refl) as Hc.
  pose proof (copy_read_end _ _ _ _ _ vs [length vs] 0 Hr Hd Hv eq_refl) as He.
  eexists. split_and!; [exact Hc|exact He|done].
Qed.

Lemma copy_replay_Drains (g : G) w vs idx :
  Drains (copy_step step (iterator (copy_of_all g vs idx)).2)
    ((iterator (copy_of_all g vs idx)).1, w) vs
    {| value := VUndefined; done := true |}
    (copy_of_all g vs (idx ++ [S (length vs)]), w).
Proof.
  set (c := (iterator (copy_of_all g vs idx)).1).
  assert (Hwf : copy_wf c).
  { unfold copy_wf. simpl. exists (length vs). rewrite length_app. simpl.
    split; [done|lia]. }
  assert (Hid : indexes c !! length idx = Some 0)
    by (simpl; by rewrite lookup_app_r, Nat.sub_diag by lia).
  assert (Hcached : cached c = length vs)
    by (unfold cached; simpl; rewrite length_app; simpl; lia).
  pose proof (copy_cached_Yields step (length vs) c w (length idx) 0 Hwf Hid
                ltac:(lia)) as Hy.
  unfold c in Hy at 2. cbn [iterator fst values copy_of_all] in Hy.
  rewrite drop_0, take_app_length in Hy.
  exists (with_indexes c (<[length idx := length vs]> (indexes c)), w).
  split_and!; [exact Hy| |done].
  exists 1.
  rewrite (copy_read_cached step 0 _ w (length idx) (length vs)).
  - simpl. unfold array_at. rewrite lookup_app_r by lia.
    rewrite Nat.sub_diag. simpl. unfold beyond.
    rewrite bool_decide_true by lia.
    rewrite list_insert_insert_eq.
    replace (<[length idx := S (length vs)]> (idx ++ [0]))
      with (idx ++ [S (length vs)]); [done|].
    rewrite insert_app_r_alt by lia. by rewrite Nat.sub_diag.
  - simpl. apply list_lookup_insert_eq. rewrite length_app. simpl. lia.
  - simpl. rewrite length_app. simpl. lia.
Qed.

(** X12. The first reading of a [copy].  When the underlying sequence
    yields [vs] and then is done (with no value), the first iterator of
    [copy(sequence)] yields [vs] and then is done; the underlying sequence
    has then been read to its end and no further, and [values] holds
    [vs] and the [undefined] pushed when the end was seen. *)
Theorem copy_first_iteration (g : G) w vs r g' w' :
  Drains step (g, w) vs r (g', w') → value r = VUndefined →
  Drains (copy_step step 0) ((iterator (copy g)).1, w) vs
    {| value := VUndefined; done := true |}
    (copy_of_all g' vs [S (length vs)], w').
Proof. apply copy_first_Drains. Qed.

(** X13. Every later reading of a [copy] replays the first.  Once the
    underlying sequence has been read to its end, a new iterator of the
    copy yields the same values [vs] in the same order and then is done;
    the copy changes only by the read position of that iterator. *)
Theorem copy_replays (g : G) w vs idx :
  Drains (copy_step step (iterator (copy_of_all g vs idx)).2)
    ((iterator (copy_of_all g vs idx)).1, w) vs
    {| value := VUndefined; done := true |}
    (copy_of_all g vs (idx ++ [S (length vs)]), w).
Proof. apply copy_replay_Drains. Qed.
(** X22. [copy] reads its sequence with [take(iterable, 1)], and [take]
    of src/index.ts pushes the value of a [done] result that is not
    [undefined].  So when the underlying sequence ends with such a value,
    the iterator of the copy yields it as one more value of the sequence,
    and the copy does not record that the sequence has ended. *)
Theorem copy_yields_a_defined_return_value g w r g1 w1 vs idx id :
  Returns step (g, w) r (g1, w1) → done r = true →
  defined (value r) = true →
  idx !! id = Some (length vs) →
  Returns (copy_step step id) (reading g vs idx, w) (yielded (value r))
    (reading g1 (vs ++ [value r]) (<[id := S (length vs)]> idx), w1).
Proof.
  intros [fuel H] Hd Hv Hid. exists (S (S fuel)).
  apply (Hmono fuel (S (S fuel))) in H; [|lia].
  unfold copy_step, iterator_next. simpl. rewrite Hid. simpl.
  rewrite bool_decide_true by lia. unfold pull, ts_take. simpl.
  rewrite H. simpl. rewrite Hd, Hv. simpl. rewrite length_app. simpl.
  rewrite bool_decide_false by lia.
  unfold array_at. rewrite lookup_app_r by lia.
  by rewrite Nat.sub_diag.
Qed.
(** C4 at the failing input, and at every other.  Whatever finite
    sequence it is given (one that yields [vs] and then is done with no
    value), the first iterator of [copy(sequence)] yields [vs] and then
    returns a [done] result; the call of [next] after that one does not
    return.  The iterator's read
    position is then [values.length], [done] is set, and the loop
    [while (values.length <= index) { if (!done) { ... } }] of
    [getIteratorResultAtIndex] goes round without pushing anything. *)
Theorem copy_iterator_hangs_after_done (g : G) w vs r g' w' :
  Drains step (g, w) vs r (g', w') → value r = VUndefined →
  Drains (copy_step step 0) ((iterator (copy g)).1, w) vs
    {| value := VUndefined; done := true |}
    (copy_of_all g' vs [S (length vs)], w') ∧
  ∀ fuel,
    copy_step step 0 fuel (copy_of_all g' vs [S (length vs)], w') = None.
Proof.
  intros Hd Hv. split; [by eapply copy_first_Drains|].
  intros fuel. unfold copy_step, iterator_next. simpl.
  apply getIteratorResultAtIndex_spins; [done|].
  simpl. rewrite length_app. simpl. lia.
Qed.
End CopyPasses.

(** ** Any number of iterations over one [copy], in any order *)

Lemma max_list_snoc_0 (idx : list nat) : max_list (idx ++ [0]) = max_list idx.
Proof. induction idx as [|p idx IH]; simpl; [done|]. by rewrite IH. Qed.

Lemma max_list_insert (idx : list nat) id p q :
  idx !! id = Some p → p ≤ q →
  max_list (<[id := q]> idx) = q `max` max_list idx.
Proof.
  revert id. induction idx as [|x idx IH]; intros id Hid Hpq; [done|].
  destruct id as [|id]; simplify_eq/=; [lia|].
  rewrite (IH id) by done. lia.
Qed.

Lemma max_list_lookup_le (idx : list nat) id p :
  idx !! id = Some p → p ≤ max_list idx.
Proof. intros H. apply max_list_elem_of_le. by eapply list_elem_of_lookup_2. Qed.

Lemma calls_snoc {St : Type} (next : St → option (IteratorResult * St))
    k s rs s1 r s' :
  calls next k s = Some (rs, s1) → next s1 = Some (r, s') →
  calls next (S k) s = Some (rs ++ [r], s').
Proof.
  revert s rs. induction k as [|k IH]; intros s rs Hc Hn.
  - simpl in Hc. simplify_eq. simpl. by rewrite Hn.
  - simpl in Hc. bind_inv Hc. destruct x as [r0 s0]. simpl in Hc.
    bind_inv Hc. destruct x as [rs0 s2]. simpl in Hc. simplify_eq.
    pose proof (IH _ _ E0 Hn) as H. simpl in H.
    simpl. rewrite E. simpl. by rewrite H.
Qed.

Section CopyRunsFacts.
Context {G W : Type} (step : nat → G * W → option (IteratorResult * (G * W))).
Hypothesis Hmono : monotone step.
Implicit Types (c : Copy G) (w : W) (idx : list nat).

Lemma copy_call_returns g w0 vs r g' w' idx id p s :
  Drains step (g, w0) vs r (g', w') → value r = VUndefined →
  copy_read_to step g w0 vs g' w' idx s →
  idx !! id = Some p → p ≤ length vs →
  ∃ s1,
    Returns (copy_step step id) s
      {| value := array_at vs p; done := bool_decide (length vs ≤ p) |} s1 ∧
    copy_read_to step g w0 vs g' w' (advance id idx) s1.
Proof.
  intros ([gn wn] & Hy & Hr & Hd) Hv Hs Hid Hp.
  pose proof (max_list_lookup_le _ _ _ Hid) as Hmax.
  unfold advance. rewrite Hid.
  unfold copy_read_to in *. cbv zeta in *.
  rewrite (max_list_insert idx id p (S p)) by (done || lia).
  destruct s as [c w]. simpl in Hs.
  case_bool_decide as Hk.
  - destruct Hs as (g_k & Hyk & ->).
    set (k := max_list idx) in *.
    destruct (decide (p < k)) as [Hlt|Hge].
    + (* the position is cached *)
      rewrite (bool_decide_true (_ `max` _ ≤ _)) by lia.
      rewrite (bool_decide_false (length vs ≤ p)) by lia.
      rewrite Nat.max_r by lia.
      exists (reading g_k (take k vs) (<[id := S p]> idx), w). split.
      * exists 1.
        rewrite (copy_read_cached step 0 _ w id p);
          [|done|simpl; rewrite length_take; lia].
        simpl. unfold array_at. by rewrite lookup_take_lt by lia.
      * exists g_k. done.
    + assert (p = k) as -> by lia.
      rewrite Nat.max_l by lia.
      rewrite <-(take_drop k vs) in Hy.
      apply (Yields_app_inv step) in Hy as (s1 & Hy1 & Hy2).
      destruct (Yields_det _ Hmono _ _ _ _ _ Hyk Hy1 eq_refl) as [_ <-].
      destruct (decide (k < length vs)) as [Hin|Hend].
      * (* one more value is pulled *)
        rewrite (bool_decide_true (S k ≤ length vs)) by lia.
        rewrite (bool_decide_false (length vs ≤ k)) by lia.
        destruct (lookup_lt_is_Some_2 vs k Hin) as [v Hvk].
        rewrite (drop_S _ _ _ Hvk) in Hy2.
        inversion Hy2 as [|? ? [g1 w1] ? ? Hret Hrest]; simplify_eq.
        exists (reading g1 (take (S k) vs) (<[id := S k]> idx), w1). split.
        -- pose proof (copy_read_fresh step Hmono _ _ _ _ _ (take k vs) idx id
                         Hret) as Hf.
           rewrite length_take, Nat.min_l in Hf by lia.
           specialize (Hf Hid).
           rewrite (take_S_r _ _ _ Hvk).
           unfold array_at. rewrite Hvk. exact Hf.
        -- exists g1. split; [|done]. simpl.
           rewrite (take_S_r _ _ _ Hvk). by eapply Yields_snoc.
      * (* the end is found *)
        assert (k = length vs) as Hkn by lia.
        rewrite (bool_decide_false (S k ≤ length vs)) by lia.
        rewrite (bool_decide_true (length vs ≤ k)) by lia.
        rewrite drop_ge in Hy2 by lia. inversion Hy2; simplify_eq.
        rewrite Hkn. rewrite (take_ge vs (length vs)) in * by lia.
        exists (copy_of_all g' vs (<[id := S (length vs)]> idx), w').
        split; [|done].
        pose proof (copy_read_end step Hmono _ _ _ _ _ vs idx id Hr Hd Hv) as He.
        rewrite <-Hkn in He at 1. specialize (He Hid).
        unfold array_at. rewrite lookup_ge_None_2 by lia. exact He.
  - (* the sequence has been read to its end *)
    simplify_eq. rewrite (bool_decide_false (_ `max` _ ≤ _)) by lia.
    exists (copy_of_all g' vs (<[id := S p]> idx), w'). split; [|done].
    exists 1.
    rewrite (copy_read_cached step 0 _ w' id p);
      [|done|simpl; rewrite length_app; simpl; lia].
    assert (Hval : default VUndefined ((vs ++ [VUndefined]) !! p)
                   = default VUndefined (vs !! p)).
    { destruct (decide (p < length vs)).
      - by rewrite lookup_app_l by lia.
      - rewrite lookup_app_r by lia. rewrite (lookup_ge_None_2 vs) by lia.
        by replace (p - length vs) with 0 by lia. }
    assert (Hdone : bool_decide (Z.of_nat (length vs) - 1 < Z.of_nat p)%Z
                    = bool_decide (length vs ≤ p))
      by (apply bool_decide_ext; lia).
    simpl. unfold array_at. by rewrite Hval, Hdone.
Qed.

Lemma copy_new_iterator g w0 vs g' w' idx c w :
  copy_read_to step g w0 vs g' w' idx (c, w) →
  copy_read_to step g w0 vs g' w' (idx ++ [0]) ((iterator c).1, w).
Proof.
  unfold copy_read_to. cbv zeta. rewrite max_list_snoc_0. simpl.
  case_bool_decide.
  - intros (g_k & Hy & ->). by exists g_k.
  - intros ?. by simplify_eq.
Qed.

Lemma copy_runs_replay g w0 vs r g' w' actions idx s :
  Drains step (g, w0) vs r (g', w') → value r = VUndefined →
  copy_read_to step g w0 vs g' w' idx s →
  in_turn (length vs) idx actions = true →
  ∃ s', CopyRuns step actions s (replayed vs idx actions) s' ∧
        copy_read_to step g w0 vs g' w' (positions idx actions) s'.
Proof.
  intros Hd Hv. revert idx s.
  induction actions as [|[|id] actions IH]; intros idx s Hs Hin; simpl in *.
  - exists s. split; [constructor|done].
  - destruct s as [c w].
    destruct (IH _ _ (copy_new_iterator _ _ _ _ _ _ _ _ Hs) Hin)
      as (s' & Hrun & Hs').
    exists s'. split; [by constructor|done].
  - destruct (idx !! id) as [p|] eqn:Hid; [|done].
    apply andb_true_iff in Hin as [Hp Hin]. apply bool_decide_eq_true in Hp.
    destruct (copy_call_returns _ _ _ _ _ _ _ _ _ _ Hd Hv Hs Hid Hp)
      as (s1 & Hret & Hs1).
    destruct (IH _ _ Hs1 Hin) as (s' & Hrun & Hs').
    exists s'. split; [|done]. simpl. by econstructor.
Qed.

Lemma Drains_calls (s : G * W) vs r s' :
  Drains step s vs r s' →
  ∃ fuel, calls (step fuel) (S (length vs)) s
            = Some ((yielded <$> vs) ++ [r], s').
Proof.
  intros (s1 & Hy & Hr & _).
  destruct (Yields_calls _ Hmono _ _ _ Hy) as (f1 & H1).
  destruct (Returns_from _ Hmono _ _ _ Hr) as (f2 & H2).
  exists (f1 `max` f2). eapply calls_snoc; [apply H1|apply H2]; lia.
Qed.

(** C3, as the code has it.  Take a sequence that yields the values [vs]
    and then is done with no value, and any number of iterators of one
    [copy] of it, handed out and called in any order, none of them called
    again after its [done] result.  Every call returns; the iterator at
    position [p] is given [vs[p]], so that each iterator sees the values
    of the sequence in their order, and [done] after the last; and the
    underlying sequence has been asked for exactly as many values as the
    furthest iterator has read: a position that is cached is read without
    a call of the underlying [next].  When an iterator has seen the end,
    the underlying sequence is where [length vs + 1] calls of its [next]
    leave it, one for each value and one that found the end, and no
    further. *)
Theorem copy_iterations_replay (g : G) w vs r g' w' actions :
  Drains step (g, w) vs r (g', w') → value r = VUndefined →
  in_turn (length vs) [] actions = true →
  (∃ s', CopyRuns step actions (copy g, w) (replayed vs [] actions) s' ∧
         copy_read_to step g w vs g' w' (positions [] actions) s') ∧
  ∃ fuel, calls (step fuel) (S (length vs)) (g, w)
            = Some ((yielded <$> vs) ++ [r], (g', w')).
Proof.
  intros Hd Hv Hin. split; [|by apply Drains_calls].
  eapply copy_runs_replay; [done..| |done].
  unfold copy_read_to. simpl. exists g. split; [constructor|done].
Qed.
End CopyRunsFacts.

(** ** [combine] of src/index.ts, later revision (on a [copy]) *)
Section CombineLazy.
Context {W : Type}.
Implicit Types (A B it : @Ts.genobj W) (w : W).

Lemma ts_combine1_yield it w v it' w' :
  Returns Ts.step (it, w) (yielded v) (it', w') →
  Returns Ts.step (Ts.Combine1 it, w) (yielded (VArr [v])) (Ts.Combine1 it', w').
Proof.
  intros [fuel H]. exists (S fuel). unfold Ts.step in *. simpl in *.
  by rewrite H.
Qed.

Lemma ts_combine1_done it w r it' w' :
  Returns Ts.step (it, w) r (it', w') → done r = true →
  Returns Ts.step (Ts.Combine1 it, w) Ts.finished (Ts.Completed, w').
Proof.
  intros [fuel H] Hd. exists (S fuel). unfold Ts.step in *. simpl in *.
  rewrite H. simpl. by rewrite Hd.
Qed.

Lemma ts_combine1_Yields it w vs it' w' :
  Yields Ts.step (it, w) vs (it', w') →
  Yields Ts.step (Ts.Combine1 it, w) ((λ v, VArr [v]) <$> vs)
    (Ts.Combine1 it', w').
Proof.
  intros H. remember (it, w) as x eqn:Hx. remember (it', w') as y eqn:Hy.
  revert it w Hx. induction H as [?|[g0 w0] v [g1 w1] vs ? Hr _ IH];
    intros g2 w2 ?; simplify_eq.
  - constructor.
  - simpl. econstructor; [by apply ts_combine1_yield|]. by apply IH.
Qed.

Lemma ts_combine_one_start it w r x :
  Returns Ts.step (Ts.Combine1 it, w) r x →
  Returns Ts.step (Ts.Combine [it], w) r x.
Proof. intros [fuel H]. by exists (S fuel). Qed.

Lemma Yields_first {St : Type} (step : nat → St → option (IteratorResult * St))
    (a b : St) vs s' :
  (∀ r x, Returns step a r x → Returns step b r x) → vs ≠ [] →
  Yields step a vs s' → Yields step b vs s'.
Proof.
  intros Hab Hvs H. inversion H; simplify_eq. econstructor; [|done].
  by apply Hab.
Qed.

Lemma ts_combine_loop_yield heads (tails tails' : Copy (@Ts.genobj W))
    a id w t w' :
  Returns (copy_step Ts.step id) (tails, w) (yielded t) (tails', w') →
  Returns Ts.step (Ts.CombineLoop heads tails (Some (a, id)), w)
    (yielded (cons_tuple a t)) (Ts.CombineLoop heads tails' (Some (a, id)), w').
Proof.
  intros [fuel H]. exists (S fuel). unfold copy_step in H. simpl in H.
  unfold Ts.step. cbn [Ts.next fst snd].
  change (λ s : Ts.genobj * W, Ts.next fuel s.1 s.2)
    with (Ts.step (W:=W) fuel). by rewrite H.
Qed.

Lemma ts_combine_loop_Yields heads (tails tails' : Copy (@Ts.genobj W))
    a id w ts w' :
  Yields (copy_step Ts.step id) (tails, w) ts (tails', w') →
  Yields Ts.step (Ts.CombineLoop heads tails (Some (a, id)), w)
    (cons_tuple a <$> ts) (Ts.CombineLoop heads tails' (Some (a, id)), w').
Proof.
  intros H. remember (tails, w) as x eqn:Hx. remember (tails', w') as y eqn:Hy.
  revert tails w Hx. induction H as [?|[g0 w0] v [g1 w1] vs ? Hr _ IH];
    intros g2 w2 ?; simplify_eq.
  - constructor.
  - simpl. econstructor; [by apply ts_combine_loop_yield|]. by apply IH.
Qed.

Lemma ts_combine_start A rest B w a A' w1 r x :
  Returns Ts.step (A, w) (yielded a) (A', w1) →
  Returns Ts.step
    (Ts.CombineLoop A' (reading (Ts.Combine (B :: rest)) [] [0]) (Some (a, 0)),
     w1) r x →
  Returns Ts.step (Ts.Combine (A :: B :: rest), w) r x.
Proof.
  intros [f1 H1] [f2 H2]. exists (S (S (f1 `max` f2))).
  unfold Ts.step in *. simpl in *.
  rewrite (ts_next_mono f1 (f1 `max` f2) _ _ _ ltac:(lia) H1). simpl.
  by apply (ts_next_mono f2 (f1 `max` f2) _ _ _ ltac:(lia) H2).
Qed.

Lemma ts_combine_lazy_Yields A B w a A' w1 b bs B' w2 :
  Returns Ts.step (A, w) (yielded a) (A', w1) →
  Yields Ts.step (B, w1) (b :: bs) (B', w2) →
  Yields Ts.step (Ts.combine [A; B], w) ((λ x, VArr [a; x]) <$> (b :: bs))
    (Ts.CombineLoop A'
       (reading (Ts.Combine1 B') ((λ x, VArr [x]) <$> (b :: bs))
          [length (b :: bs)])
       (Some (a, 0)), w2).
Proof.
  intros HA HB.
  assert (HB' : Yields Ts.step (Ts.Combine [B], w1)
                  ((λ x, VArr [x]) <$> (b :: bs)) (Ts.Combine1 B', w2)).
  { eapply Yields_first;
      [intros r x; apply ts_combine_one_start|done|].
    by apply ts_combine1_Yields. }
  pose proof (copy_fresh_Yields Ts.step ts_step_monotone _ _ _ _ _ [] [0] 0
                HB' eq_refl) as Hc.
  rewrite length_fmap in Hc.
  apply (ts_combine_loop_Yields A' _ _ a) in Hc.
  rewrite <-list_fmap_compose in Hc.
  eapply Yields_first;
    [intros r x; by apply ts_combine_start|done|].
  exact Hc.
Qed.

Lemma ts_combine_lazy_take A B w a A' w1 bs B' w2 :
  Returns Ts.step (A, w) (yielded a) (A', w1) →
  Yields Ts.step (B, w1) bs (B', w2) →
  ∃ fuel s', Ts.take fuel (Ts.combine [A; B], w) (Z.of_nat (length bs))
               = Some ((λ x, VArr [a; x]) <$> bs, s').
Proof.
  intros HA HB. destruct bs as [|b bs]; [by exists 0; eexists|].
  pose proof (ts_combine_lazy_Yields _ _ _ _ _ _ _ _ _ _ HA HB) as Hy.
  destruct (ts_take_loop_Yields _ ts_step_monotone _ _ _ Hy) as (fuel & H).
  exists fuel. eexists. unfold Ts.take, ts_take.
  rewrite Nat2Z.id. rewrite <-(length_fmap (λ x, VArr [a; x])). by apply H.
Qed.

(** X14. [combine] of the later src/index.ts is lazy in both of two
    inputs.  When the first input yields a value [a] and the second
    yields [bs] (it may go on for ever), [combine([A, B])] yields the
    tuples [[a, b]] for [b] in [bs], in order; by then it has asked [A]
    for one value and [B] for as many values as it has yielded, and it
    keeps those in the [values] of its [copy].  So [take] of any count
    returns on two sequences that never end. *)
Theorem ts_combine_is_lazy A B w a A' w1 b bs B' w2 :
  Returns Ts.step (A, w) (yielded a) (A', w1) →
  Yields Ts.step (B, w1) (b :: bs) (B', w2) →
  Yields Ts.step (Ts.combine [A; B], w) ((λ x, VArr [a; x]) <$> (b :: bs))
    (Ts.CombineLoop A'
       (reading (Ts.Combine1 B') ((λ x, VArr [x]) <$> (b :: bs))
          [length (b :: bs)])
       (Some (a, 0)), w2) ∧
  ∃ fuel s', Ts.take fuel (Ts.combine [A; B], w) (Z.of_nat (length (b :: bs)))
               = Some ((λ x, VArr [a; x]) <$> (b :: bs), s').
Proof.
  intros HA HB. split.
  - by eapply ts_combine_lazy_Yields.
  - by eapply ts_combine_lazy_take.
Qed.

(** C2, as the code has it.  [combine] of the later src/index.ts on two
    sequences: when the first yields a value [a] and the second yields
    [bs], [take] of [length bs] tuples returns [[a, b]] for [b] in [bs],
    the first value staying fixed while the buffer of the second is
    filled one value at a time; so on a second sequence that never ends
    [take] of any count returns.  [combine] of lib/index.js reads its
    second generator to the end with [toArray] before it returns the
    combined generator: when that generator never ends, the call of
    [combine] itself does not return, and there is nothing to [take]
    from. *)
Theorem combine_of_two_infinite_sequences :
  (∀ A B w a A' w1 bs B' w2,
     Returns Ts.step (A, w) (yielded a) (A', w1) →
     Yields Ts.step (B, w1) bs (B', w2) →
     ∃ fuel s', Ts.take fuel (Ts.combine [A; B], w) (Z.of_nat (length bs))
                  = Some ((λ x, VArr [a; x]) <$> bs, s')) ∧
  (∀ A B w a A' w1,
     Returns Ts.step (A, w) (yielded a) (A', w1) →
     Infinite Ts.step (B, w1) →
     ∀ count : Z, ∃ fuel bs s',
       length bs = Z.to_nat count ∧
       Ts.take fuel (Ts.combine [A; B], w) count
         = Some ((λ x, VArr [a; x]) <$> bs, s')) ∧
  (∀ (left_ right_ : @Lib.gen W) w,
     Infinite Lib.step (right_, w) →
     ∀ fuel, Lib.combine fuel [left_; right_] w = None).
Proof.
  split_and!.
  - intros A B w a A' w1 bs B' w2. apply ts_combine_lazy_take.
  - intros A B w a A' w1 HA Hinf count.
    destruct (Hinf (Z.to_nat count)) as (bs & [B' w2] & Hlen & Hy).
    destruct (ts_combine_lazy_take _ _ _ _ _ _ _ _ _ HA Hy) as (fuel & s' & H).
    exists fuel, bs, s'. split; [done|].
    unfold Ts.take, ts_take in *. by rewrite Nat2Z.id, Hlen in H.
  - intros left_ right_ w Hinf fuel. simpl. unfold Lib.combine2.
    by rewrite (toArray_Infinite _ lib_step_monotone _ _ _ Hinf).
Qed.
End CombineLazy.

Lemma ts_combine_is_lazy_witness :
  Returns Ts.step (Ts.naturalNumbers, tt) (yielded (VNum 0))
    (Ts.NaturalNumbers 1, tt) ∧
  Yields Ts.step (Ts.naturalNumbers, tt) [VNum 0; VNum 1; VNum 2]
    (Ts.NaturalNumbers 3, tt) ∧
  ∃ fuel s', Ts.take fuel (Ts.combine [Ts.naturalNumbers; Ts.naturalNumbers], tt) 3
               = Some ([VArr [VNum 0; VNum 0]; VArr [VNum 0; VNum 1];
                        VArr [VNum 0; VNum 2]], s').
Proof.
  assert (HA : Returns Ts.step (Ts.naturalNumbers, tt) (yielded (VNum 0))
                 (Ts.NaturalNumbers 1, tt)) by (by exists 1).
  assert (HB : Yields Ts.step (Ts.naturalNumbers (W:=unit), tt)
                 [VNum 0; VNum 1; VNum 2] (Ts.NaturalNumbers 3, tt))
    by (apply (ts_naturalNumbers_Yields 3 0 tt); exact_bounds).
  split_and!; [exact HA|exact HB|].
  exact (proj2 (ts_combine_is_lazy _ _ _ _ _ _ _ _ _ _ HA HB)).
Defined.

Lemma combine_of_two_infinite_sequences_witness :
  (Returns Ts.step (Ts.naturalNumbers, tt) (yielded (VNum 0))
     (Ts.NaturalNumbers 1, tt) ∧
   Yields Ts.step (Ts.naturalNumbers, tt) [VNum 0; VNum 1; VNum 2]
     (Ts.NaturalNumbers 3, tt) ∧
   ∃ fuel s',
     Ts.take fuel (Ts.combine [Ts.naturalNumbers; Ts.naturalNumbers], tt) 3
       = Some ([VArr [VNum 0; VNum 0]; VArr [VNum 0; VNum 1];
                VArr [VNum 0; VNum 2]], s')) ∧
  (Infinite Ts.step (Ts.naturalNumbers, tt) ∧
   ∃ fuel bs s',
     length bs = 5 ∧
     Ts.take fuel (Ts.combine [Ts.naturalNumbers; Ts.naturalNumbers], tt) 5
       = Some ((λ x, VArr [VNum 0; x]) <$> bs, s')) ∧
  (Infinite Lib.step (Lib.naturalNumbers, tt) ∧
   ∀ fuel, Lib.combine fuel [Lib.range 0 1; Lib.naturalNumbers] tt = None).
Proof.
  assert (HA : Returns Ts.step (Ts.naturalNumbers, tt) (yielded (VNum 0))
                 (Ts.NaturalNumbers 1, tt)) by (by exists 1).
  assert (HB : Yields Ts.step (Ts.naturalNumbers (W:=unit), tt)
                 [VNum 0; VNum 1; VNum 2] (Ts.NaturalNumbers 3, tt))
    by (apply (ts_naturalNumbers_Yields 3 0 tt); exact_bounds).
  assert (HT : Infinite Ts.step (Ts.naturalNumbers (W:=unit), tt))
    by apply ts_naturalNumbers_Infinite.
  assert (HL : Infinite Lib.step (Lib.naturalNumbers (W:=unit), tt))
    by apply lib_naturalNumbers_Infinite.
  split; [|split].
  - split; [exact HA|]. split; [exact HB|].
    exact (proj1 (@combine_of_two_infinite_sequences unit)
             _ _ _ _ _ _ _ _ _ HA HB).
  - split; [exact HT|].
    exact (proj1 (proj2 (@combine_of_two_infinite_sequences unit))
             _ _ _ _ _ _ HA HT 5%Z).
  - split; [exact HL|].
    exact (proj2 (proj2 (@combine_of_two_infinite_sequences unit))
             (Lib.range 0 1) _ _ HL).
Defined.

(** C2 fails for [combine] of lib/index.js: on the natural numbers with
    themselves, [combine] does not return, whatever the fuel, so that no
    [take] is ever reached. *)
Lemma lib_combine_of_naturals_never_returns :
  Infinite Lib.step (Lib.naturalNumbers, tt) ∧
  ∀ fuel, Lib.combine fuel [Lib.naturalNumbers; Lib.naturalNumbers] tt = None.
Proof.
  split; [apply lib_naturalNumbers_Infinite|].
  intros fuel. simpl. unfold Lib.combine2.
  by rewrite (toArray_Infinite _ lib_step_monotone _ _ _
                (lib_naturalNumbers_Infinite 0 tt)).
Qed.

(** ** [combine] of src/index.ts, first revision (on [Array.from]) *)
Section CombineArrays.
Context {W : Type}.
Implicit Types (it : @Ts.genobj W) (w : W) (hv tc : list val).

Lemma ts_loop_row hv tc i v w (n : nat) j :
  n = length tc - j →
  Yields Ts.step (Ts.CombineArraysLoop hv tc i (Some (v, j)), w)
    (cons_tuple v <$> drop j tc)
    (Ts.CombineArraysLoop hv tc i (Some (v, j + n)), w).
Proof.
  revert j. induction n as [|n IH]; intros j Hn.
  - rewrite drop_ge by lia. rewrite Nat.add_0_r. constructor.
  - rewrite array_at_drop by lia. rewrite fmap_cons. econstructor.
    + exists 1. unfold Ts.step. simpl. by rewrite bool_decide_true by lia.
    + replace (j + S n) with (S j + n) by lia. apply IH. lia.
Qed.

Lemma ts_loop_row_end hv tc i v w r x :
  Returns Ts.step (Ts.CombineArraysLoop hv tc i None, w) r x →
  Returns Ts.step (Ts.CombineArraysLoop hv tc i (Some (v, length tc)), w) r x.
Proof.
  intros [fuel H]. exists (S fuel). unfold Ts.step in *. simpl in *.
  by rewrite bool_decide_false by lia.
Qed.

Lemma ts_loop_row_start hv tc i w r x :
  i < length hv →
  Returns Ts.step
    (Ts.CombineArraysLoop hv tc (S i) (Some (array_at hv i, 0)), w) r x →
  Returns Ts.step (Ts.CombineArraysLoop hv tc i None, w) r x.
Proof.
  intros Hi [fuel H]. exists (S fuel). unfold Ts.step in *. simpl in *.
  by rewrite bool_decide_true by lia.
Qed.

Lemma ts_loop_Drains hv tc (n : nat) i w :
  n = length hv - i →
  Drains Ts.step (Ts.CombineArraysLoop hv tc i None, w)
    (drop i hv ≫= λ v, cons_tuple v <$> tc) Ts.finished (Ts.Completed, w).
Proof.
  revert i. induction n as [|n IH]; intros i Hn.
  - rewrite drop_ge by lia. apply Drains_nil; [|done].
    exists 1. unfold Ts.step. simpl. by rewrite bool_decide_false by lia.
  - rewrite array_at_drop by lia. csimpl.
    eapply Drains_first;
      [intros r x; apply ts_loop_row_start; lia|].
    eapply Drains_app.
    + pose proof (ts_loop_row hv tc (S i) (array_at hv i) w _ 0 eq_refl) as Hrow.
      rewrite drop_0 in Hrow. exact Hrow.
    + eapply Drains_first; [|apply (IH (S i)); lia].
      intros r x H. simpl. rewrite Nat.sub_0_r. by apply ts_loop_row_end.
Qed.

Lemma ts_combine1_Drains it w vs r it' w' :
  Drains Ts.step (it, w) vs r (it', w') →
  Drains Ts.step (Ts.Combine1 it, w) ((λ v, VArr [v]) <$> vs) Ts.finished
    (Ts.Completed, w').
Proof.
  intros ([it1 w1] & Hy & Hr & Hd). exists (Ts.Combine1 it1, w1).
  split_and!; [by apply ts_combine1_Yields|by eapply ts_combine1_done|done].
Qed.

Lemma ts_combine_arrays_one it w r x :
  Returns Ts.step (Ts.Combine1 it, w) r x →
  Returns Ts.step (Ts.CombineArrays [it], w) r x.
Proof. intros [fuel H]. by exists (S fuel). Qed.

Lemma ts_combine_arrays_start it it2 rest w hv s1 w1 tc s2 w2 r x :
  (∃ fuel, ∀ f1 f2, fuel ≤ f1 → fuel ≤ f2 →
     toArray (Ts.step f1) f2 (it, w) = Some (hv, (s1, w1))) →
  (∃ fuel, ∀ f1 f2, fuel ≤ f1 → fuel ≤ f2 →
     toArray (Ts.step f1) f2 (Ts.CombineArrays (it2 :: rest), w1)
       = Some (tc, (s2, w2))) →
  Returns Ts.step (Ts.CombineArraysLoop hv tc 0 None, w2) r x →
  Returns Ts.step (Ts.CombineArrays (it :: it2 :: rest), w) r x.
Proof.
  intros [fa Ha] [fb Hb] [fc Hc].
  exists (S ((fa `max` fb) `max` fc)). unfold Ts.step at 1. simpl.
  change (λ s : Ts.genobj * W, Ts.next ((fa `max` fb) `max` fc) s.1 s.2)
    with (Ts.step (W:=W) ((fa `max` fb) `max` fc)).
  rewrite Ha by lia. simpl. rewrite Hb by lia. simpl.
  by apply (ts_next_mono fc ((fa `max` fb) `max` fc) _ _ _ ltac:(lia) Hc).
Qed.

Lemma bind_cons_tuple v tc :
  (tc ≫= λ t, [cons_tuple v t]) = (cons_tuple v <$> tc).
Proof. induction tc as [|t tc IH]; [done|]. csimpl. by rewrite IH. Qed.

Lemma bind_bind_cons_tuple vs tc :
  (vs ≫= λ v, tc ≫= λ t, [cons_tuple v t]) = (vs ≫= λ v, cons_tuple v <$> tc).
Proof.
  induction vs as [|v vs IH]; [done|]. csimpl.
  rewrite bind_cons_tuple. by f_equal.
Qed.

Lemma tuples_cons vs vs2 vss :
  tuples (vs :: vs2 :: vss)
  = (vs ≫= λ v, cons_tuple v <$> tuples (vs2 :: vss)).
Proof.
  change (tuples (vs :: vs2 :: vss))
    with (vs ≫= λ v, tuples (vs2 :: vss) ≫= λ t, [cons_tuple v t]).
  apply bind_bind_cons_tuple.
Qed.

Lemma ts_combine_arrays_Drains (gs : list (@Ts.genobj W)) w vss w' :
  DrainsAll Ts.step gs w vss w' →
  Drains Ts.step (Ts.CombineArrays gs, w) (tuples vss) Ts.finished
    (Ts.Completed, w').
Proof.
  induction 1 as [w|g gs w vs r g' w1 vss w2 Hg Hgs IH].
  - apply Drains_nil; [by exists 1|done].
  - destruct Hgs as [w1|g2 gs w1 vs2 r2 g2' w1' vss w2 Hg2 Hgs].
    + eapply Drains_first; [intros r0 x; apply ts_combine_arrays_one|].
      by eapply ts_combine1_Drains.
    + rewrite tuples_cons.
      eapply Drains_first; [|apply (ts_loop_Drains vs _ _ 0 w2 eq_refl)].
      intros r0 x. eapply ts_combine_arrays_start.
      * by apply (toArray_Drains _ ts_step_monotone _ _ r).
      * by apply (toArray_Drains _ ts_step_monotone _ _ Ts.finished).
Qed.

(** X15. [combine] of the first src/index.ts yields the whole cross
    product: when its inputs, read one after the other, give the lists of
    values [vss], it yields exactly the tuples with one value of each, the
    first input as the outermost loop and the last as the innermost, and
    then is done; values that are falsy are tuples like any other. *)
Theorem ts_combine_arrays_cross_product (gs : list (@Ts.genobj W)) w vss w' :
  DrainsAll Ts.step gs w vss w' →
  Drains Ts.step (Ts.combine_arrays gs, w) (tuples vss) Ts.finished
    (Ts.Completed, w') ∧
  ∃ fuel, toArray (Ts.step fuel) fuel (Ts.combine_arrays gs, w)
            = Some (tuples vss, (Ts.Completed, w')).
Proof.
  intros H. apply ts_combine_arrays_Drains in H. split; [done|].
  destruct (toArray_Drains _ ts_step_monotone _ _ _ _ H) as (fuel & Hf).
  exists fuel. by apply Hf.
Qed.

(** X16. [combine] of the first src/index.ts reads its first input with
    [Array.from] at the first call of [next]: given two inputs or more,
    when the first one never ends, that call does not return. *)
Theorem ts_combine_arrays_never_returns_on_infinite_head
    (head it2 : @Ts.genobj W) rest w :
  Infinite Ts.step (head, w) →
  ∀ fuel, Ts.step fuel (Ts.combine_arrays (head :: it2 :: rest), w) = None.
Proof.
  intros Hinf [|fuel]; [done|]. unfold Ts.step. simpl.
  change (λ s : Ts.genobj * W, Ts.next fuel s.1 s.2) with (Ts.step (W:=W) fuel).
  by rewrite (toArray_Infinite _ ts_step_monotone _ _ _ Hinf).
Qed.
End CombineArrays.

(** ** [concat] of several sequences *)
Section ConcatMany.
Context {W : Type}.
Implicit Types (w : W).

Lemma drop_lookup_cons {A} (l : list A) n x k :
  drop n l = x :: k → l !! n = Some x ∧ drop (S n) l = k.
Proof.
  intros H. assert (Hx : l !! n = Some x).
  { pose proof (lookup_drop l n 0) as E. rewrite H, Nat.add_0_r in E. done. }
  split; [done|]. rewrite (drop_S _ _ _ Hx) in H. by simplify_eq.
Qed.

(** *** lib/index.js *)

Lemma lib_concat_yield (gens : list (@Lib.gen W)) offset g w v g' w' :
  gens !! offset = Some g →
  Returns Lib.step (g, w) (yielded v) (g', w') →
  Returns Lib.step (Lib.Concat gens offset, w) (yielded v)
    (Lib.Concat (<[offset := g']> gens) offset, w').
Proof.
  intros Hg [fuel H]. exists (S fuel). unfold Lib.step in *. simpl in *.
  apply lookup_lt_Some in Hg as Hlt.
  rewrite bool_decide_false by lia. rewrite Hg. simpl. by rewrite H.
Qed.

Lemma lib_concat_Yields (gens : list (@Lib.gen W)) offset g w vs g' w' :
  gens !! offset = Some g →
  Yields Lib.step (g, w) vs (g', w') →
  Yields Lib.step (Lib.Concat gens offset, w) vs
    (Lib.Concat (<[offset := g']> gens) offset, w').
Proof.
  intros Hg H. remember (g, w) as x eqn:Hx. remember (g', w') as y eqn:Hy.
  revert gens g w Hg Hx.
  induction H as [?|[g0 w0] v [g1 w1] vs ? Hr _ IH]; intros gens g w Hg ?;
    simplify_eq.
  - rewrite list_insert_id by done. constructor.
  - apply lookup_lt_Some in Hg as Hlt. econstructor.
    + by eapply lib_concat_yield.
    + rewrite <-(list_insert_insert_eq gens offset g' g1).
      apply (IH eq_refl _ g1 w1); [|done]. by apply list_lookup_insert_eq.
Qed.

Lemma lib_concat_done (gens : list (@Lib.gen W)) offset g w r g' w' r0 x :
  gens !! offset = Some g →
  Returns Lib.step (g, w) r (g', w') → done r = true →
  Returns Lib.step (Lib.Concat (<[offset := g']> gens) (S offset), w') r0 x →
  Returns Lib.step (Lib.Concat gens offset, w) r0 x.
Proof.
  intros Hg [f1 H1] Hd [f2 H2]. exists (S (f1 `max` f2)).
  unfold Lib.step in *. simpl in *.
  apply lookup_lt_Some in Hg as Hlt.
  rewrite bool_decide_false by lia. rewrite Hg. simpl.
  rewrite (lib_next_mono f1 (f1 `max` f2) _ _ _ ltac:(lia) H1). simpl.
  rewrite Hd.
  by apply (lib_next_mono f2 (f1 `max` f2) _ _ _ ltac:(lia) H2).
Qed.

Lemma lib_concat_Drains (gens : list (@Lib.gen W)) offset w vss w' :
  DrainsAll Lib.step (drop offset gens) w vss w' →
  ∃ g', Drains Lib.step (Lib.Concat gens offset, w) (mjoin vss) Lib.exhausted
          (g', w').
Proof.
  intros H. remember (drop offset gens) as l eqn:Hl. revert gens offset Hl.
  induction H as [w|g gs w vs r g' w1 vss w2 Hg Hgs IH]; intros gens offset Hl.
  - symmetry in Hl. apply drop_nil_inv in Hl. eexists. apply Drains_nil; [|done].
    exists 1. unfold Lib.step. simpl. by rewrite bool_decide_true by lia.
  - symmetry in Hl. apply drop_lookup_cons in Hl as [Hx Hrest].
    destruct Hg as ([g1 w1'] & Hy & Hr & Hd).
    destruct (IH (<[offset := g']> gens) (S offset)) as [g'' Hrec].
    { rewrite drop_insert_lt by lia. done. }
    exists g''. simpl. eapply Drains_app; [by apply (lib_concat_Yields _ _ g)|].
    eapply Drains_first; [|exact Hrec].
    intros r0 x Hx0. eapply (lib_concat_done _ offset g1); [| |done|].
    + apply lookup_lt_Some in Hx. by apply list_lookup_insert_eq.
    + exact Hr.
    + by rewrite list_insert_insert_eq.
Qed.

(** X17. [concat] of lib/index.js yields the values of its generators one
    generator after the other: when the generators, read in this order,
    give the lists of values [vss], the concatenation yields these lists
    joined and then is done. *)
Theorem lib_concat_yields_each_in_turn (gs : list (@Lib.gen W)) w vss w' :
  DrainsAll Lib.step gs w vss w' →
  ∃ r g', Drains Lib.step (Lib.concat gs, w) (mjoin vss) r (g', w').
Proof.
  intros H. destruct gs as [|g [|g2 gs]].
  - inversion H; simplify_eq. exists Lib.exhausted, Lib.Exhausted.
    apply Drains_nil; [by exists 1|done].
  - inversion H as [|? ? ? vs r g' w1 ? ? Hg Hnil]; simplify_eq.
    inversion Hnil; simplify_eq. exists r, g'. simpl.
    by rewrite app_nil_r.
  - exists Lib.exhausted. apply (lib_concat_Drains (g :: g2 :: gs) 0).
    by rewrite drop_0.
Qed.

(** *** src/index.ts *)

Lemma ts_concat_next_iterable (its : list (@Ts.genobj W)) position it w r x :
  its !! position = Some it →
  Returns Ts.step (Ts.Concat its (S position) (Some it), w) r x →
  Returns Ts.step (Ts.Concat its position None, w) r x.
Proof.
  intros Hit [fuel H]. exists (S fuel). unfold Ts.step in *. simpl.
  apply lookup_lt_Some in Hit as Hlt.
  rewrite bool_decide_true by lia. rewrite Hit. done.
Qed.

Lemma ts_concat_inner_end (its : list (@Ts.genobj W)) position it w r it' w'
    r0 x :
  Returns Ts.step (it, w) r (it', w') → done r = true →
  Returns Ts.step (Ts.Concat its position None, w') r0 x →
  Returns Ts.step (Ts.Concat its position (Some it), w) r0 x.
Proof.
  intros [f1 H1] Hd [f2 H2]. exists (S (f1 `max` f2)).
  unfold Ts.step in *. simpl in *.
  rewrite (ts_next_mono f1 (f1 `max` f2) _ _ _ ltac:(lia) H1). simpl.
  rewrite Hd.
  by apply (ts_next_mono f2 (f1 `max` f2) _ _ _ ltac:(lia) H2).
Qed.

Lemma ts_concat_Drains (its : list (@Ts.genobj W)) position w vss w' :
  DrainsAll Ts.step (drop position its) w vss w' →
  Drains Ts.step (Ts.Concat its position None, w) (mjoin vss) Ts.finished
    (Ts.Completed, w').
Proof.
  intros H. remember (drop position its) as l eqn:Hl. revert position Hl.
  induction H as [w|g gs w vs r g' w1 vss w2 Hg Hgs IH]; intros position Hl.
  - symmetry in Hl. apply drop_nil_inv in Hl. apply Drains_nil; [|done].
    exists 1. unfold Ts.step. simpl. by rewrite bool_decide_false by lia.
  - symmetry in Hl. apply drop_lookup_cons in Hl as [Hx Hrest].
    destruct Hg as ([g1 w1'] & Hy & Hr & Hd).
    eapply Drains_first; [intros r0 x; by apply ts_concat_next_iterable|].
    simpl. eapply Drains_app; [by apply ts_concat_Yields_inner|].
    eapply Drains_first; [|by apply (IH (S position))].
    intros r0 x. by eapply ts_concat_inner_end.
Qed.

(** X18. [concat] of src/index.ts yields the values of its iterables one
    iterable after the other: when the iterables, read in this order, give
    the lists of values [vss], the concatenation yields these lists joined
    and then is done with [undefined]. *)
Theorem ts_concat_yields_each_in_turn (its : list (@Ts.genobj W)) w vss w' :
  DrainsAll Ts.step its w vss w' →
  Drains Ts.step (Ts.concat its, w) (mjoin vss) Ts.finished (Ts.Completed, w').
Proof. intros H. apply ts_concat_Drains. by rewrite drop_0. Qed.

(** X19. [concat] reads its first sequence alone while that one has
    values: what the first sequence yields is yielded by the
    concatenation with the same effects, and the later sequences are left
    as they were given; so a first sequence that never ends makes a
    concatenation that never ends. *)
Theorem concat_reads_the_first_alone :
  (∀ (g g2 : @Lib.gen W) rest w vs g' w',
     Yields Lib.step (g, w) vs (g', w') →
     Yields Lib.step (Lib.concat (g :: g2 :: rest), w) vs
       (Lib.Concat (g' :: g2 :: rest) 0, w')) ∧
  (∀ (it : @Ts.genobj W) rest w v vs it' w',
     Yields Ts.step (it, w) (v :: vs) (it', w') →
     Yields Ts.step (Ts.concat (it :: rest), w) (v :: vs)
       (Ts.Concat (it :: rest) 1 (Some it'), w')) ∧
  (∀ (g g2 : @Lib.gen W) rest w,
     Infinite Lib.step (g, w) →
     Infinite Lib.step (Lib.concat (g :: g2 :: rest), w)) ∧
  (∀ (it : @Ts.genobj W) rest w,
     Infinite Ts.step (it, w) → Infinite Ts.step (Ts.concat (it :: rest), w)).
Proof.
  assert (Hlib : ∀ (g g2 : @Lib.gen W) rest w vs g' w',
            Yields Lib.step (g, w) vs (g', w') →
            Yields Lib.step (Lib.concat (g :: g2 :: rest), w) vs
              (Lib.Concat (g' :: g2 :: rest) 0, w')).
  { intros g g2 rest w vs g' w' H.
    by apply (lib_concat_Yields (g :: g2 :: rest) 0 g). }
  assert (Hts : ∀ (it : @Ts.genobj W) rest w vs it' w',
            vs ≠ [] →
            Yields Ts.step (it, w) vs (it', w') →
            Yields Ts.step (Ts.concat (it :: rest), w) vs
              (Ts.Concat (it :: rest) 1 (Some it'), w')).
  { intros it rest w vs it' w' Hvs H.
    eapply Yields_first;
      [intros r x; by apply (ts_concat_next_iterable (it :: rest) 0 it)|done|].
    by apply ts_concat_Yields_inner. }
  split_and!.
  - exact Hlib.
  - intros it rest w v vs it' w' H. by apply Hts.
  - intros g g2 rest w Hinf n. destruct (Hinf n) as (vs & [g' w'] & Hlen & Hy).
    exists vs. eexists. split; [done|]. by apply Hlib.
  - intros it rest w Hinf [|n].
    + exists []. eexists. split; [done|]. constructor.
    + destruct (Hinf (S n)) as (vs & [it' w'] & Hlen & Hy).
      exists vs. eexists. split; [done|]. apply Hts; [|done].
      by destruct vs.
Qed.
End ConcatMany.

(** ** The whole cross product of the lazy [combine] *)
Section CombineCross.
Context {W : Type}.
Implicit Types (A B it : @Ts.genobj W) (w : W).

Lemma copy_step_monotone id : monotone (copy_step (Ts.step (W:=W)) id).
Proof.
  intros fuel fuel' [c w] r Hle H. unfold copy_step in *.
  eapply iterator_next_mono; [|exact Hle|exact H].
  intros s r0 H0. by eapply ts_step_monotone.
Qed.

Lemma ts_combine_loop_row_end heads (tails tails' : Copy (@Ts.genobj W))
    a id w r w' r0 x :
  Returns (copy_step Ts.step id) (tails, w) r (tails', w') → done r = true →
  Returns Ts.step (Ts.CombineLoop heads tails' None, w') r0 x →
  Returns Ts.step (Ts.CombineLoop heads tails (Some (a, id)), w) r0 x.
Proof.
  intros [f1 H1] Hd [f2 H2]. exists (S (f1 `max` f2)).
  apply (copy_step_monotone id f1 (f1 `max` f2)) in H1; [|lia].
  unfold copy_step in H1. simpl in H1.
  unfold Ts.step in H2. unfold Ts.step. cbn [Ts.next fst snd].
  change (λ s : Ts.genobj * W, Ts.next (f1 `max` f2) s.1 s.2)
    with (Ts.step (W:=W) (f1 `max` f2)).
  rewrite H1. simpl. rewrite Hd.
  by apply (ts_next_mono f2 (f1 `max` f2) _ _ _ ltac:(lia) H2).
Qed.

Lemma ts_combine_loop_head heads (tails : Copy (@Ts.genobj W)) w a heads' w'
    r0 x :
  Returns Ts.step (heads, w) (yielded a) (heads', w') →
  Returns Ts.step
    (Ts.CombineLoop heads' (iterator tails).1 (Some (a, (iterator tails).2)),
     w') r0 x →
  Returns Ts.step (Ts.CombineLoop heads tails None, w) r0 x.
Proof.
  intros [f1 H1] [f2 H2]. exists (S (f1 `max` f2)).
  unfold Ts.step in *. simpl in *.
  rewrite (ts_next_mono f1 (f1 `max` f2) _ _ _ ltac:(lia) H1). simpl.
  by apply (ts_next_mono f2 (f1 `max` f2) _ _ _ ltac:(lia) H2).
Qed.

Lemma ts_combine_loop_head_done heads (tails : Copy (@Ts.genobj W)) w r
    heads' w' :
  Returns Ts.step (heads, w) r (heads', w') → done r = true →
  Returns Ts.step (Ts.CombineLoop heads tails None, w) Ts.finished
    (Ts.Completed, w').
Proof.
  intros [fuel H] Hd. exists (S fuel). unfold Ts.step in *. simpl in *.
  rewrite H. simpl. by rewrite Hd.
Qed.

Lemma ts_combine_loop_row heads (tails tails' : Copy (@Ts.genobj W)) a id w
    ts r w' vs r0 x :
  Drains (copy_step Ts.step id) (tails, w) ts r (tails', w') →
  Drains Ts.step (Ts.CombineLoop heads tails' None, w') vs r0 x →
  Drains Ts.step (Ts.CombineLoop heads tails (Some (a, id)), w)
    ((cons_tuple a <$> ts) ++ vs) r0 x.
Proof.
  intros ([c1 w1] & Hy & Hr & Hd) Hrest.
  eapply Drains_app; [by apply ts_combine_loop_Yields|].
  eapply Drains_first; [|exact Hrest].
  intros r1 x1. by eapply ts_combine_loop_row_end.
Qed.

Lemma ts_combine_loop_replays heads w vs r heads' w' T tc idx :
  Drains Ts.step (heads, w) vs r (heads', w') →
  Drains Ts.step (Ts.CombineLoop heads (copy_of_all T tc idx) None, w)
    (vs ≫= λ v, cons_tuple v <$> tc) Ts.finished (Ts.Completed, w').
Proof.
  intros ([h1 w1] & Hy & Hr & Hd).
  remember (heads, w) as x eqn:Hx. remember (h1, w1) as y eqn:Hy'.
  revert heads w idx Hx.
  induction Hy as [?|[g0 w0] v [g1 w2] vs ? Hv _ IH]; intros heads w idx ?;
    simplify_eq.
  - apply Drains_nil; [|done]. by eapply ts_combine_loop_head_done.
  - csimpl. eapply Drains_first;
      [intros r0 x; by apply ts_combine_loop_head|].
    eapply ts_combine_loop_row;
      [apply (copy_replay_Drains Ts.step)|by apply IH].
Qed.

Lemma ts_combine_empty_head A B rest w r A' w' :
  Drains Ts.step (A, w) [] r (A', w') →
  Drains Ts.step (Ts.Combine (A :: B :: rest), w) [] Ts.finished
    (Ts.Completed, w').
Proof.
  intros (s0 & Hy & Hr & Hd). inversion Hy; simplify_eq.
  apply Drains_nil; [|done].
  destruct (ts_combine_loop_head_done A (copy (Ts.Combine (B :: rest)))
              _ _ _ _ Hr Hd) as [fuel H].
  by exists (S fuel).
Qed.

Lemma ts_combine_cross_step A B rest w a A1 w1 tc T' w2 vs r A' w3 :
  Returns Ts.step (A, w) (yielded a) (A1, w1) →
  Drains Ts.step (Ts.Combine (B :: rest), w1) tc Ts.finished (T', w2) →
  Drains Ts.step (A1, w2) vs r (A', w3) →
  Drains Ts.step (Ts.Combine (A :: B :: rest), w)
    ((a :: vs) ≫= λ v, cons_tuple v <$> tc) Ts.finished (Ts.Completed, w3).
Proof.
  intros Ha Htc Hvs. csimpl.
  eapply Drains_first; [intros r0 x; by apply ts_combine_start|].
  eapply ts_combine_loop_row.
  - by apply (copy_first_Drains Ts.step ts_step_monotone _ _ _ _ _ _ Htc).
  - by eapply ts_combine_loop_replays.
Qed.

Lemma CombineReads_nonempty (g : @Ts.genobj W) gs w vss w' :
  CombineReads Ts.step (g :: gs) w vss w' → ∃ vs vss', vss = vs :: vss'.
Proof. inversion 1; simplify_eq; eauto. Qed.

(** X20. [combine] of the later src/index.ts yields the whole cross
    product of sequences that end.  It reads them in this order: one value
    of the first sequence; then, if there was one, the remaining sequences
    in the same way, each of them once; then the rest of the first.  When
    the sequences so read give the lists of values [vss], it yields the
    tuples with one value of each, the first sequence as the outermost
    loop, and then is done; falsy values are combined like any other. *)
Theorem ts_combine_cross_product (gs : list (@Ts.genobj W)) w vss w' :
  CombineReads Ts.step gs w vss w' →
  Drains Ts.step (Ts.combine gs, w) (tuples vss) Ts.finished (Ts.Completed, w').
Proof.
  unfold Ts.combine.
  induction 1 as [w|g w vs r g' w' Hg|g g2 rest w r g' w' vss Hg
                  |g g2 rest w a g1 w1 vss w2 vs r g' w3 Ha Hrest IH Hvs].
  - apply Drains_nil; [by exists 1|done].
  - eapply Drains_first; [intros r0 x; apply ts_combine_one_start|].
    by eapply ts_combine1_Drains.
  - replace (tuples ([] :: vss)) with (@nil val) by (by destruct vss).
    by eapply ts_combine_empty_head.
  - destruct (CombineReads_nonempty _ _ _ _ _ Hrest) as (vs2 & vss' & ->).
    rewrite tuples_cons. by eapply ts_combine_cross_step.
Qed.
End CombineCross.

(** ** [combine] of lib/index.js on any number of generators *)
Section CombineMany.
Context {W : Type}.
Implicit Types (g : @Lib.gen W) (w : W).

Lemma lib_map_Drains g w vs r g' w' transformer :
  Drains Lib.step (g, w) vs r (g', w') →
  Drains Lib.step (Lib.Map g transformer, w) (transformer <$> vs) r
    (Lib.Map g' transformer, w').
Proof.
  intros ([g1 w1] & Hy & Hr & Hd). exists (Lib.Map g1 transformer, w1).
  split_and!; [by apply lib_map_Yields|by apply lib_map_done|done].
Qed.

Lemma tuples_arrays vss : Forall (λ t, ∃ items, t = VArr items) (tuples vss).
Proof.
  induction vss as [|vs [|vs2 rest] IH].
  - constructor.
  - simpl. apply Forall_fmap, Forall_true. intros v. by eexists.
  - rewrite tuples_cons. apply Forall_bind, Forall_true. intros v.
    apply Forall_fmap. eapply Forall_impl; [exact IH|].
    intros t [items ->]. by eexists.
Qed.

Lemma tuples_truthy vss : truthy_prefix (tuples vss) = tuples vss.
Proof.
  apply truthy_prefix_all. eapply Forall_impl; [apply tuples_arrays|].
  by intros t [items ->].
Qed.

Lemma pairs_flattened vs tc :
  Forall (λ t, ∃ items, t = VArr items) tc →
  (λ headAndTail, cons_tuple (item headAndTail 0) (item headAndTail 1))
    <$> pairs vs tc
  = (vs ≫= λ v, cons_tuple v <$> tc).
Proof.
  intros Htc. unfold pairs. induction vs as [|v vs IH]; [done|]. csimpl.
  rewrite fmap_app, IH. f_equal. rewrite <-list_fmap_compose.
  by apply list_fmap_ext.
Qed.

Lemma truncate_last_cons vs vs2 rest :
  truncate_last (vs :: vs2 :: rest) = vs :: truncate_last (vs2 :: rest).
Proof. done. Qed.

Lemma truncate_last_cons_inv vs2 rest :
  ∃ x y, truncate_last (vs2 :: rest) = x :: y.
Proof. destruct rest; simpl; eauto. Qed.

Lemma lib_combine_many_Drains g g2 (gs : list (@Lib.gen W)) w vss w' :
  DrainsBackwards Lib.step (g :: g2 :: gs) w vss w' →
  ∃ fuel0 gen w1 r gen',
    (∀ fuel, fuel0 ≤ fuel →
       Lib.combine fuel (g :: g2 :: gs) w = Some (gen, w1)) ∧
    Drains Lib.step (gen, w1) (tuples (truncate_last vss)) r (gen', w').
Proof.
  revert g g2 w vss w'.
  induction gs as [|g3 gs IH]; intros g g2 w vss w' H.
  - inversion H as [|? ? ? vss1 w1 vs r g' ? H1 Hg]; simplify_eq.
    inversion H1 as [|? ? ? vss2 w0 rs rr g2' ? H2 Hg2]; simplify_eq.
    inversion H2; simplify_eq.
    destruct (toArray_Drains _ lib_step_monotone _ _ _ _ Hg2) as (fuel0 & Hf).
    exists fuel0, (Lib.Combine2 g rs None 0), w1, r,
      (Lib.Combine2 g' rs (Some r) 0). split.
    + intros fuel Hle. simpl. unfold Lib.combine2. by rewrite Hf.
    + change (truncate_last [vs; rs]) with [vs; truthy_prefix rs].
      rewrite <-pairs_tuples. by apply lib_combine2_Drains.
  - inversion H as [|? ? ? vss1 wb vs r g' ? H1 Hg]; simplify_eq.
    destruct (IH _ _ _ _ _ H1) as (f1 & inner & wa & r' & inner' & Hc & Hd).
    destruct (toArray_Drains _ lib_step_monotone _ _ _ _ Hd) as (f2 & Hf).
    set (tc := tuples (truncate_last vss1)) in *.
    set (f := λ headAndTail : val,
                cons_tuple (item headAndTail 0) (item headAndTail 1)).
    assert (Htc : tuples (truncate_last (vs :: vss1)) = f <$> pairs vs tc).
    { inversion H1 as [|? ? ? vss2 ? vs2 ? ? ? _ _]; simplify_eq.
      rewrite truncate_last_cons.
      destruct (truncate_last_cons_inv vs2 vss2) as (x & y & Hxy).
      unfold f. rewrite pairs_flattened by apply tuples_arrays.
      unfold tc. rewrite Hxy. apply tuples_cons. }
    exists (f1 `max` f2), (Lib.Map (Lib.Combine2 g tc None 0) f), wb, r,
      (Lib.Map (Lib.Combine2 g' tc (Some r) 0) f). split.
    + intros fuel Hle.
      change (Lib.combine fuel (g :: g2 :: g3 :: gs) w)
        with ('(inner, w) ← Lib.combine fuel (g2 :: g3 :: gs) w;
              '(pairs, w) ← Lib.combine2 fuel g inner w;
              Some (Lib.Map pairs f, w)).
      rewrite Hc by lia. simpl. unfold Lib.combine2.
      rewrite Hf by lia. done.
    + rewrite Htc. apply lib_map_Drains.
      replace (pairs vs tc) with (pairs vs (truthy_prefix tc))
        by (unfold tc; by rewrite tuples_truthy).
      by apply lib_combine2_Drains.
Qed.

Lemma truncate_last_all vss :
  (∀ vs, last vss = Some vs → Forall (λ x, truthy x = true) vs) →
  truncate_last vss = vss.
Proof.
  induction vss as [|vs [|vs2 rest] IH]; intros H; [done| |].
  - simpl. rewrite truthy_prefix_all; [done|]. by apply H.
  - rewrite truncate_last_cons, IH; [done|]. intros vs' Hl. by apply H.
Qed.

(** X21. [combine] of lib/index.js on any number of generators.  It reads
    all generators but the first when it is called, from the last to the
    first, and the first while the combined generator is read.  With two
    generators or more it yields the tuples over the values read, the
    last generator's values cut before the first falsy one: the tuples
    made of the other generators' values are arrays, and pass the test
    [if (nextRight)] whatever they hold.  When the last generator has
    truthy values only, this is the whole cross product. *)
Theorem lib_combine_of_many (gs : list (@Lib.gen W)) w vss w' :
  DrainsBackwards Lib.step gs w vss w' →
  (∃ fuel gen w1 r gen',
     Lib.combine fuel gs w = Some (gen, w1) ∧
     Drains Lib.step (gen, w1) (lib_combine_values vss) r (gen', w')) ∧
  ((∀ vs, last vss = Some vs → Forall (λ x, truthy x = true) vs) →
   lib_combine_values vss = tuples vss).
Proof.
  intros H. split.
  - destruct gs as [|g [|g2 gs]].
    + inversion H; simplify_eq. exists 0, Lib.Exhausted, w', Lib.exhausted.
      eexists. split; [done|]. apply Drains_nil; [by exists 1|done].
    + inversion H as [|? ? ? vss1 w1 vs r g' ? H1 Hg]; simplify_eq.
      inversion H1; simplify_eq.
      exists 0, (Lib.Map g (λ value, VArr [value])), w1, r. eexists.
      split; [done|]. by apply lib_map_Drains.
    + destruct (lib_combine_many_Drains _ _ _ _ _ _ H)
        as (fuel0 & gen & w1 & r & gen' & Hc & Hd).
      exists fuel0, gen, w1, r, gen'. split; [by apply Hc|].
      inversion H as [|? ? ? vss1 ? vs ? ? ? H1 _]; simplify_eq.
      inversion H1; simplify_eq. exact Hd.
  - intros Hall. unfold lib_combine_values.
    destruct vss as [|vs [|vs2 rest]]; [done..|].
    by rewrite truncate_last_all.
Qed.
End CombineMany.

(** ** The theorems above at concrete inputs *)

Lemma filter_never_returns_when_nothing_passes_witness :
  Infinite Lib.step (Lib.naturalNumbers, tt) ∧
  ∀ fuel, Lib.step fuel (Lib.filter Lib.naturalNumbers reject_all, tt) = None.
Proof.
  assert (H : Infinite Lib.step (Lib.naturalNumbers (W:=unit), tt))
    by apply lib_naturalNumbers_Infinite.
  split; [exact H|].
  apply (proj1 (filter_never_returns_when_nothing_passes reject_all) _ _ H).
  intros vs s' _. by apply Forall_true.
Defined.

Lemma exhaustion_is_idempotent_witness :
  (library_made (Lib.map (Lib.fromArray (W:=unit) []) double) = true ∧
   Returns Lib.step (Lib.map (Lib.fromArray []) double, tt) Lib.exhausted
     (Lib.map (Lib.fromArray []) double, tt) ∧
   ∃ fuel, calls (Lib.step fuel) 3 (Lib.map (Lib.fromArray []) double, tt)
             = Some (replicate 3 Lib.exhausted,
                     (Lib.map (Lib.fromArray []) double, tt))) ∧
  (generator_function_made (Ts.map (Ts.fromArray (W:=unit) []) double) = true ∧
   Returns Ts.step (Ts.map (Ts.fromArray []) double, tt) Ts.finished
     (Ts.Completed, tt) ∧
   ∀ (w2 : unit) k fuel,
     calls (Ts.step (S fuel)) k (Ts.Completed, w2)
       = Some (replicate k Ts.finished, (Ts.Completed, w2))).
Proof.
  assert (Hl : Returns Lib.step (Lib.map (Lib.fromArray (W:=unit) []) double, tt)
                 Lib.exhausted (Lib.map (Lib.fromArray []) double, tt))
    by (by exists 2).
  assert (Ht : Returns Ts.step (Ts.map (Ts.fromArray (W:=unit) []) double, tt)
                 Ts.finished (Ts.Completed, tt)) by (by exists 2).
  split.
  - split_and!; [done|exact Hl|].
    exact (proj1 (@exhaustion_is_idempotent unit)
             (Lib.map (Lib.fromArray []) double) tt Lib.exhausted
             (Lib.map (Lib.fromArray []) double) tt eq_refl Hl eq_refl 3).
  - split_and!; [done|exact Ht|].
    exact (proj2 (proj2 (proj2 (@exhaustion_is_idempotent unit)
                           (Ts.map (Ts.fromArray []) double) tt
                           Ts.finished Ts.Completed tt eq_refl Ht eq_refl))).
Defined.

Lemma lib_combine_of_two_witness :
  Drains Lib.step (Lib.fromArray [VNum 3; VNum 0; VNum 4], tt)
    [VNum 3; VNum 0; VNum 4] Lib.exhausted
    (Lib.FromArray [VNum 3; VNum 0; VNum 4] 3, tt) ∧
  Drains Lib.step (Lib.fromArray [VNum 1; VNum 2], tt) [VNum 1; VNum 2]
    Lib.exhausted (Lib.FromArray [VNum 1; VNum 2] 2, tt) ∧
  ∃ fuel g,
    Lib.combine fuel [Lib.fromArray [VNum 1; VNum 2];
                      Lib.fromArray [VNum 3; VNum 0; VNum 4]] tt
      = Some (g, tt) ∧
    Drains Lib.step (g, tt) [VArr [VNum 1; VNum 3]; VArr [VNum 2; VNum 3]]
      Lib.exhausted
      (Lib.Combine2 (Lib.FromArray [VNum 1; VNum 2] 2)
         [VNum 3; VNum 0; VNum 4] (Some Lib.exhausted) 0, tt).
Proof.
  assert (Hr : Drains Lib.step (Lib.fromArray [VNum 3; VNum 0; VNum 4], tt)
                 [VNum 3; VNum 0; VNum 4] Lib.exhausted
                 (Lib.FromArray [VNum 3; VNum 0; VNum 4] 3, tt))
    by apply (lib_fromArray_Drains [VNum 3; VNum 0; VNum 4] tt).
  assert (Hl : Drains Lib.step (Lib.fromArray [VNum 1; VNum 2], tt)
                 [VNum 1; VNum 2] Lib.exhausted
                 (Lib.FromArray [VNum 1; VNum 2] 2, tt))
    by apply (lib_fromArray_Drains [VNum 1; VNum 2] tt).
  split_and!; [exact Hr|exact Hl|].
  exact (proj1 (lib_combine_of_two _ _ _ _ _ _ _ _ _ _ _ Hr Hl)).
Defined.

Lemma lib_combine_never_returns_on_infinite_right_witness :
  Infinite Lib.step (Lib.naturalNumbers, tt) ∧
  ∀ fuel, Lib.combine fuel [Lib.range 0 1; Lib.naturalNumbers] tt = None.
Proof.
  assert (H : Infinite Lib.step (Lib.naturalNumbers (W:=unit), tt))
    by apply lib_naturalNumbers_Infinite.
  split; [exact H|].
  exact (lib_combine_never_returns_on_infinite_right (Lib.range 0 1) _ _ H).
Defined.

Lemma copy_next_after_done_never_returns_witness :
  iterator_next (Ts.step 5) 5 (iterator (copy (Ts.fromArray (W:=unit) []))).1
      tt 0
    = Some ({| value := VUndefined; done := true |},
            (copy_of_all Ts.Completed [] [1], tt)) ∧
  ∀ fuel', iterator_next (Ts.step 5) fuel'
             (copy_of_all (Ts.Completed (W:=unit)) [] [1]) tt 0 = None.
Proof.
  assert (H : iterator_next (Ts.step 5) 5
                (iterator (copy (Ts.fromArray (W:=unit) []))).1 tt 0
              = Some ({| value := VUndefined; done := true |},
                      (copy_of_all Ts.Completed [] [1], tt))) by reflexivity.
  split; [exact H|].
  exact (proj2 (proj2 (proj2
           (copy_next_after_done_never_returns (Ts.step 5) 5
              (iterator (copy (Ts.fromArray []))).1 tt 0 _ _ _
              (copy_wf_with_indexes _ _ (copy_wf_new _)) H eq_refl)))).
Defined.

Lemma copy_cached_reads_do_not_pull_witness :
  Yields (copy_step Ts.step 1)
    (reading (Ts.NaturalNumbers 3) [VNum 0; VNum 1; VNum 2] [3; 0], tt)
    [VNum 0; VNum 1]
    (reading (Ts.NaturalNumbers 3) [VNum 0; VNum 1; VNum 2] [3; 2], tt).
Proof.
  apply (copy_cached_reads_do_not_pull Ts.step 2
           (reading (Ts.NaturalNumbers 3) [VNum 0; VNum 1; VNum 2] [3; 0])
           tt 1 0).
  - reflexivity.
  - reflexivity.
  - unfold cached. simpl. lia.
Defined.

Lemma copy_first_iteration_witness :
  Drains Ts.step (Ts.range 0 2, tt) (VNum <$> seqZ 0 (2 - 0 + 1)) Ts.finished
    (Ts.Completed, tt) ∧
  Drains (copy_step Ts.step 0) ((iterator (copy (Ts.range 0 2))).1, tt)
    [VNum 0; VNum 1; VNum 2] {| value := VUndefined; done := true |}
    (copy_of_all Ts.Completed [VNum 0; VNum 1; VNum 2] [4], tt).
Proof.
  assert (H : Drains Ts.step (Ts.range 0 2, tt) (VNum <$> seqZ 0 (2 - 0 + 1))
                Ts.finished (Ts.Completed, tt))
    by (apply ts_range_Drains; exact_bounds).
  split; [exact H|].
  exact (copy_first_iteration Ts.step ts_step_monotone _ _ _ _ _ _ H eq_refl).
Defined.

Lemma copy_yields_a_defined_return_value_witness :
  Returns Ts.step (return_five, tt) {| value := VNum 5; done := true |}
    (return_five, tt) ∧
  Returns (copy_step Ts.step 0) ((iterator (copy return_five)).1, tt)
    (yielded (VNum 5)) (reading return_five [VNum 5] [1], tt).
Proof.
  assert (H : Returns Ts.step (return_five, tt)
                {| value := VNum 5; done := true |} (return_five, tt))
    by (by exists 1).
  split; [exact H|].
  exact (copy_yields_a_defined_return_value Ts.step ts_step_monotone _ _ _ _ _
           [] [0] 0 H eq_refl eq_refl eq_refl).
Defined.

Lemma ts_combine_arrays_cross_product_witness :
  DrainsAll Ts.step [Ts.range 0 1; Ts.range 4 5] tt
    [[VNum 0; VNum 1]; [VNum 4; VNum 5]] tt ∧
  ∃ fuel, toArray (Ts.step fuel) fuel
            (Ts.combine_arrays [Ts.range 0 1; Ts.range 4 5], tt)
          = Some ([VArr [VNum 0; VNum 4]; VArr [VNum 0; VNum 5];
                   VArr [VNum 1; VNum 4]; VArr [VNum 1; VNum 5]],
                  (Ts.Completed, tt)).
Proof.
  assert (H : DrainsAll Ts.step [Ts.range 0 1; Ts.range 4 5] tt
                [[VNum 0; VNum 1]; [VNum 4; VNum 5]] tt).
  { eapply DrainsAll_cons; [apply (ts_range_Drains 0 1 tt); exact_bounds|].
    eapply DrainsAll_cons; [apply (ts_range_Drains 4 5 tt); exact_bounds|].
    apply DrainsAll_nil. }
  split; [exact H|].
  exact (proj2 (ts_combine_arrays_cross_product _ _ _ _ H)).
Defined.

Lemma ts_combine_arrays_never_returns_on_infinite_head_witness :
  Infinite Ts.step (Ts.naturalNumbers, tt) ∧
  ∀ fuel, Ts.step fuel
            (Ts.combine_arrays [Ts.naturalNumbers; Ts.range 0 1], tt) = None.
Proof.
  assert (H : Infinite Ts.step (Ts.naturalNumbers (W:=unit), tt))
    by apply ts_naturalNumbers_Infinite.
  split; [exact H|].
  exact (ts_combine_arrays_never_returns_on_infinite_head _ (Ts.range 0 1) []
           _ H).
Defined.

Lemma lib_concat_yields_each_in_turn_witness :
  DrainsAll Lib.step
    [Lib.fromArray [VNum 1; VNum 2]; Lib.fromArray [];
     Lib.fromArray [VNum 3]] tt
    [[VNum 1; VNum 2]; []; [VNum 3]] tt ∧
  ∃ r g', Drains Lib.step
            (Lib.concat [Lib.fromArray [VNum 1; VNum 2]; Lib.fromArray [];
                         Lib.fromArray [VNum 3]], tt)
            [VNum 1; VNum 2; VNum 3] r (g', tt).
Proof.
  assert (H : DrainsAll Lib.step
                [Lib.fromArray [VNum 1; VNum 2]; Lib.fromArray [];
                 Lib.fromArray [VNum 3]] tt
                [[VNum 1; VNum 2]; []; [VNum 3]] tt).
  { eapply DrainsAll_cons; [apply (lib_fromArray_Drains _ tt)|].
    eapply DrainsAll_cons; [apply (lib_fromArray_Drains _ tt)|].
    eapply DrainsAll_cons; [apply (lib_fromArray_Drains _ tt)|].
    apply DrainsAll_nil. }
  split; [exact H|].
  exact (lib_concat_yields_each_in_turn _ _ _ _ H).
Defined.

Lemma ts_concat_yields_each_in_turn_witness :
  DrainsAll Ts.step
    [Ts.fromArray [VNum 1; VNum 2]; Ts.fromArray []; Ts.fromArray [VNum 3]] tt
    [[VNum 1; VNum 2]; []; [VNum 3]] tt ∧
  Drains Ts.step
    (Ts.concat [Ts.fromArray [VNum 1; VNum 2]; Ts.fromArray [];
                Ts.fromArray [VNum 3]], tt)
    [VNum 1; VNum 2; VNum 3] Ts.finished (Ts.Completed, tt).
Proof.
  assert (H : DrainsAll Ts.step
                [Ts.fromArray [VNum 1; VNum 2]; Ts.fromArray [];
                 Ts.fromArray [VNum 3]] tt
                [[VNum 1; VNum 2]; []; [VNum 3]] tt).
  { eapply DrainsAll_cons; [apply (ts_fromArray_Drains _ tt)|].
    eapply DrainsAll_cons; [apply (ts_fromArray_Drains _ tt)|].
    eapply DrainsAll_cons; [apply (ts_fromArray_Drains _ tt)|].
    apply DrainsAll_nil. }
  split; [exact H|].
  exact (ts_concat_yields_each_in_turn _ _ _ _ H).
Defined.

Lemma concat_reads_the_first_alone_witness :
  Yields Lib.step (Lib.naturalNumbers, tt) [VNum 0; VNum 1; VNum 2]
    (Lib.NaturalNumbers 3, tt) ∧
  Yields Lib.step (Lib.concat [Lib.naturalNumbers; Lib.range 7 9], tt)
    [VNum 0; VNum 1; VNum 2]
    (Lib.Concat [Lib.NaturalNumbers 3; Lib.range 7 9] 0, tt).
Proof.
  assert (H : Yields Lib.step (Lib.naturalNumbers (W:=unit), tt)
                [VNum 0; VNum 1; VNum 2] (Lib.NaturalNumbers 3, tt))
    by (apply (lib_naturalNumbers_Yields 3 0 tt); exact_bounds).
  split; [exact H|].
  exact (proj1 (@concat_reads_the_first_alone unit) _ (Lib.range 7 9) [] _ _ _
           _ H).
Defined.

Lemma ts_combine_cross_product_witness :
  CombineReads Ts.step [Ts.range 1 2; Ts.range 3 4] tt
    [[VNum 1; VNum 2]; [VNum 3; VNum 4]] tt ∧
  Drains Ts.step (Ts.combine [Ts.range 1 2; Ts.range 3 4], tt)
    [VArr [VNum 1; VNum 3]; VArr [VNum 1; VNum 4];
     VArr [VNum 2; VNum 3]; VArr [VNum 2; VNum 4]]
    Ts.finished (Ts.Completed, tt).
Proof.
  assert (H : CombineReads Ts.step [Ts.range 1 2; Ts.range 3 4] tt
                [[VNum 1; VNum 2]; [VNum 3; VNum 4]] tt).
  { eapply (CombineReads_cons _ _ _ _ _ _ (Ts.Range 2 2) tt _ tt).
    - by exists 1.
    - eapply CombineReads_one. apply (ts_range_Drains 3 4 tt). exact_bounds.
    - apply (ts_range_Drains 2 2 tt). exact_bounds. }
  split; [exact H|].
  exact (ts_combine_cross_product _ _ _ _ H).
Defined.

Lemma lib_combine_of_many_witness :
  DrainsBackwards Lib.step
    [Lib.fromArray [VNum 1]; Lib.fromArray [VNum 0; VNum 2];
     Lib.fromArray [VNum 3; VNum 0; VNum 4]] tt
    [[VNum 1]; [VNum 0; VNum 2]; [VNum 3; VNum 0; VNum 4]] tt ∧
  ∃ fuel gen w1 r gen',
    Lib.combine fuel
      [Lib.fromArray [VNum 1]; Lib.fromArray [VNum 0; VNum 2];
       Lib.fromArray [VNum 3; VNum 0; VNum 4]] tt = Some (gen, w1) ∧
    Drains Lib.step (gen, w1)
      [VArr [VNum 1; VNum 0; VNum 3]; VArr [VNum 1; VNum 2; VNum 3]]
      r (gen', tt).
Proof.
  assert (H : DrainsBackwards Lib.step
                [Lib.fromArray [VNum 1]; Lib.fromArray [VNum 0; VNum 2];
                 Lib.fromArray [VNum 3; VNum 0; VNum 4]] tt
                [[VNum 1]; [VNum 0; VNum 2]; [VNum 3; VNum 0; VNum 4]] tt).
  { eapply DrainsBackwards_cons; [|apply (lib_fromArray_Drains _ tt)].
    eapply DrainsBackwards_cons; [|apply (lib_fromArray_Drains _ tt)].
    eapply DrainsBackwards_cons; [|apply (lib_fromArray_Drains _ tt)].
    apply DrainsBackwards_nil. }
  split; [exact H|].
  exact (proj1 (lib_combine_of_many _ _ _ _ H)).
Defined.

Lemma copy_iterator_hangs_after_done_witness :
  Drains Ts.step (Ts.range 0 2, tt) (VNum <$> seqZ 0 (2 - 0 + 1)) Ts.finished
    (Ts.Completed, tt) ∧
  Drains (copy_step Ts.step 0) ((iterator (copy (Ts.range 0 2))).1, tt)
    [VNum 0; VNum 1; VNum 2] {| value := VUndefined; done := true |}
    (copy_of_all Ts.Completed [VNum 0; VNum 1; VNum 2] [4], tt) ∧
  ∀ fuel,
    copy_step Ts.step 0 fuel
      (copy_of_all Ts.Completed [VNum 0; VNum 1; VNum 2] [4], tt) = None.
Proof.
  assert (H : Drains Ts.step (Ts.range 0 2, tt) (VNum <$> seqZ 0 (2 - 0 + 1))
                Ts.finished (Ts.Completed, tt))
    by (apply ts_range_Drains; exact_bounds).
  split; [exact H|].
  exact (copy_iterator_hangs_after_done Ts.step ts_step_monotone _ _ _ _ _ _
           H eq_refl).
Defined.

Lemma copy_iterations_replay_witness :
  Drains Ts.step (Ts.range 0 2, tt) (VNum <$> seqZ 0 (2 - 0 + 1)) Ts.finished
    (Ts.Completed, tt) ∧
  in_turn 3 []
    [NewIterator; NewIterator; CallNext 0; CallNext 1; CallNext 1;
     CallNext 0; CallNext 0; CallNext 0; CallNext 1; CallNext 1] = true ∧
  ∃ s',
    CopyRuns Ts.step
      [NewIterator; NewIterator; CallNext 0; CallNext 1; CallNext 1;
       CallNext 0; CallNext 0; CallNext 0; CallNext 1; CallNext 1]
      (copy (Ts.range 0 2), tt)
      [yielded (VNum 0); yielded (VNum 0); yielded (VNum 1);
       yielded (VNum 1); yielded (VNum 2);
       {| value := VUndefined; done := true |};
       yielded (VNum 2); {| value := VUndefined; done := true |}]
      s' ∧
    s' = (copy_of_all Ts.Completed [VNum 0; VNum 1; VNum 2] [4; 4], tt).
Proof.
  assert (H : Drains Ts.step (Ts.range 0 2, tt) (VNum <$> seqZ 0 (2 - 0 + 1))
                Ts.finished (Ts.Completed, tt))
    by (apply ts_range_Drains; exact_bounds).
  split; [exact H|]. split; [reflexivity|].
  exact (proj1 (copy_iterations_replay Ts.step ts_step_monotone _ _ _ _ _ _
                  [NewIterator; NewIterator; CallNext 0; CallNext 1;
                   CallNext 1; CallNext 0; CallNext 0; CallNext 0;
                   CallNext 1; CallNext 1]
                  H eq_refl eq_refl)).
Defined.

(** C3 fails in its count.  On a sequence of three values that counts the
    calls of its [next], one iteration over the copy leaves the count at
    four, not three: [take(iterable, 1)] is called once more, and finds
    the end.  A second iteration leaves the count where it was. *)
Lemma copy_calls_next_once_more_than_values :
  toArray (Ts.step 1) 9 (counted_three, 0)
    = Some ([VNum 0; VNum 1; VNum 2], (counted_three, 4)) ∧
  toArray (copy_step Ts.step 0 2) 9 ((iterator (copy counted_three)).1, 0)
    = Some ([VNum 0; VNum 1; VNum 2],
            (copy_of_all counted_three [VNum 0; VNum 1; VNum 2] [4], 4)) ∧
  toArray (copy_step Ts.step 1 2) 9
    ((iterator (copy_of_all counted_three [VNum 0; VNum 1; VNum 2] [4])).1, 4)
    = Some ([VNum 0; VNum 1; VNum 2],
            (copy_of_all counted_three [VNum 0; VNum 1; VNum 2] [4; 4], 4)).
Proof. split_and!; vm_compute; reflexivity. Qed.
